(** * Dispa-SET post-processing: energy balance and stacked dispatch layout

    A shallow embedding of the data-carrying parts of
    [dispaset/postprocessing/plot.py]: [plot_dispatch], [plot_zone] and
    [get_congestion].

    Modelling conventions.
    - A pandas cell is [option Qc]: [None] is NaN, [Some q] is a finite
      number.  Arithmetic is exact (rationals); the rounding of IEEE doubles
      and the infinities are outside the model.
    - A Series is an index (list of timestamps) with a list of cells; a
      DataFrame is an index with an ordered list of labelled columns.
      Column labels of one frame are meant to be unique (a DataFrame keyed
      by technology, unit or line); a label is looked up at its first
      occurrence.
    - Python exceptions and [sys.exit] are values of [exn]; a computation
      that can raise returns [result].  [plot_dispatch] and [plot_zone]
      run in a state monad over a store of frame objects and the log.
    - Statements whose only effect is drawing (matplotlib calls, the title
      built from [demand.name], and the colour and hatch look-ups that feed
      the areas) are not modelled; [figure] records the data they draw. *)

From Stdlib Require Import QArith Qcanon Lqa.
From stdpp Require Import base option numbers list sorting strings gmap.

Local Open Scope Qc_scope.

(** ** Cells *)

Abbreviation timestamp := Z (only parsing).
Abbreviation cell := (option Qc) (only parsing).

Definition num (n : Z) : cell := Some (Q2Qc (inject_Z n)).

Definition Qc_min (x y : Qc) : Qc := if decide (x ≤ y) then x else y.
Definition Qc_max (x y : Qc) : Qc := if decide (x ≤ y) then y else x.
Definition Qc_abs (x : Qc) : Qc := if decide (0 ≤ x) then x else - x.

(** Binary arithmetic propagates NaN. *)
Definition cell_op (op : Qc → Qc → Qc) (a b : cell) : cell :=
  match a, b with
  | Some x, Some y => Some (op x y)
  | _, _ => None
  end.

Definition cell_add : cell → cell → cell := cell_op Qcplus.
Definition cell_sub : cell → cell → cell := cell_op Qcminus.
Definition cell_mul : cell → cell → cell := cell_op Qcmult.

(** [a / b]; a zero divisor gives no number. *)
Definition cell_div (a b : cell) : cell :=
  match a, b with
  | Some x, Some y => if decide (y = 0) then None else Some (x / y)
  | _, _ => None
  end.

Definition cell_neg (a : cell) : cell := Qcopp <$> a.
Definition cell_abs (a : cell) : cell := Qc_abs <$> a.

(** [np.minimum(0, a)] and [np.maximum(0, a)]. *)
Definition np_minimum0 (a : cell) : cell := Qc_min 0 <$> a.
Definition np_maximum0 (a : cell) : cell := Qc_max 0 <$> a.

(** Comparisons are False as soon as one side is NaN. *)
Definition cell_cmp (P : Qc → Qc → Prop) `{!RelDecision P} (a b : cell) : bool :=
  match a, b with
  | Some x, Some y => bool_decide (P x y)
  | _, _ => false
  end.

Definition cell_le : cell → cell → bool := cell_cmp Qcle.
Definition cell_gt : cell → cell → bool := cell_cmp (flip Qclt).
Definition cell_eqb : cell → cell → bool := cell_cmp (=).

(** ** Reductions over a list of cells (all with [skipna=True]) *)

Definition skipna (l : list cell) : list Qc := omap id l.

Definition Qc_sum (l : list Qc) : Qc := foldr Qcplus 0 l.

(** [.mean()]: NaN when no number is left. *)
Definition mean_cells (l : list cell) : cell :=
  match skipna l with
  | [] => None
  | xs => Some (Qc_sum xs / Qc_of_Z (Z.of_nat (length xs)))
  end.

Definition reduce_cells (op : Qc → Qc → Qc) (l : list cell) : cell :=
  match skipna l with
  | [] => None
  | x :: xs => Some (foldl op x xs)
  end.

(** [.max()] and [.min()]. *)
Definition max_cells : list cell → cell := reduce_cells Qc_max.
Definition min_cells : list cell → cell := reduce_cells Qc_min.

(** ** Exceptions *)

Inductive exn :=
  | ValueError
  | IndexError
  | KeyError
  | SystemExit (code : Z).

Inductive result (A : Type) :=
  | Ok (a : A)
  | Raise (e : exn).
Arguments Ok {A} a.
Arguments Raise {A} e.

Global Instance exn_eq_dec : EqDecision exn.
Proof. solve_decision. Defined.
Global Instance result_eq_dec `{EqDecision A} : EqDecision (result A).
Proof. solve_decision. Defined.

Global Instance result_ret : MRet result := @Ok.
Global Instance result_bind : MBind result := λ A B f m,
  match m with
  | Ok a => f a
  | Raise e => Raise e
  end.

Global Instance result_fmap : FMap result := λ A B f m,
  match m with
  | Ok a => Ok (f a)
  | Raise e => Raise e
  end.

(** A dictionary look-up that raises [KeyError]. *)
Definition or_raise {A} (e : exn) (o : option A) : result A :=
  match o with
  | Some a => Ok a
  | None => Raise e
  end.

(** ** Series *)

Record series := Series { index : list timestamp; values : list cell }.

Global Instance series_eq_dec : EqDecision series.
Proof. solve_decision. Defined.

(** [pd.Series(c, index=idx)] for a scalar [c]. *)
Definition constant_series (c : cell) (idx : list timestamp) : series :=
  Series idx (replicate (length idx) c).

Definition series_map (f : cell → cell) (s : series) : series :=
  Series (index s) (f <$> values s).

(** First entry of an association list. *)
Fixpoint assoc {K V} `{EqDecision K} (k : K) (l : list (K * V)) : option V :=
  match l with
  | [] => None
  | (k', v) :: l' => if decide (k' = k) then Some v else assoc k l'
  end.

(** The cell of [s] at label [t]; NaN when the label is absent. *)
Definition series_at (s : series) (t : timestamp) : cell :=
  default None (assoc t (zip (index s) (values s))).

(** [s.reindex(idx)], which is what [pd.Series(s, index=idx)] does: the
    cells of [s] at the labels of [idx], NaN where [s] has no such label.
    An index identical to the target is taken as it is; otherwise pandas
    refuses a source index with duplicate labels. *)
Definition reindex (s : series) (idx : list timestamp) : result series :=
  if decide (index s = idx) then Ok s
  else if decide (NoDup (index s)) then Ok (Series idx (series_at s <$> idx))
  else Raise ValueError.

(** The index two differently labelled operands are aligned on: the sorted
    union of their labels. *)
Definition union_index (i1 i2 : list timestamp) : list timestamp :=
  merge_sort Z.le (remove_dups (i1 ++ i2)).

(** [a op b] on two Series: cell by cell when the indexes are identical,
    otherwise on the union of the labels, a missing side being NaN (the
    alignment of indexes without repeated labels). *)
Definition series_binop (op : cell → cell → cell) (a b : series) : series :=
  if decide (index a = index b) then
    Series (index a) (zip_with op (values a) (values b))
  else
    let idx := union_index (index a) (index b) in
    Series idx ((λ t, op (series_at a t) (series_at b t)) <$> idx).

Definition series_add : series → series → series := series_binop cell_add.
Definition series_sub : series → series → series := series_binop cell_sub.
Definition series_mul : series → series → series := series_binop cell_mul.

(** [s / k] and [-s] for a scalar [k]. *)
Definition series_div (s : series) (k : Z) : series :=
  series_map (λ c, cell_div c (num k)) s.
Definition series_neg : series → series := series_map cell_neg.
Definition series_abs : series → series := series_map cell_abs.

(** [s.fillna(c)]. *)
Definition fillna (c : Qc) (s : series) : series :=
  series_map (λ x, Some (default c x)) s.

(** ** Frames *)

Record frame (L : Type) := Frame {
  f_index : list timestamp;
  columns : list (L * list cell)
}.
Arguments Frame {L} f_index columns.
Arguments f_index {L} f.
Arguments columns {L} f.

Global Instance frame_eq_dec `{EqDecision L} : EqDecision (frame L).
Proof. solve_decision. Defined.

Section frames.
Context {L : Type} `{EqDecision L}.
Implicit Types (f : frame L) (l : L).

(** [f.columns.tolist()] *)
Definition labels f : list L := fst <$> columns f.

(** [l in f] *)
Definition has_column l f : bool := bool_decide (l ∈ labels f).

(** [f[l]] *)
Definition get_column f l : result series :=
  Series (f_index f) <$> or_raise KeyError (assoc l (columns f)).

(** Replace the cells of the first column labelled [l], or append. *)
Fixpoint put_column l (v : list cell) (cs : list (L * list cell))
    : list (L * list cell) :=
  match cs with
  | [] => [(l, v)]
  | (l', v') :: cs' =>
      if decide (l' = l) then (l, v) :: cs' else (l', v') :: put_column l v cs'
  end.

(** [f[l] = s]: the Series is aligned on the frame's index, an existing
    column keeps its position, a new one goes last.  A frame whose index
    is still empty takes the index of a non-empty [s]. *)
Definition set_column f l (s : series) : result (frame L) :=
  if decide (f_index f = [] ∧ values s ≠ []) then
    let blank := replicate (length (values s)) None in
    Ok (Frame (index s)
          (put_column l (values s) ((λ c : L * list cell, (c.1, blank)) <$> columns f)))
  else
    s' ← reindex s (f_index f);
    Ok (Frame (f_index f) (put_column l (values s') (columns f))).

(** [f[l] = c] for a scalar [c]. *)
Definition set_column_scalar f l (c : cell) : frame L :=
  Frame (f_index f) (put_column l (replicate (length (f_index f)) c) (columns f)).

(** [f[ls]] for a list of labels. *)
Definition select_columns f (ls : list L) : result (frame L) :=
  Frame (f_index f) <$>
    mapM (λ l, (l,.) <$> or_raise KeyError (assoc l (columns f))) ls.

(** [del f[l]] *)
Definition del_column f l : result (frame L) :=
  if has_column l f then
    Ok (Frame (f_index f) (filter (λ c : L * list cell, c.1 ≠ l) (columns f)))
  else Raise KeyError.

(** [f / k] for a scalar [k]. *)
Definition map_cells (g : cell → cell) (cs : list (L * list cell))
    : list (L * list cell) :=
  (λ c : L * list cell, (c.1, g <$> c.2)) <$> cs.

Definition frame_div f (k : Z) : frame L :=
  Frame (f_index f) (map_cells (λ x, cell_div x (num k)) (columns f)).

(** Running row totals after adding one more column. *)
Definition add_column (acc : list Qc) (v : list cell) : list Qc :=
  zip_with (λ a x, a + default 0 x) acc v.

(** [f.sum(axis=1)]: per row, the sum of the numbers of the row. *)
Definition row_sums (n : nat) (cs : list (L * list cell)) : list Qc :=
  foldl (λ acc (c : L * list cell), add_column acc c.2) (replicate n 0) cs.

Definition sum_axis1 f : series :=
  Series (f_index f) (Some <$> row_sums (length (f_index f)) (columns f)).

(** [f.cumsum(axis=1)]: per row, the running sum from the left; a NaN
    cell stays NaN and adds nothing to the running sum. *)
Fixpoint cumsum_columns (acc : list Qc) (cs : list (L * list cell))
    : list (L * list cell) :=
  match cs with
  | [] => []
  | (l, v) :: cs' =>
      let acc' := add_column acc v in
      (l, zip_with (λ a x, (λ _ : Qc, a) <$> x) acc' v) :: cumsum_columns acc' cs'
  end.

Definition cumsum_axis1 f : frame L :=
  Frame (f_index f) (cumsum_columns (replicate (length (f_index f)) 0) (columns f)).

(** [f.dropna(axis=1)]: drop every column holding a NaN. *)
Definition dropna_axis1 f : frame L :=
  Frame (f_index f) (filter (λ c : L * list cell, Forall is_Some c.2) (columns f)).
End frames.

(** ** The store and the log *)

Inductive log_level := Critical | Error | Warning | Printed.

(** The messages the three functions write. *)
Inductive message :=
  | RngNotDatetimeIndex
  | RngNotProperlyDefined
  | CurtailmentIndexMismatch
  | ShedloadIndexMismatch
  | ShiftedloadIndexMismatch
  | ZoneNotInResults (z : string)
  | RandomlySelectedZone (z : string)
  | BalanceDifference (pct : cell) (z : string).

Global Instance log_level_eq_dec : EqDecision log_level.
Proof. solve_decision. Defined.
Global Instance message_eq_dec : EqDecision message.
Proof. solve_decision. Defined.

Abbreviation loc := positive (only parsing).

(** DataFrame objects live in a store and are passed by reference; the log
    collects what [logging] and [print] receive, oldest first. *)
Record state := State {
  heap : gmap loc (frame string);
  log : list (log_level * message)
}.

Global Instance state_eq_dec : EqDecision state.
Proof. solve_decision. Defined.

Definition M (A : Type) : Type := state → result A * state.

Global Instance M_ret : MRet M := λ A a st, (Ok a, st).
Global Instance M_bind : MBind M := λ A B f m st,
  match m st with
  | (Ok a, st') => f a st'
  | (Raise e, st') => (Raise e, st')
  end.

Definition raise {A} (e : exn) : M A := λ st, (Raise e, st).
Definition lift {A} (r : result A) : M A := λ st, (r, st).

Definition logging (lv : log_level) (m : message) : M () :=
  λ st, (Ok (), State (heap st) (log st ++ [(lv, m)])).

(** A reference always names an object; [load] of a location the store
    does not hold has no counterpart in Python and is reported as a
    [KeyError] of the store. *)
Definition load (p : loc) : M (frame string) :=
  λ st, (or_raise KeyError (heap st !! p), st).

Definition store (p : loc) (f : frame string) : M () :=
  λ st, (Ok (), State (<[p := f]> (heap st)) (log st)).

Definition alloc (f : frame string) : M loc :=
  λ st, let p := fresh (dom (heap st)) in
        (Ok p, State (<[p := f]> (heap st)) (log st)).

(** ** [plot_dispatch] *)

(** The [rng] argument: an index of the type of [demand.index], or a value
    of another type. *)
Inductive rng_arg := RngIndex (r : list timestamp) | RngOther.

(** The [level] argument: a DataFrame or a Series. *)
Inductive level_arg := LevelFrame (f : frame string) | LevelSeries (s : series).

(** [l[:k]] for a Python integer [k]. *)
Definition slice_to {A} (k : Z) (l : list A) : list A :=
  if decide (k < 0)%Z then take (length l - Z.to_nat (- k)) l
  else take (Z.to_nat k) l.

(** [plotdata.index[:min(len(plotdata) - 1, 7 * 24)]] *)
Definition first_week (f : frame string) : list timestamp :=
  slice_to (Z.min (Z.of_nat (length (f_index f)) - 1) (7 * 24)) (f_index f).

(** Netting the interconnections (lines 57-59).  Both right-hand sides are
    evaluated before the two columns are assigned. *)
Definition netting (plotdata : frame string) : result (frame string) :=
  if has_column "FlowIn" plotdata && has_column "FlowOut" plotdata then
    flow_in ← get_column plotdata "FlowIn";
    flow_out ← get_column plotdata "FlowOut";
    let new_out := series_map np_minimum0 (series_add flow_in flow_out) in
    let new_in := series_map np_maximum0 (series_add flow_out flow_in) in
    plotdata ← set_column plotdata "FlowOut" new_out;
    set_column plotdata "FlowIn" new_in
  else Ok plotdata.

(** The zero line (lines 63-67).  [cs] holds the columns from position [idx]
    on, so its head is [plotdata.iloc[:, idx]] and [idx < len(cols) - 1]
    says that its tail is not empty. *)
Fixpoint zero_line (idx : nat) (cs : list (string * list cell)) : nat :=
  match cs with
  | [] => idx
  | c :: rest =>
      if cell_le (mean_cells c.2) (num 0) && bool_decide (rest ≠ [])
      then zero_line (S idx) rest
      else idx
  end.

Definition foldl_result {A B} (g : A → B → result A) : A → list B → result A :=
  fix go a l :=
    match l with
    | [] => Ok a
    | b :: l' => a' ← g a b; go a' l'
    end.

(** [f.cumsum(axis=1)] with a column of zeros named "zero" put in front and
    the last column dropped from the label list (lines 77-79, 100-102). *)
Definition cumsum_from_zero (f : frame string) : result (frame string) :=
  let sumplot := set_column_scalar (cumsum_axis1 f) "zero" (num 0) in
  select_columns sumplot ("zero" :: removelast (labels sumplot)).

Record layout := Layout {
  idx_zero : nat;
  sumplot_neg : frame string;
  sumplot_pos : frame string
}.

Global Instance layout_eq_dec : EqDecision layout.
Proof. solve_decision. Defined.

(** Lines 62-79. *)
Definition stack_layout (plotdata : frame string) : result layout :=
  let cols := labels plotdata in
  if decide (cols = []) then Raise IndexError else
  let idx_zero := zero_line 0 (columns plotdata) in
  neg ← select_columns plotdata (take idx_zero cols);
  let tmp := sum_axis1 neg in
  sumplot_neg ← set_column (Frame [] []) "sum" tmp;
  tmp2 ← select_columns plotdata (take idx_zero cols);
  sumplot_neg ← foldl_result
    (λ acc col, c ← get_column tmp2 col; set_column acc col (series_neg c))
    sumplot_neg (labels tmp2);
  let sumplot_neg := cumsum_axis1 sumplot_neg in
  pos ← select_columns plotdata (drop idx_zero cols);
  sumplot_pos ← cumsum_from_zero pos;
  Ok (Layout idx_zero sumplot_neg sumplot_pos).

(** What the figure is drawn from. *)
Record figure := Figure {
  pdrng : list timestamp;
  fig_layout : layout;
  sumplot_lev : option (frame string);
  reduced_demand : series;
  load_changed : bool
}.

(** The plotting range (lines 44-54). *)
Definition plot_range (rng : option rng_arg) (plotdata : frame string)
    : M (list timestamp) :=
  match rng with
  | None => mret (first_week plotdata)
  | Some RngOther => logging Error RngNotDatetimeIndex;; raise ValueError
  | Some (RngIndex r) =>
      match head r, last r, head (f_index plotdata), last (f_index plotdata) with
      | Some r0, Some r1, Some i0, Some i1 =>
          if bool_decide (r0 < i0)%Z || bool_decide (r0 > i1)%Z
             || bool_decide (r1 < i0)%Z || bool_decide (r1 > i1)%Z
          then logging Warning RngNotProperlyDefined;; mret (first_week plotdata)
          else mret r
      | _, _, _, _ => raise IndexError
      end
  end.

(** The index test on an optional Series (lines 150-153, 164-175):
    [None] stands for an argument that is not a Series. *)
Definition check_index (lv : log_level) (msg : message)
    (s : option series) (demand : series) : M () :=
  match s with
  | Some s =>
      if decide (index s = index demand) then mret ()
      else logging lv msg;; raise (SystemExit 1)
  | None => mret ()
  end.

Definition plot_dispatch (demand : series) (plotdata : loc)
    (level : option level_arg) (curtailment shedload shiftedload : option series)
    (rng : option rng_arg) : M figure :=
  f ← load plotdata;
  pdrng ← plot_range rng f;
  (* both assignments carry the frame's own index and cannot raise: the
     object is updated once *)
  f ← lift (netting f);
  store plotdata f;;
  lay ← lift (stack_layout f);
  sumplot_lev ← match level with
    | Some (LevelFrame lv) => lev ← lift (cumsum_from_zero lv); mret (Some lev)
    | _ => mret None
    end;
  check_index Error CurtailmentIndexMismatch curtailment demand;;
  let load_change := constant_series (num 0) (index demand) in
  check_index Critical ShedloadIndexMismatch shedload demand;;
  let load_change :=
    match shedload with
    | Some s => series_add load_change (series_neg s)
    | None => load_change
    end in
  check_index Critical ShiftedloadIndexMismatch shiftedload demand;;
  let load_change :=
    match shiftedload with
    | Some s => series_add load_change (series_neg s)
    | None => load_change
    end in
  let reduced_demand := series_add demand load_change in
  mret (Figure pdrng lay sumplot_lev reduced_demand
          (bool_decide (is_Some shedload ∨ is_Some shiftedload))).

(** ** [plot_zone] *)

(** The entries of the [inputs] dictionary the three functions read:
    [inputs['sets']['n'|'t'|'l']], [inputs['param_df'][...]] and the
    [StorageCapacity] column of [inputs['units']], keyed by unit. *)
Record Inputs := {
  sets_n : list string;
  sets_t : list string;
  sets_l : list string;
  Demand : frame (string * string);
  FlowMaximum : frame string;
  AvailabilityFactor : frame string;
  StorageCapacity : list (string * cell)
}.

(** The [results] dictionary; [None] is a key that is absent. *)
Record Results := {
  OutputPower : option (frame string);
  OutputStorageLevel : option (frame string);
  OutputPowerConsumption : option (frame string);
  OutputShedLoad : option (frame string);
  OutputDemandModulation : option (frame string);
  OutputCurtailedPower : option (frame string)
}.

(** [pat in s] on strings. *)
Fixpoint contains (pat s : string) : bool :=
  String.prefix pat s ||
  match s with
  | EmptyString => false
  | String _ s' => contains pat s'
  end.

(** The technologies whose levels are summed (line 379). *)
Definition families : list string :=
  ["HDAM"; "HPHS"; "BEVS"; "BATS"; "SCSP"; "P2GS"].

(** Line 370. *)
Definition aggregation : bool := false.

Definition one_percent : cell := Some (Q2Qc (1 # 100)).

Section plot_zone.
(** Functions of [postprocessing.py], which [plot.py] imports; they are
    taken as they come, as total functions. *)
Variable get_plot_data : Inputs → Results → string → frame string.
Variable filter_by_zone : frame string → Inputs → string → frame string.
Variable filter_by_storage : frame string → Inputs → frame string.
Variable filter_by_tech : frame string → Inputs → string → frame string.

(** [inputs['sets']['n'][np.random.randint(Nzones)]]; [draw] is the source
    of randomness, [randint] refuses an empty range. *)
Definition random_zone (inputs : Inputs) (draw : nat) : M string :=
  let Nzones := length (sets_n inputs) in
  lift (or_raise ValueError (sets_n inputs !! (draw `mod` Nzones))).

(** Lines 358-366. *)
Definition select_zone (inputs : Inputs) (z : string) (draw : nat) : M string :=
  if decide (z = "") then
    z ← random_zone inputs draw;
    logging Printed (RandomlySelectedZone z);;
    mret z
  else if decide (z ∉ sets_n inputs) then
    logging Critical (ZoneNotInResults z);;
    z ← random_zone inputs draw;
    logging Critical (RandomlySelectedZone z);;
    mret z
  else mret z.

(** [lev * inputs['units']['StorageCapacity'].loc[lev.columns] / 1e3]:
    every column is scaled by the capacity of its unit (line 373). *)
Definition scale_by_capacity (lev : frame string) (cap : list (string * cell))
    : result (frame string) :=
  caps ← mapM (λ u, or_raise KeyError (assoc u cap)) (labels lev);
  Ok (Frame (f_index lev)
        (zip_with
           (λ (c : string * list cell) k,
              (c.1, (λ x, cell_div (cell_mul x k) (num 1000)) <$> c.2))
           (columns lev) caps)).

(** Lines 374-376. *)
Definition apply_availability (lev af : frame string) : result (frame string) :=
  foldl_result
    (λ lev col,
       if contains "BEVS" col then
         c ← get_column lev col;
         a ← get_column af col;
         set_column lev col (series_mul c a)
       else Ok lev)
    lev (labels lev).

(** Lines 383-385: the loop runs over the labels the frame had when it
    started. *)
Definition zero_drop (levels : frame string) : result (frame string) :=
  foldl_result
    (λ levels col,
       c ← get_column levels col;
       if cell_eqb (max_cells (values c)) (num 0)
          && cell_eqb (min_cells (values c)) (num 0)
       then del_column levels col
       else Ok levels)
    levels (labels levels).

(** Lines 378-385. *)
Definition family_levels (inputs : Inputs) (out_index : list timestamp)
    (level : frame string) : result (frame string) :=
  let levels :=
    Frame out_index ((λ t, (t, replicate (length out_index) None)) <$> sets_t inputs) in
  levels ← foldl_result
    (λ levels t,
       let temp := filter_by_tech level inputs t in
       set_column levels t (sum_axis1 temp))
    levels families;
  zero_drop (dropna_axis1 levels).

(** [results['OutputPower'].index] *)
Definition power_index (results : Results) : result (list timestamp) :=
  f_index <$> or_raise KeyError (OutputPower results).

(** Lines 370-391. *)
Definition storage_level (inputs : Inputs) (results : Results) (z : string)
    : result level_arg :=
  match OutputStorageLevel results with
  | Some osl =>
      let lev := filter_by_zone osl inputs z in
      lev ← scale_by_capacity lev (StorageCapacity inputs);
      lev ← apply_availability lev (AvailabilityFactor inputs);
      let level := filter_by_storage lev inputs in
      levels ← family_levels inputs (f_index osl) level;
      if aggregation then Ok (LevelSeries (sum_axis1 level))
      else Ok (LevelFrame levels)
  | None =>
      idx ← power_index results;
      Ok (LevelSeries (constant_series (num 0) idx))
  end.

(** Lines 393-405.  The sum of the three Series has no name, so that
    [pd.DataFrame(..., columns=[('DA', z)])[('DA', z)]] is that sum under
    a new name. *)
Definition zone_demand (inputs : Inputs) (results : Results) (z : string)
    : result series :=
  demand_p2h ←
    match OutputPowerConsumption results with
    | Some opc => Ok (sum_axis1 (frame_div (filter_by_zone opc inputs z) 1000))
    | None => constant_series (num 0) <$> power_index results
    end;
  demand_flex ←
    (if has_column ("Flex", z) (Demand inputs) then
       c ← get_column (Demand inputs) ("Flex", z); Ok (series_div c 1000)
     else constant_series (num 0) <$> power_index results);
  c ← get_column (Demand inputs) ("DA", z);
  let demand_da := series_div c 1000 in
  Ok (series_add (series_add demand_da demand_p2h) demand_flex).

(** Lines 409-418: a result column of the zone, in GW and on the index of
    the demand, its missing cells filled with 0; [sign] is applied
    before the division. *)
Definition zone_load (output : option (frame string)) (z : string)
    (sign : series → series) (demand : series) : result series :=
  match output with
  | Some f =>
      if has_column z f then
        c ← get_column f z;
        s ← reindex (series_div (sign c) 1000) (index demand);
        Ok (fillna 0 s)
      else Ok (series_div (constant_series (num 0) (index demand)) 1000)
  | None => Ok (series_div (constant_series (num 0) (index demand)) 1000)
  end.

(** Line 419. *)
Definition balance_difference (plotdata : frame string)
    (demand shifted_load shed_load : series) : series :=
  let sum_generation := sum_axis1 plotdata in
  series_abs
    (series_add (series_add (series_sub sum_generation demand) shifted_load)
       shed_load).

(** Lines 421-423.  The percentage is only text of the message. *)
Definition balance_check (diff demand : series) (z : string) : M () :=
  let diff_max := max_cells (values diff) in
  let demand_max := max_cells (values demand) in
  if cell_gt diff_max (cell_mul one_percent demand_max) then
    logging Critical
      (BalanceDifference (cell_mul (cell_div diff_max demand_max) (num 100)) z)
  else mret ().

(** Lines 425-428. *)
Definition zone_curtailment (results : Results) (z : string)
    : result (option series) :=
  match OutputCurtailedPower results with
  | Some f =>
      if has_column z f then
        c ← get_column f z; Ok (Some (series_div c 1000))
      else Ok None
  | None => Ok None
  end.

Definition plot_zone (inputs : Inputs) (results : Results) (z : string)
    (rng : option rng_arg) (draw : nat) : M bool :=
  z ← select_zone inputs z draw;
  plotdata ← alloc (frame_div (get_plot_data inputs results z) 1000);
  level ← lift (storage_level inputs results z);
  demand ← lift (zone_demand inputs results z);
  generation ← load plotdata;
  shed_load ← lift (zone_load (OutputShedLoad results) z id demand);
  shifted_load ← lift (zone_load (OutputDemandModulation results) z series_neg demand);
  balance_check (balance_difference generation demand shifted_load shed_load) demand z;;
  curtailment ← lift (zone_curtailment results z);
  plot_dispatch demand plotdata (Some level) curtailment
    (Some shed_load) (Some shifted_load) rng;;
  mret true.
End plot_zone.

(** ** [get_congestion] *)

(** [f.loc[idx, l]]: the cells of column [l] at the labels of [idx]. *)
Definition loc_column (f : frame string) (idx : list timestamp) (l : string)
    : result series :=
  c ← get_column f l;
  Series idx <$> mapM (λ t, or_raise KeyError (assoc t (zip (index c) (values c)))) idx.

(** [f.loc[idx, :].index.size] *)
Definition loc_size {L} (f : frame L) (idx : list timestamp) : result nat :=
  length <$> mapM (λ t, if decide (t ∈ f_index f) then Ok t else Raise KeyError) idx.

Fixpoint position (r : timestamp) (idx : list timestamp) : nat :=
  match idx with
  | [] => 0
  | t :: idx' => if decide (t = r) then 0 else S (position r idx')
  end.

(** [f.loc[r, l] = v], with enlargement: a missing row or column is added,
    its other cells NaN. *)
Definition loc_set (f : frame string) (r : timestamp) (l : string) (v : cell)
    : frame string :=
  let f :=
    if decide (r ∈ f_index f) then f
    else Frame (f_index f ++ [r])
           ((λ c : string * list cell, (c.1, c.2 ++ [None])) <$> columns f) in
  let old := default (replicate (length (f_index f)) None) (assoc l (columns f)) in
  Frame (f_index f) (put_column l (<[position r (f_index f) := v]> old) (columns f)).

(** [((flow == limit) & (limit > 0)).sum()] *)
Definition count_congested (flow limit : series) : nat :=
  length (filter (λ b, b = true)
            (zip_with (λ a b, cell_eqb a b && cell_gt b (num 0))
               (values flow) (values limit))).

(** A quotient whose divisor is 0 gives no number. *)
Definition get_congestion (inputs : Inputs) (flows : frame string)
    (idx : list timestamp) : result (frame string) :=
  let cols := filter (λ x, contains "RoW" x = false) (sets_l inputs) in
  let cgst := Frame [] ((λ x, (x, [])) <$> cols) in
  cgst ← foldl_result
    (λ cgst l,
       if bool_decide (String.substring 0 3 l ≠ "RoW")
          && bool_decide (String.substring (String.length l - 3) 3 l ≠ "RoW")
       then
         flow ← loc_column flows idx l;
         limit ← loc_column (FlowMaximum inputs) idx l;
         Ok (loc_set cgst 0 l (num (Z.of_nat (count_congested flow limit))))
       else Ok cgst)
    cgst (labels flows);
  let cgst := Frame (f_index cgst) (map_cells (λ x, Some (default 0 x)) (columns cgst)) in
  size ← loc_size (Demand inputs) idx;
  Ok (frame_div cgst (Z.of_nat size)).

(** ** Well-formed frames *)

(** Every column has one cell per row. *)
Definition frame_wf {L} (f : frame L) : Prop :=
  Forall (λ c : L * list cell, length c.2 = length (f_index f)) (columns f).

(** A dispatch frame: one column per technology label, the labels "sum" and
    "zero" being kept for the boundaries the layout adds. *)
Definition dispatch_frame (f : frame string) : Prop :=
  frame_wf f ∧ NoDup (labels f) ∧ ("sum" ∉ labels f) ∧ ("zero" ∉ labels f).

(** The number a column holds at row [i], NaN and a missing row counting
    for nothing. *)
Definition cell_value {L} (i : nat) (c : L * list cell) : Qc :=
  default 0 (default None (c.2 !! i)).

(** A Series whose maximum and minimum are both exactly 0. *)
Definition zero_series (v : list cell) : Prop :=
  max_cells v = Some 0 ∧ min_cells v = Some 0.

Global Instance zero_series_dec v : Decision (zero_series v).
Proof. unfold zero_series. apply _. Defined.

(** ** Congestion, as counted over a window *)

(** At [t] the flow equals the limit and the limit is positive. *)
Definition congested (flow limit : series) (t : timestamp) : Prop :=
  match series_at flow t, series_at limit t with
  | Some x, Some y => x = y ∧ 0 < y
  | _, _ => False
  end.

Global Instance congested_dec flow limit t : Decision (congested flow limit t).
Proof.
  unfold congested.
  destruct (series_at flow t), (series_at limit t); apply _.
Defined.

Definition congested_steps (flow limit : series) (idx : list timestamp) : nat :=
  length (filter (congested flow limit) idx).

(** The label neither starts nor ends with the rest-of-world marker. *)
Definition interior_line (l : string) : Prop :=
  String.substring 0 3 l ≠ "RoW" ∧
  String.substring (String.length l - 3) 3 l ≠ "RoW".

(** ** What is drawn from a frame of boundaries *)

(** One area per pair of consecutive columns, under the label of the
    second, between the first (lower) and the second (upper) boundary
    (lines 124-130 and 137-144). *)
Fixpoint bands (cs : list (string * list cell))
    : list (string * (list cell * list cell)) :=
  match cs with
  | c1 :: (c2 :: _) as rest => (c2.1, (c1.2, c2.2)) :: bands rest
  | _ => []
  end.

(** The boundaries of row [i], from the first column to the last. *)
Definition boundaries_at (i : nat) (f : frame string) : list cell :=
  (λ c : string * list cell, default None (c.2 !! i)) <$> columns f.

(** ** Notions used by the statements and their proofs *)

(** The netted columns of a FlowIn/FlowOut pair. *)
Definition netted_out (vin vout : list cell) : list cell :=
  np_minimum0 <$> zip_with cell_add vin vout.
Definition netted_in (vin vout : list cell) : list cell :=
  np_maximum0 <$> zip_with cell_add vout vin.

Definition same_length {L} (n : nat) (cs : list (L * list cell)) : Prop :=
  Forall (λ c, length c.2 = n) cs.

(** The cell of column [c] at row [i] is a number. *)
Definition numeric_at {L} (i : nat) (c : L * list cell) : Prop :=
  ∃ x : Qc, c.2 !! i = Some (Some x).

(** [m] relates every state it starts from to the state it ends in. *)
Definition stable {A} (R : relation state) (m : M A) : Prop :=
  ∀ st r st', m st = (r, st') → R st st'.

(** What a computation adds to the log. *)
Definition logs (P : log_level * message → Prop) : relation state :=
  λ st st', ∃ es, log st' = log st ++ es ∧ Forall P es.

(** The objects other than [p] are left alone. *)
Definition only_writes (p : loc) : relation state :=
  λ st st', ∀ q, q ≠ p → heap st' !! q = heap st !! q.

Definition same_heap : relation state := λ st st', heap st' = heap st.

(** A Series was supplied and its index is not the index of the demand. *)
Definition mismatched (demand : series) (s : option series) : Prop :=
  ∃ s', s = Some s' ∧ index s' ≠ index demand.

Global Instance mismatched_dec demand s : Decision (mismatched demand s).
Proof.
  destruct s as [s|].
  - destruct (decide (index s = index demand)) as [He|Hne].
    + right. intros (s' & [= <-] & ?). done.
    + left. by exists s.
  - right. by intros (s' & ? & ?).
Defined.

(** [m] is the largest number of [l]. *)
Definition is_max (m : Qc) (l : list cell) : Prop :=
  Some m ∈ l ∧ ∀ x, Some x ∈ l → x ≤ m.

Definition not_load_mismatch (e : log_level * message) : Prop :=
  e.2 ≠ ShedloadIndexMismatch ∧ e.2 ≠ ShiftedloadIndexMismatch.

Definition keep (c : string * list cell) : Prop := ¬ zero_series c.2.

(** The one-row table of counts: no row yet, or the row labelled 0. *)
Definition counts_wf (c : frame string) : Prop :=
  (f_index c = [] ∧ Forall (λ col, col.2 = []) (columns c)) ∨
  (f_index c = [0%Z] ∧ Forall (λ col, length col.2 = 1%nat) (columns c)).

(** The count the loop of [get_congestion] stores for line [l]. *)
Definition line_count (inputs : Inputs) (flows : frame string)
    (idx : list timestamp) (l : string) : nat :=
  congested_steps
    (Series (f_index flows) (default [] (assoc l (columns flows))))
    (Series (f_index (FlowMaximum inputs))
       (default [] (assoc l (columns (FlowMaximum inputs)))))
    idx.

Definition counted (inputs : Inputs) (flows : frame string)
    (idx : list timestamp) (c : frame string) (seen : list string) : Prop :=
  counts_wf c ∧
  ∀ l, l ∈ seen → interior_line l →
    f_index c = [0%Z] ∧
    assoc l (columns c) = Some [num (Z.of_nat (line_count inputs flows idx l))].

(** ** Worked examples *)

(** The frame of the stack split example: two timesteps, columns in merit
    order. *)
Definition stack_split_example : frame string :=
  Frame [0; 1]%Z
    [("Export", [num (-5); num (-5)]); ("Curtail", [num 0; num 0]);
     ("Gas", [num 60; num 60]); ("Wind", [num 40; num 42])].

(** A frame with both interconnection columns. *)
Definition flows_example : frame string :=
  Frame [0; 1]%Z
    [("FlowIn", [num 5; num 1]); ("Gas", [num 60; num 60]);
     ("FlowOut", [num (-3); num (-4)])].

Definition demand_example : series := Series [0; 1]%Z [num 62; num 57].

(** A store holding [flows_example] at location 1, and an empty log. *)
Definition store_example : state := State {[1%positive := flows_example]} [].

(** A shed-load Series that lacks the second timestamp of the demand. *)
Definition short_shedload : series := Series [0]%Z [num 1].

(** Four timesteps of two lines and one link to the rest of the world; the
    line "A -> B" is at its limit during the first two. *)
Definition congestion_flows : frame string :=
  Frame [0; 1; 2; 3]%Z
    [("A -> B", [num 10; num 10; num 3; num 4]);
     ("RoW -> A", [num 1; num 1; num 1; num 1]);
     ("B -> C", [num 0; num 5; num 2; num 0])].

Definition congestion_inputs : Inputs := {|
  sets_n := ["A"; "B"; "C"];
  sets_t := [];
  sets_l := ["A -> B"; "RoW -> A"; "B -> C"];
  Demand := Frame [0; 1; 2; 3]%Z [(("DA", "A"), [num 100; num 100; num 100; num 100])];
  FlowMaximum :=
    Frame [0; 1; 2; 3]%Z
      [("A -> B", [num 10; num 10; num 10; num 10]);
       ("RoW -> A", [num 1; num 1; num 1; num 1]);
       ("B -> C", [num 0; num 5; num 5; num 5])];
  AvailabilityFactor := Frame [] [];
  StorageCapacity := []
|}.

(** A zone whose generation exceeds its demand by 2 GW in the second hour. *)
Definition balance_inputs : Inputs := {|
  sets_n := ["Z1"];
  sets_t := ["HDAM"];
  sets_l := [];
  Demand := Frame [0; 1]%Z [(("DA", "Z1"), [num 100000; num 100000])];
  FlowMaximum := Frame [] [];
  AvailabilityFactor := Frame [] [];
  StorageCapacity := []
|}.

Definition balance_generation : frame string :=
  Frame [0; 1]%Z [("Gas", [num 60000; num 60000]); ("Wind", [num 40000; num 42000])].

Definition balance_results : Results := {|
  OutputPower := Some balance_generation;
  OutputStorageLevel := None;
  OutputPowerConsumption := None;
  OutputShedLoad := None;
  OutputDemandModulation := None;
  OutputCurtailedPower := None
|}.

(** A shed-load result that lacks the second hour. *)
Definition shed_results : frame string := Frame [0]%Z [("Z1", [num 3000])].

(** Two family aggregates, the first identically zero. *)
Definition levels_example : frame string :=
  Frame [0; 1]%Z [("HDAM", [num 0; num 0]); ("HPHS", [num 1; num 0])].

(** The layout of [stack_split_example]. *)
Definition stack_split_layout : layout :=
  {| idx_zero := 2;
     sumplot_neg :=
       Frame [0; 1]%Z
         [("sum", [num (-5); num (-5)]); ("Export", [num 0; num 0]);
          ("Curtail", [num 0; num 0])];
     sumplot_pos :=
       Frame [0; 1]%Z
         [("zero", [num 0; num 0]); ("Gas", [num 60; num 60]);
          ("Wind", [num 100; num 102])] |}.

(** The congestion of [congestion_flows] over its first two timesteps. *)
Definition congestion_of_window : frame string :=
  Frame [0]%Z [("A -> B", [num 1]); ("B -> C", [Some (Q2Qc (1 # 2))])].

(** The generation and the demand of the balance example, in GW, and a
    load of zero. *)
Definition balance_plotdata : frame string := frame_div balance_generation 1000.
Definition balance_demand : series := Series [0; 1]%Z [num 100; num 100].
Definition no_load : series := constant_series (num 0) [0; 1]%Z.

Definition empty_state : state := State ∅ [].

(** The helpers of [postprocessing.py], for the examples: the generation of
    the zone as it is, and filters that keep everything. *)
Definition example_plot_data (inputs : Inputs) (results : Results) (z : string)
    : frame string := balance_generation.
Definition keep_zone (f : frame string) (inputs : Inputs) (z : string)
    : frame string := f.
Definition keep_storage (f : frame string) (inputs : Inputs) : frame string := f.
Definition keep_tech (f : frame string) (inputs : Inputs) (t : string)
    : frame string := f.

(** * Further functions of [plot.py]

    [compute_bbox_with_margins], [plot_zone_capacities],
    [plot_energy_zone_fuel], [plot_rug], [plot_storage_levels] and the
    window of [plot_line_congestion_map], under the conventions above.
    The dictionary [commons] of [dispaset/common.py] and [get_imports] of
    [postprocessing.py] are parameters; the matplotlib calls are not
    modelled. *)

(** ** [compute_bbox_with_margins] *)

(** [row.min()] and [row.max()] of a numpy row: NaN as soon as one entry
    is NaN (the pandas reductions skip it, numpy's do not); a row without
    entries has no minimum and the reduction raises [ValueError]. *)
Definition np_reduce (op : Qc → Qc → Qc) (row : list cell) : result cell :=
  match row with
  | [] => Raise ValueError
  | c :: row' => Ok (foldl (cell_op op) c row')
  end.

Definition np_min : list cell → result cell := np_reduce Qc_min.
Definition np_max : list cell → result cell := np_reduce Qc_max.

(** Lines 1060-1069.  [np.asarray((x, y))] has two rows of one length;
    with rows of different lengths there is no second axis to reduce
    along, and numpy raises a [ValueError].  The result is
    [((x1, y1), (x2, y2))]. *)
Definition compute_bbox_with_margins (x y : list cell) (margin_type : string)
    (margin : Qc) : result ((cell * cell) * (cell * cell)) :=
  if decide (length x = length y) then
    minx ← np_min x;
    miny ← np_min y;
    maxx ← np_max x;
    maxy ← np_max y;
    let m := Some margin in
    if decide (margin_type = "Fixed") then
      Ok ((cell_sub minx m, cell_sub miny m), (cell_add maxx m, cell_add maxy m))
    else
      Ok ((cell_sub minx (cell_mul m (cell_sub maxx minx)),
           cell_sub miny (cell_mul m (cell_sub maxy miny))),
          (cell_add maxx (cell_mul m (cell_sub maxx minx)),
           cell_add maxy (cell_mul m (cell_sub maxy miny))))
  else Raise ValueError.

(** ** Tables keyed by zone and fuel *)

(** [s.unique()], and the keys of a dict filled in a loop: the values in
    the order of their first occurrence. *)
Definition unique {A} `{EqDecision A} (l : list A) : list A :=
  foldl (λ seen x, if decide (x ∈ seen) then seen else seen ++ [x]) [] l.

(** A DataFrame whose rows are labelled by strings (zones). *)
Record table := Table {
  t_index : list string;
  t_columns : list (string * list cell)
}.

Global Instance table_eq_dec : EqDecision table.
Proof. solve_decision. Defined.

Definition t_labels (t : table) : list string := (t_columns t).*1.

(** [pd.DataFrame(index=idx, columns=cols)]: every cell is NaN. *)
Definition empty_table (idx cols : list string) : table :=
  Table idx ((λ c, (c, replicate (length idx) None)) <$> cols).

(** [t.loc[r, c] = v].  A row or a column that is missing is added first,
    its cells NaN; then every cell labelled [r] of every column labelled
    [c] is set. *)
Definition table_set (t : table) (r c : string) (v : cell) : table :=
  let t1 :=
    if decide (r ∈ t_index t) then t
    else Table (t_index t ++ [r])
           ((λ col : string * list cell, (col.1, col.2 ++ [None])) <$> t_columns t) in
  let t2 :=
    if decide (c ∈ t_labels t1) then t1
    else Table (t_index t1)
           (t_columns t1 ++ [(c, replicate (length (t_index t1)) None)]) in
  Table (t_index t2)
    ((λ col : string * list cell,
        if decide (col.1 = c)
        then (col.1, zip_with (λ lbl old, if decide (lbl = r) then v else old)
                       (t_index t2) col.2)
        else col) <$> t_columns t2).

(** [t[c] = v] for a scalar [v]. *)
Definition table_set_scalar (t : table) (c : string) (v : cell) : table :=
  let filled := replicate (length (t_index t)) v in
  if decide (c ∈ t_labels t) then
    Table (t_index t)
      ((λ col : string * list cell, if decide (col.1 = c) then (col.1, filled) else col)
         <$> t_columns t)
  else Table (t_index t) (t_columns t ++ [(c, filled)]).

(** [t[cols]]: for each label in turn, the columns that carry it. *)
Definition table_select (t : table) (cols : list string) : result table :=
  (λ found, Table (t_index t) (concat found)) <$>
    mapM (λ c, match filter (λ col : string * list cell, col.1 = c) (t_columns t) with
               | [] => Raise KeyError
               | found => Ok found
               end) cols.

(** [t / k] for a scalar [k]. *)
Definition table_div (t : table) (k : Z) : table :=
  Table (t_index t) (map_cells (λ x, cell_div x (num k)) (t_columns t)).

(** [d[lvl]] on columns labelled by pairs: the columns whose first label
    is [lvl], under their second label. *)
Definition level_columns (d : frame (string * string)) (lvl : string)
    : result (list (string * list cell)) :=
  match filter (λ c : (string * string) * list cell, c.1.1 = lvl) (columns d) with
  | [] => Raise KeyError
  | found => Ok ((λ c : (string * string) * list cell, (c.1.2, c.2)) <$> found)
  end.

(** The rows of [inputs['units']], in the order of its index, which holds
    no label twice: the unit and the columns the functions read. *)
Record unit_row := UnitRow {
  u_name : string;
  u_Zone : string;
  u_Fuel : string;
  u_Technology : string;
  u_PowerCapacity : cell;
  u_Nunits : cell;
  u_StorageCapacity : cell
}.

(** The rows of [PPindicators]. *)
Record indicator := Indicator {
  pp_Fuel : string;
  pp_Zone : string;
  pp_Generation : cell
}.

(** [(value[idx] * units.Nunits[idx]).sum()] for the units of zone [n] and
    fuel [f]. *)
Definition capacity_sum (units : list unit_row) (value : unit_row → cell)
    (n f : string) : cell :=
  Some (Qc_sum (skipna
    ((λ u, cell_mul (value u) (u_Nunits u))
       <$> filter (λ u, u_Zone u = n ∧ u_Fuel u = f) units))).

(** [PPindicators[(Fuel == f) & (Zone == z)].Generation.sum()] *)
Definition generation_sum (PPindicators : list indicator) (f z : string) : cell :=
  Some (Qc_sum (skipna
    (pp_Generation <$> filter (λ p, pp_Fuel p = f ∧ pp_Zone p = z) PPindicators))).

Section commons.
Variable MeritOrder : list string.
Variable Fuels : list string.
Variable colors : list (string * string).
Variable get_imports : frame string → string → cell.

(** ** [plot_zone_capacities] *)

(** Lines 324-347; [sets_f] is [inputs['sets']['f']].  The result is the
    pair of the tables under the keys 'PowerCapacity' and
    'StorageCapacity'. *)
Definition plot_zone_capacities (inputs : Inputs) (units : list unit_row)
    (sets_f : list string) (plot : bool) : result (table * table) :=
  let ZoneFuels := unique ((λ u, (u_Zone u, u_Fuel u)) <$> units) in
  let PowerCapacity := empty_table (sets_n inputs) sets_f in
  let StorageCapacity := empty_table (sets_n inputs) sets_f in
  let '(PowerCapacity, StorageCapacity) :=
    foldl
      (λ (acc : table * table) (nf : string * string),
         (table_set acc.1 nf.1 nf.2 (capacity_sum units u_PowerCapacity nf.1 nf.2),
          table_set acc.2 nf.1 nf.2 (capacity_sum units u_StorageCapacity nf.1 nf.2)))
      (PowerCapacity, StorageCapacity) ZoneFuels in
  let cols := filter (λ col, col ∈ t_labels PowerCapacity) MeritOrder in
  PowerCapacity ← table_select PowerCapacity cols;
  if plot then
    _ ← mapM (λ tech, or_raise KeyError (assoc tech colors)) (t_labels PowerCapacity);
    _ ← level_columns (Demand inputs) "DA";
    Ok (PowerCapacity, StorageCapacity)
  else Ok (PowerCapacity, StorageCapacity).

(** ** [plot_energy_zone_fuel] *)

(** Lines 289-315; [OutputFlow] is [results['OutputFlow']] where the key
    is present. *)
Definition plot_energy_zone_fuel (inputs : Inputs) (OutputFlow : option (frame string))
    (PPindicators : list indicator) : result table :=
  let fuels := unique (pp_Fuel <$> PPindicators) in
  let zones := unique (pp_Zone <$> PPindicators) in
  let GenPerZone := empty_table zones fuels in
  let GenPerZone :=
    foldl
      (λ G f, if decide (f ∈ t_labels G) then G else table_set_scalar G f (num 0))
      GenPerZone (Fuels ++ ["FlowIn"]) in
  GenPerZone ← foldl_result
    (λ G z,
       let G := foldl (λ G f, table_set G z f (generation_sum PPindicators f z)) G fuels in
       flow ← or_raise KeyError OutputFlow;
       let NetImports := get_imports flow z in
       if cell_gt NetImports (num 0) then Ok (table_set G z "FlowIn" NetImports)
       else Ok G)
    GenPerZone zones;
  let cols := filter (λ col, col ∈ t_labels GenPerZone) MeritOrder in
  GenPerZone ← table_select GenPerZone cols;
  let GenPerZone := table_div GenPerZone 1000000 in
  _ ← mapM (λ tech, or_raise KeyError (assoc tech colors)) (t_labels GenPerZone);
  _ ← level_columns (Demand inputs) "DA";
  Ok GenPerZone.
End commons.

(** ** [plot_rug] *)

(** The argument: a DataFrame, a Series with its name, or something else. *)
Inductive rug_arg :=
  | RugFrame (f : frame string)
  | RugSeries (name : option string) (s : series)
  | RugOther.

(** What one axis shows: nothing, the marks of the on/off mode (1 where
    the series operates, NaN elsewhere), or the values with the ends of
    the colour scale. *)
Inductive rug_marks :=
  | Blank
  | OnOff (flags : list cell)
  | Scatter (c : list cell) (vmin vmax : cell).

Record rug_axis := RugAxis { ylabel : string; marks : rug_marks }.

Global Instance rug_marks_eq_dec : EqDecision rug_marks.
Proof. solve_decision. Defined.
Global Instance rug_axis_eq_dec : EqDecision rug_axis.
Proof. solve_decision. Defined.

(** Lines 225-229, with [replace(False, np.nan)] of line 258. *)
Definition flag_operation (v : cell) : cell :=
  match v with
  | None => None
  | Some x => if decide (x = 0) then None else Some 1
  end.

(** [np.isclose(a, b)] with its default tolerances:
    [|a - b| <= 1e-8 + 1e-5 * |b|], False when one side is NaN. *)
Definition np_isclose (a b : cell) : bool :=
  match a, b with
  | Some x, Some y =>
      bool_decide (Qc_abs (x - y)
                   ≤ Q2Qc (1 # 100000000) + Q2Qc (1 # 100000) * Qc_abs y)
  | _, _ => false
  end.

(** The body of the loop (lines 249-275) for one column; the state is
    [(max_color, min_color)]. *)
Definition rug_step (on_off normalized : bool) (st : cell * cell)
    (col : string * list cell) : (cell * cell) * rug_axis :=
  let label := String.substring 0 30 col.1 in
  if cell_gt (Some (Qc_sum (skipna col.2))) (num 0) then
    if on_off then (st, RugAxis label (OnOff (flag_operation <$> col.2)))
    else
      let st := if normalized then st else (max_cells col.2, min_cells col.2) in
      let max_color := st.1 in
      let min_color :=
        if np_isclose st.2 max_color
        then cell_mul st.2 (Some (Q2Qc (99 # 100)))
        else st.2 in
      ((max_color, min_color), RugAxis label (Scatter col.2 min_color max_color))
  else (st, RugAxis label Blank).

Fixpoint rug_axes (on_off normalized : bool) (st : cell * cell)
    (cols : list (string * list cell)) : list rug_axis :=
  match cols with
  | [] => []
  | col :: cols' =>
      let '(st', ax) := rug_step on_off normalized st col in
      ax :: rug_axes on_off normalized st' cols'
  end.

(** Lines 232-279.  [np.nanmax] of an array without entries, which a
    frame without columns has, raises [ValueError]; a Series without a
    name becomes the column 0. *)
Definition plot_rug (df_series : rug_arg) (on_off normalized : bool)
    : result (list rug_axis) :=
  df ← match df_series with
       | RugFrame f => Ok f
       | RugSeries name s => Ok (Frame (index s) [(default "0" name, values s)])
       | RugOther => Raise ValueError
       end;
  if decide (length (f_index df) < 1)%nat then Raise ValueError
  else if decide (columns df = []) then Raise ValueError
  else
    let all_values := concat ((columns df).*2) in
    let max_color := max_cells all_values in
    let min_color := min_cells all_values in
    Ok (rug_axes on_off normalized (max_color, min_color) (columns df)).

(** ** [plot_storage_levels] *)

(** The units of zone [z] and technology [tech], in the order of the
    index (lines 476-478). *)
Definition units_of (units : list unit_row) (z tech : string) : list string :=
  u_name <$> filter (λ u, u_Zone u = z ∧ u_Technology u = tech) units.

(** [f.iloc[:, 0]] *)
Definition iloc_first (f : frame string) : result series :=
  match columns f with
  | [] => Raise IndexError
  | c :: _ => Ok (Series (f_index f) c.2)
  end.

(** The three levels that are drawn. *)
Record storage_plot := StoragePlot {
  bats_soc : series;
  h2_soc : series;
  hdam_soc : series
}.

Global Instance storage_plot_eq_dec : EqDecision storage_plot.
Proof. solve_decision. Defined.

(** Lines 476-508. *)
Definition plot_storage_levels (units : list unit_row) (results : Results)
    (z : string) : result (storage_plot * bool) :=
  let BATS_unit := units_of units z "BATS" in
  let H2_unit := units_of units z "P2GS" in
  let HDAM_unit := units_of units z "HDAM" in
  level ← or_raise KeyError (OutputStorageLevel results);
  BATS_level ← select_columns level BATS_unit;
  H2_level ← select_columns level H2_unit;
  HDAM_level ← select_columns level HDAM_unit;
  bats ← iloc_first BATS_level;
  h2 ← iloc_first H2_level;
  hdam ← iloc_first HDAM_level;
  Ok (StoragePlot bats h2 hdam, true).

(** ** [plot_line_congestion_map] *)

(** [logging.info('No datetime range specified, ...')] *)
Inductive notice := NoDatetimeRange.

Global Instance notice_eq_dec : EqDecision notice.
Proof. solve_decision. Defined.

(** Lines 1228-1239: the table of congestion the map is drawn from, with
    what is logged on the way.  [geo] is [inputs['geo']] and [OutputFlow]
    is [results['OutputFlow']], where the keys are present. *)
Definition plot_line_congestion_map (inputs : Inputs) (geo : option (frame string))
    (OutputFlow : option (frame string)) (idx : option (list timestamp))
    : list notice * result (frame string) :=
  match geo, OutputFlow with
  | Some _, Some flows =>
      let '(idx, notes) :=
        match idx with
        | None => (f_index (Demand inputs), [NoDatetimeRange])
        | Some idx => (idx, [])
        end in
      (notes, get_congestion inputs flows idx)
  | _, _ => ([], Raise KeyError)
  end.

(** ** Notions used by the statements on these functions *)

(** A column after the loop of lines 374-376. *)
Definition availability_scaled (af : frame string) (c : string * list cell)
    : string * list cell :=
  if contains "BEVS" c.1
  then (c.1, zip_with cell_mul c.2 (default [] (assoc c.1 (columns af))))
  else c.

(** [m] is the smallest number of [l]. *)
Definition is_min (m : Qc) (l : list cell) : Prop :=
  Some m ∈ l ∧ ∀ x, Some x ∈ l → m ≤ x.

(** The margin a bounding box adds on one axis whose coordinates span
    from [lo] to [hi]. *)
Definition bbox_margin (margin_type : string) (margin lo hi : Qc) : Qc :=
  if decide (margin_type = "Fixed") then margin else margin * (hi - lo).

(** The cell of a table at row [r] and column [c]; NaN where the table
    has no such row or column. *)
Definition table_at (t : table) (r c : string) : cell :=
  match assoc c (t_columns t) with
  | Some col => default None (assoc r (zip (t_index t) col))
  | None => None
  end.

(** Every column has one cell per row. *)
Definition table_wf (t : table) : Prop :=
  Forall (λ c : string * list cell, length c.2 = length (t_index t)) (t_columns t).

(** Some unit of zone [n] burns fuel [f]. *)
Definition zone_has_fuel (units : list unit_row) (n f : string) : Prop :=
  Exists (λ u, u_Zone u = n ∧ u_Fuel u = f) units.

(** ** Worked examples for these functions *)

(** Three plants in two simulated zones, one of them without a storage
    capacity, and a plant whose zone and fuel are not among the sets. *)
Definition capacity_units : list unit_row :=
  [UnitRow "u1" "BE" "GAS" "COMC" (num 100) (num 2) (num 0);
   UnitRow "u2" "BE" "WAT" "HDAM" (num 50) (num 1) (num 500);
   UnitRow "u3" "BE" "GAS" "COMC" (num 10) (num 1) None;
   UnitRow "u4" "NL" "WIN" "WTON" (num 30) (num 3) (num 0);
   UnitRow "u5" "XX" "OTH" "WTON" (num 7) (num 1) (num 1)].

Definition capacity_inputs : Inputs := {|
  sets_n := ["BE"; "NL"; "FR"];
  sets_t := ["HDAM"; "COMC"];
  sets_l := [];
  Demand := Frame [0; 1]%Z [(("DA", "BE"), [num 1; num 1])];
  FlowMaximum := Frame [] [];
  AvailabilityFactor := Frame [] [];
  StorageCapacity := []
|}.

(** The numbers of a column all lie at or below [hi]. *)
Definition bounded_by (hi : Qc) (c : list cell) : Prop :=
  ∀ x, Some x ∈ c → x ≤ hi.

(** The frame [plot_rug] works on, where its argument is a frame or a
    Series. *)
Definition rug_frame (df_series : rug_arg) : option (frame string) :=
  match df_series with
  | RugFrame f => Some f
  | RugSeries name s => Some (Frame (index s) [(default "0" name, values s)])
  | RugOther => None
  end.

(** A shed load on the index of [demand_example]. *)
Definition shed_example : series := Series [0; 1]%Z [num 1; num 2].

(** Levels of a vehicle fleet and of a dam, with the availability of the
    fleet. *)
Definition fleet_levels : frame string :=
  Frame [0; 1]%Z [("BE_BEVS", [num 10; num 20]); ("BE_HDAM", [num 5; num 5])].
Definition fleet_availability : frame string :=
  Frame [0; 1]%Z [("BE_BEVS", [Some (Q2Qc (1 # 2)); num 1])].

(** The merit order, the fuels, the colours and the indicators of an
    example with two zones; the first zone imports 2 TWh, the second
    exports. *)
Definition merit_example : list string := ["FlowIn"; "WIN"; "GAS"; "NUC"; "XXX"].
Definition fuels_example : list string := ["GAS"; "NUC"; "WIN"].
Definition colors_example : list (string * string) :=
  [("FlowIn", "red"); ("WIN", "green"); ("GAS", "blue"); ("NUC", "yellow");
   ("XXX", "black")].
Definition indicators_example : list indicator :=
  [Indicator "GAS" "BE" (num 3000000); Indicator "WIN" "NL" (num 1000000);
   Indicator "GAS" "BE" (num 1000000); Indicator "GAS" "NL" None].
Definition imports_example (flow : frame string) (z : string) : cell :=
  if decide (z = "BE") then num 2000000 else num (-5).

(** Four series for the rug plot: one with a NaN, one that is constant,
    one that is zero, one with a negative value. *)
Definition rug_example : frame string :=
  Frame [0; 1; 2]%Z
    [("a", [num 1; num 0; None]); ("b", [num 5; num 5; num 5]);
     ("c", [num 0; num 0; num 0]); ("d", [num (-1); num 3; num 0])].

(** Results with the levels of one dam. *)
Definition dam_results : Results := {|
  OutputPower := None;
  OutputStorageLevel := Some (Frame [0]%Z [("u2", [num 1])]);
  OutputPowerConsumption := None;
  OutputShedLoad := None;
  OutputDemandModulation := None;
  OutputCurtailedPower := None
|}.

(** ** Notions used by the proofs on these functions *)

(** The fuels of the indicators, in the order of their first occurrence. *)
Definition indicator_fuels (PPindicators : list indicator) : list string :=
  unique (pp_Fuel <$> PPindicators).

(** What the loop of lines 297-303 leaves in row [z] and column [c] of a
    table that held [old] there. *)
Definition zone_row (get_imports : frame string → string → cell)
    (flow : frame string) (PPindicators : list indicator) (z c : string)
    (old : cell) : cell :=
  if decide (c = "FlowIn" ∧ cell_gt (get_imports flow z) (num 0) = true)
  then get_imports flow z
  else if decide (c ∈ indicator_fuels PPindicators)
  then generation_sum PPindicators c z
  else old.

(** One turn of that loop. *)
Definition zone_step (get_imports : frame string → string → cell)
    (flow : frame string) (PPindicators : list indicator) (G : table)
    (z : string) : table :=
  let G :=
    foldl (λ G f, table_set G z f (generation_sum PPindicators f z)) G
      (indicator_fuels PPindicators) in
  if cell_gt (get_imports flow z) (num 0)
  then table_set G z "FlowIn" (get_imports flow z)
  else G.

(** The state of the loop of [plot_rug] in the normalized mode: the
    largest number of the frame, and a lower end that does not exceed
    it. *)
Definition rug_state (normalized : bool) (all_values : list cell)
    (st : cell * cell) : Prop :=
  normalized = true →
  ∀ x, Some x ∈ all_values →
    ∃ hi lo, st = (Some hi, Some lo) ∧ lo ≤ hi ∧ is_max hi all_values.

(** What the loop over the families keeps: the index, distinct labels, and
    blank columns for every label that is not a family. *)
Definition families_filled (idx : list timestamp) (f : frame string) : Prop :=
  f_index f = idx ∧ NoDup (labels f) ∧
  ∀ c, c ∈ columns f → c.1 ∉ families → c.2 = replicate (length idx) None.

(** The columns of the table of counts that no flow has written: one
    blank cell per row. *)
Definition idle_columns (flows : frame string) (cols : list string)
    (c : frame string) : Prop :=
  ∀ l, l ∈ cols → l ∉ labels flows →
    assoc l (columns c) = Some (replicate (length (f_index c)) None).

(** The flows of [congestion_flows] without the line "B -> C". *)
Definition single_line_flows : frame string :=
  Frame [0; 1; 2; 3]%Z
    [("A -> B", [num 10; num 10; num 3; num 4]);
     ("RoW -> A", [num 1; num 1; num 1; num 1])].

(** * Properties *)

(** ** Cells *)

Lemma Qc_max_min_0 (x : Qc) : Qc_max 0 x + Qc_min 0 x = x.
Proof. unfold Qc_max, Qc_min. case_decide; ring. Qed.

Lemma Qc_min_max_0 (x : Qc) : Qc_min 0 x + Qc_max 0 x = x.
Proof. rewrite Qcplus_comm. apply Qc_max_min_0. Qed.

Lemma cell_add_comm (a b : option Qc) : cell_add a b = cell_add b a.
Proof. destruct a, b; simpl; try done. f_equal. apply Qcplus_comm. Qed.

Lemma cell_add_netted (s : option Qc) :
  cell_add (np_maximum0 s) (np_minimum0 s) = s.
Proof. destruct s as [x|]; simpl; [|done]. f_equal. apply Qc_max_min_0. Qed.

(** ** Association lists *)

Section assoc.
Context {K V : Type} `{EqDecision K}.
Implicit Types (k : K) (v : V) (l : list (K * V)).

Lemma assoc_Some_elem k v l : assoc k l = Some v → (k, v) ∈ l.
Proof.
  induction l as [|[k' v'] l IH]; simpl; [done|].
  case_decide; intros; simplify_eq; [left | right; auto].
Qed.

Lemma assoc_is_Some k l : is_Some (assoc k l) ↔ k ∈ l.*1.
Proof.
  induction l as [|[k' v'] l IH]; simpl.
  - split; [by intros [? ?] | by intros ?%elem_of_nil].
  - case_decide; subst.
    + split; [left | eauto].
    + rewrite IH. split; [by right | by intros [?|?]%elem_of_cons].
Qed.

Lemma assoc_None k l : assoc k l = None ↔ k ∉ l.*1.
Proof. rewrite <-assoc_is_Some, eq_None_not_Some. done. Qed.

Lemma assoc_NoDup k v l : NoDup l.*1 → (k, v) ∈ l → assoc k l = Some v.
Proof.
  induction l as [|[k' v'] l IH]; simpl; [by intros _ ?%elem_of_nil|].
  intros [Hk Hl]%NoDup_cons [?|Hin]%elem_of_cons; simplify_eq.
  - by rewrite decide_True.
  - rewrite decide_False; [auto|]. intros ->. apply Hk.
    apply list_elem_of_fmap. by exists (k, v).
Qed.
End assoc.

Section put_column.
Context {L : Type} `{EqDecision L}.
Implicit Types (l : L) (v : list (option Qc)) (cs : list (L * list (option Qc))).

Lemma assoc_put_column_eq l v cs : assoc l (put_column l v cs) = Some v.
Proof.
  induction cs as [|[l' v'] cs IH]; simpl.
  - by rewrite decide_True.
  - case_decide; simpl; [by rewrite decide_True | by rewrite decide_False].
Qed.

Lemma assoc_put_column_ne l l' v cs :
  l ≠ l' → assoc l' (put_column l v cs) = assoc l' cs.
Proof.
  intros Hne. induction cs as [|[l0 v0] cs IH]; simpl.
  - by rewrite decide_False.
  - case_decide; subst; simpl.
    + by rewrite !decide_False.
    + by rewrite IH.
Qed.

Lemma put_column_labels l v cs :
  l ∈ cs.*1 → (put_column l v cs).*1 = cs.*1.
Proof.
  induction cs as [|[l0 v0] cs IH]; simpl; [by intros ?%elem_of_nil|].
  intros Hin. case_decide; subst; simpl; [done|].
  f_equal. apply IH. by apply elem_of_cons in Hin as [?|?].
Qed.

Lemma put_column_fresh l v cs : l ∉ cs.*1 → put_column l v cs = cs ++ [(l, v)].
Proof.
  induction cs as [|[l0 v0] cs IH]; simpl; [done|].
  intros Hin. apply not_elem_of_cons in Hin as [? ?].
  rewrite decide_False by done. by rewrite IH.
Qed.

Lemma put_column_id l v cs : assoc l cs = Some v → put_column l v cs = cs.
Proof.
  induction cs as [|[l0 v0] cs IH]; simpl; [done|].
  case_decide; intros; simplify_eq; [done | by rewrite IH].
Qed.

Lemma put_column_Forall (P : L * list (option Qc) → Prop) l v cs :
  P (l, v) → Forall P cs → Forall P (put_column l v cs).
Proof.
  intros Hv. induction 1 as [|[l0 v0] cs ? ? IH]; simpl; [by repeat constructor|].
  case_decide; constructor; auto.
Qed.
End put_column.

(** ** Frames *)

Section frame_facts.
Context {L : Type} `{EqDecision L}.
Implicit Types (f : frame L) (l : L).

Lemma has_column_true l f v : assoc l (columns f) = Some v → has_column l f = true.
Proof.
  intros Hl. apply bool_decide_eq_true_2. unfold labels.
  apply assoc_is_Some. by rewrite Hl.
Qed.

Lemma has_column_assoc l f : has_column l f = true → is_Some (assoc l (columns f)).
Proof. intros Hl%bool_decide_eq_true_1. by apply assoc_is_Some. Qed.

Lemma frame_wf_column f l v :
  frame_wf f → assoc l (columns f) = Some v → length v = length (f_index f).
Proof.
  intros Hwf Hl%assoc_Some_elem.
  by apply (proj1 (Forall_forall _ _) Hwf (l, v)).
Qed.

Lemma get_column_Ok f l v :
  assoc l (columns f) = Some v → get_column f l = Ok (Series (f_index f) v).
Proof. unfold get_column. by intros ->. Qed.

Lemma set_column_aligned f l s :
  index s = f_index f → length (values s) = length (f_index f) →
  set_column f l s = Ok (Frame (f_index f) (put_column l (values s) (columns f))).
Proof.
  intros Hi Hlen. unfold set_column.
  rewrite decide_False.
  2:{ intros [H0 Hv]. rewrite H0 in Hlen. by destruct (values s). }
  unfold reindex. by rewrite decide_True.
Qed.

End frame_facts.

Lemma series_binop_aligned op a b :
  index a = index b →
  series_binop op a b = Series (index a) (zip_with op (values a) (values b)).
Proof. intros Hi. unfold series_binop. by rewrite decide_True. Qed.

(** ** Netting *)

Lemma netting_both f vin vout :
  frame_wf f →
  assoc "FlowIn" (columns f) = Some vin →
  assoc "FlowOut" (columns f) = Some vout →
  netting f = Ok (Frame (f_index f)
    (put_column "FlowIn" (netted_in vin vout)
       (put_column "FlowOut" (netted_out vin vout) (columns f)))).
Proof.
  intros Hwf Hin Hout. unfold netting.
  assert (length vin = length (f_index f)) as Hlin by eauto using frame_wf_column.
  assert (length vout = length (f_index f)) as Hlout by eauto using frame_wf_column.
  rewrite (has_column_true _ _ _ Hin), (has_column_true _ _ _ Hout).
  simpl. rewrite (get_column_Ok _ _ _ Hin), (get_column_Ok _ _ _ Hout). simpl.
  unfold series_add. rewrite !series_binop_aligned by done. simpl.
  rewrite set_column_aligned; simpl; [|done|].
  2:{ rewrite length_fmap, length_zip_with. lia. }
  simpl. rewrite set_column_aligned; simpl; [done|done|].
  rewrite length_fmap, length_zip_with. lia.
Qed.

Lemma zip_cell_add_comm (u v : list (option Qc)) :
  zip_with cell_add u v = zip_with cell_add v u.
Proof.
  revert v. induction u as [|a u IH]; intros [|b v]; simpl; [done..|].
  by rewrite cell_add_comm, IH.
Qed.

Lemma zip_cell_add_netted (s : list (option Qc)) :
  zip_with cell_add (np_maximum0 <$> s) (np_minimum0 <$> s) = s.
Proof. induction s as [|a s IH]; csimpl; [done|]. by rewrite cell_add_netted, IH. Qed.

Lemma netted_out_netted vin vout :
  netted_out (netted_in vin vout) (netted_out vin vout) = netted_out vin vout.
Proof.
  unfold netted_out, netted_in.
  by rewrite (zip_cell_add_comm vout vin), zip_cell_add_netted.
Qed.

Lemma netted_in_netted vin vout :
  netted_in (netted_in vin vout) (netted_out vin vout) = netted_in vin vout.
Proof.
  unfold netted_out, netted_in.
  rewrite (zip_cell_add_comm (np_minimum0 <$> _)).
  by rewrite (zip_cell_add_comm vout vin), zip_cell_add_netted.
Qed.

Lemma netting_absent f :
  has_column "FlowIn" f = false ∨ has_column "FlowOut" f = false → netting f = Ok f.
Proof. unfold netting. intros [-> | ->]; [done|]. by rewrite andb_false_r. Qed.

Lemma netted_lookup vin vout i a b :
  vin !! i = Some a → vout !! i = Some b →
  netted_out vin vout !! i = Some (np_minimum0 (cell_add a b)) ∧
  netted_in vin vout !! i = Some (np_maximum0 (cell_add a b)).
Proof.
  intros Ha Hb. unfold netted_out, netted_in.
  rewrite (zip_cell_add_comm vout vin), !list_lookup_fmap, lookup_zip_with, Ha.
  simpl. by rewrite Hb.
Qed.

(** What netting keeps of a frame. *)
Lemma netting_keeps_rest (f : frame string) :
  frame_wf f →
  ∃ f', netting f = Ok f' ∧ f_index f' = f_index f ∧ labels f' = labels f ∧
    (∀ l, l ≠ "FlowIn" → l ≠ "FlowOut" →
       assoc l (columns f') = assoc l (columns f)) ∧
    (has_column "FlowIn" f = false ∨ has_column "FlowOut" f = false → f' = f).
Proof.
  intros Hwf.
  destruct (has_column "FlowIn" f) eqn:Hin.
  2:{ exists f. by rewrite netting_absent by auto. }
  destruct (has_column "FlowOut" f) eqn:Hout.
  2:{ exists f. by rewrite netting_absent by auto. }
  destruct (has_column_assoc _ _ Hin) as [vin Hvin].
  destruct (has_column_assoc _ _ Hout) as [vout Hvout].
  eexists. split; [by apply netting_both|]. simpl. split_and!; [done| | |by intros [?|?]].
  - unfold labels; simpl. rewrite !put_column_labels; [done| |].
    + apply assoc_is_Some. by rewrite Hvout.
    + rewrite put_column_labels; apply assoc_is_Some; by rewrite ?Hvin, ?Hvout.
  - intros l ? ?. by rewrite !assoc_put_column_ne.
Qed.

(** C2.  Netting a well-formed frame always succeeds and keeps index and
    labels.  When both FlowIn and FlowOut are present, their new cells are
    [max(0, FlowIn + FlowOut)] and [min(0, FlowIn + FlowOut)] at every
    timestep (NaN where one of the two is NaN), and every other column is
    as before; when one of the two is absent the frame is returned
    unchanged. *)
Theorem netting_replaces_flow_pair (f : frame string) :
  frame_wf f →
  ∃ f', netting f = Ok f' ∧ f_index f' = f_index f ∧ labels f' = labels f ∧
    (∀ vin vout,
       assoc "FlowIn" (columns f) = Some vin →
       assoc "FlowOut" (columns f) = Some vout →
       ∃ vin' vout',
         assoc "FlowIn" (columns f') = Some vin' ∧
         assoc "FlowOut" (columns f') = Some vout' ∧
         length vin' = length (f_index f) ∧ length vout' = length (f_index f) ∧
         (∀ i x y, vin !! i = Some (Some x) → vout !! i = Some (Some y) →
            vout' !! i = Some (Some (Qc_min 0 (x + y))) ∧
            vin' !! i = Some (Some (Qc_max 0 (x + y)))) ∧
         (∀ i a b, vin !! i = Some a → vout !! i = Some b → a = None ∨ b = None →
            vout' !! i = Some None ∧ vin' !! i = Some None) ∧
         (∀ l, l ≠ "FlowIn" → l ≠ "FlowOut" →
            assoc l (columns f') = assoc l (columns f))) ∧
    (has_column "FlowIn" f = false ∨ has_column "FlowOut" f = false → f' = f).
Proof.
  intros Hwf.
  destruct (has_column "FlowIn" f) eqn:Hin.
  2:{ exists f. rewrite netting_absent by auto. split_and!; [done..| |done].
      intros vin vout Hvin. by rewrite (has_column_true _ _ _ Hvin) in Hin. }
  destruct (has_column "FlowOut" f) eqn:Hout.
  2:{ exists f. rewrite netting_absent by auto. split_and!; [done..| |done].
      intros vin vout _ Hvout. by rewrite (has_column_true _ _ _ Hvout) in Hout. }
  destruct (has_column_assoc _ _ Hin) as [vin Hvin].
  destruct (has_column_assoc _ _ Hout) as [vout Hvout].
  pose proof (frame_wf_column _ _ _ Hwf Hvin) as Hlin.
  pose proof (frame_wf_column _ _ _ Hwf Hvout) as Hlout.
  eexists. split; [by apply netting_both|]. simpl. split_and!; [done| | |by intros [?|?]].
  - unfold labels; simpl. rewrite !put_column_labels; [done| |].
    + apply assoc_is_Some. by rewrite Hvout.
    + rewrite put_column_labels; apply assoc_is_Some; by rewrite ?Hvin, ?Hvout.
  - intros vin0 vout0 ? ?; simplify_eq.
    exists (netted_in vin vout), (netted_out vin vout). split_and!.
    + apply assoc_put_column_eq.
    + rewrite assoc_put_column_ne by done. apply assoc_put_column_eq.
    + unfold netted_in. rewrite length_fmap, length_zip_with. lia.
    + unfold netted_out. rewrite length_fmap, length_zip_with. lia.
    + intros i x y Hx Hy. apply (netted_lookup _ _ _ _ _ Hx Hy).
    + intros i a b Ha Hb Hnan.
      destruct (netted_lookup _ _ _ _ _ Ha Hb) as [-> ->].
      destruct Hnan as [-> | ->]; [done | by destruct a].
    + intros l ? ?. by rewrite !assoc_put_column_ne.
Qed.

(** C3.  Netting is idempotent: netting the netted frame gives the netted
    frame again. *)
Theorem netting_idempotent (f : frame string) :
  frame_wf f → ∃ f', netting f = Ok f' ∧ netting f' = Ok f'.
Proof.
  intros Hwf.
  destruct (has_column "FlowIn" f) eqn:Hin.
  2:{ exists f. by rewrite netting_absent by auto. }
  destruct (has_column "FlowOut" f) eqn:Hout.
  2:{ exists f. by rewrite netting_absent by auto. }
  destruct (has_column_assoc _ _ Hin) as [vin Hvin].
  destruct (has_column_assoc _ _ Hout) as [vout Hvout].
  pose proof (frame_wf_column _ _ _ Hwf Hvin) as Hlin.
  pose proof (frame_wf_column _ _ _ Hwf Hvout) as Hlout.
  eexists. split; [by apply netting_both|].
  set (cs := put_column "FlowIn" _ _).
  assert (assoc "FlowIn" cs = Some (netted_in vin vout)) as Hin'
    by apply assoc_put_column_eq.
  assert (assoc "FlowOut" cs = Some (netted_out vin vout)) as Hout'.
  { unfold cs. rewrite assoc_put_column_ne by done. apply assoc_put_column_eq. }
  rewrite (netting_both _ (netted_in vin vout) (netted_out vin vout)); simpl; [|..|done|done].
  - rewrite netted_out_netted, netted_in_netted.
    by rewrite (put_column_id "FlowOut"), (put_column_id "FlowIn").
  - apply put_column_Forall; simpl.
    { unfold netted_in. rewrite length_fmap, length_zip_with. lia. }
    apply put_column_Forall; simpl; [|done].
    unfold netted_out. rewrite length_fmap, length_zip_with. lia.
Qed.

(** ** Row sums *)

Lemma Qc_sum_cons (x : Qc) xs : Qc_sum (x :: xs) = x + Qc_sum xs.
Proof. done. Qed.

Section row_sums.
Context {L : Type} `{EqDecision L}.
Implicit Types (cs : list (L * list (option Qc))) (acc : list Qc).

Lemma length_add_column acc (v : list (option Qc)) :
  length v = length acc → length (add_column acc v) = length acc.
Proof. intros Hl. unfold add_column. rewrite length_zip_with. lia. Qed.

Lemma add_column_lookup acc (v : list (option Qc)) i a (l : L) :
  acc !! i = Some a → length v = length acc →
  add_column acc v !! i = Some (a + cell_value i (l, v)).
Proof.
  intros Ha Hl. unfold add_column, cell_value. rewrite lookup_zip_with, Ha. simpl.
  destruct (v !! i) as [x|] eqn:Hx; [done|].
  apply lookup_ge_None in Hx. apply lookup_lt_Some in Ha. lia.
Qed.

Lemma foldl_add_column_length acc cs :
  Forall (λ c, length c.2 = length acc) cs →
  length (foldl (λ acc (c : L * list (option Qc)), add_column acc c.2) acc cs) = length acc.
Proof.
  revert acc. induction cs as [|c cs IH]; intros acc Hcs; simpl; [done|].
  apply Forall_cons in Hcs as [Hc Hcs].
  rewrite IH.
  - by apply length_add_column.
  - by rewrite length_add_column.
Qed.

Lemma foldl_add_column_lookup acc cs i a :
  Forall (λ c, length c.2 = length acc) cs →
  acc !! i = Some a →
  foldl (λ acc (c : L * list (option Qc)), add_column acc c.2) acc cs !! i
  = Some (a + Qc_sum (cell_value i <$> cs)).
Proof.
  revert acc a. induction cs as [|[l v] cs IH]; intros acc a Hcs Ha; csimpl.
  - by rewrite Qcplus_0_r.
  - apply Forall_cons in Hcs as [Hc Hcs]. simpl in Hc.
    erewrite IH; [..|by eapply (add_column_lookup _ _ _ _ l)].
    + f_equal. ring.
    + rewrite length_add_column by done. done.
Qed.

Lemma row_sums_lookup n cs i :
  Forall (λ c, length c.2 = n) cs → (i < n)%nat →
  row_sums n cs !! i = Some (Qc_sum (cell_value i <$> cs)).
Proof.
  intros Hcs Hi. unfold row_sums.
  erewrite foldl_add_column_lookup; [|by rewrite length_replicate|by apply lookup_replicate_2].
  f_equal. ring.
Qed.

Lemma length_row_sums n cs :
  Forall (λ c, length c.2 = n) cs → length (row_sums n cs) = n.
Proof.
  intros Hcs. unfold row_sums.
  rewrite foldl_add_column_length; rewrite length_replicate; done.
Qed.

Lemma Qc_sum_app (xs ys : list Qc) : Qc_sum (xs ++ ys) = Qc_sum xs + Qc_sum ys.
Proof.
  induction xs as [|x xs IH]; [by rewrite Qcplus_0_l|].
  rewrite <-app_comm_cons, !Qc_sum_cons, IH. ring.
Qed.

Lemma cumsum_columns_app acc cs1 cs2 :
  cumsum_columns acc (cs1 ++ cs2) =
  cumsum_columns acc cs1 ++
  cumsum_columns (foldl (λ acc (c : L * list (option Qc)), add_column acc c.2) acc cs1) cs2.
Proof.
  revert acc. induction cs1 as [|[l v] cs1 IH]; intros acc; simpl; [done|].
  by rewrite IH.
Qed.

(** The last column of a cumulative sum holds the row totals. *)
Lemma cumsum_columns_last acc cs l v :
  last cs = Some (l, v) →
  last (cumsum_columns acc cs) =
  Some (l, zip_with (λ a x, (λ _ : Qc, a) <$> x)
             (foldl (λ acc (c : L * list (option Qc)), add_column acc c.2) acc cs) v).
Proof.
  destruct cs as [|c cs _] using rev_ind; [done|].
  rewrite last_snoc. intros [= ->].
  rewrite cumsum_columns_app, foldl_app. simpl. by rewrite last_snoc.
Qed.

Lemma cumsum_columns_labels acc cs : (cumsum_columns acc cs).*1 = cs.*1.
Proof.
  revert acc. induction cs as [|[l v] cs IH]; intros acc; simpl; [done|].
  by rewrite IH.
Qed.
End row_sums.

(** ** The stacked layout *)

Section select.
Context {L : Type} `{EqDecision L}.
Implicit Types (cs sub : list (L * list (option Qc))).

Lemma mapM_result_cons {A B} (g : A → result B) x l :
  mapM g (x :: l) = y ← g x; k ← mapM g l; Ok (y :: k).
Proof. done. Qed.

Lemma select_mapM cs sub :
  NoDup cs.*1 → sub ⊆ cs →
  mapM (λ l, (l,.) <$> or_raise KeyError (assoc l cs)) sub.*1 = Ok sub.
Proof.
  intros Hnd. induction sub as [|[l v] sub IH]; intros Hsub; [done|].
  rewrite fmap_cons, mapM_result_cons. simpl fst.
  rewrite (assoc_NoDup l v cs Hnd) by (apply Hsub; left).
  simpl. rewrite IH; [done|]. intros c Hc. apply Hsub. by right.
Qed.

Lemma select_columns_sub (f : frame L) sub :
  NoDup (labels f) → sub ⊆ columns f →
  select_columns f sub.*1 = Ok (Frame (f_index f) sub).
Proof. intros Hnd Hsub. unfold select_columns. by rewrite select_mapM. Qed.
End select.

Lemma zero_line_bounds idx cs :
  cs ≠ [] → (idx ≤ zero_line idx cs < idx + length cs)%nat.
Proof.
  revert idx. induction cs as [|c cs IH]; intros idx Hne; [done|]. simpl.
  destruct (cell_le _ _); simpl; [|lia].
  case_bool_decide as Hcs; [|lia].
  specialize (IH (S idx) Hcs). lia.
Qed.

Lemma set_column_empty (l : string) (s : series) :
  length (values s) = length (index s) →
  set_column (Frame [] []) l s = Ok (Frame (index s) [(l, values s)]).
Proof.
  intros Hlen. unfold set_column. simpl. case_decide as Hv.
  - done.
  - assert (values s = []) as Hnil.
    { destruct (decide (values s = [])); [done|]. destruct Hv; auto. }
    rewrite Hnil in *. destruct (index s) eqn:Hi; [|done].
    unfold reindex. rewrite Hi. simpl. by rewrite Hnil.
Qed.

Lemma negated_block_fold (tmp2 : frame string) rest acs :
  NoDup (labels tmp2) → rest ⊆ columns tmp2 → NoDup rest.*1 →
  (∀ c, c ∈ rest → c.1 ∉ acs.*1) →
  same_length (length (f_index tmp2)) rest →
  same_length (length (f_index tmp2)) acs →
  foldl_result
    (λ acc col, c ← get_column tmp2 col; set_column acc col (series_neg c))
    (Frame (f_index tmp2) acs) rest.*1
  = Ok (Frame (f_index tmp2) (acs ++ map_cells cell_neg rest)).
Proof.
  intros Hnd. revert acs.
  induction rest as [|[l v] rest IH]; intros acs Hsub Hndr Hfresh Hlr Hla.
  { simpl. by rewrite app_nil_r. }
  rewrite fmap_cons in Hndr. cbn [fst] in Hndr.
  apply NoDup_cons in Hndr as [Hl Hndr]. apply Forall_cons in Hlr as [Hv Hlr].
  simpl in Hv. rewrite fmap_cons. cbn [fst foldl_result].
  rewrite (get_column_Ok tmp2 l v) by (apply assoc_NoDup; [done | apply Hsub; left]).
  simpl. rewrite set_column_aligned; simpl; [|done|by rewrite length_fmap].
  rewrite put_column_fresh by exact (Hfresh (l, v) (list_elem_of_here _ _)).
  rewrite IH; try done.
  - by rewrite <-app_assoc.
  - intros c Hc. apply Hsub. by right.
  - intros c Hc. rewrite fmap_app. apply not_elem_of_app. split.
    + apply Hfresh. by right.
    + simpl. apply not_elem_of_cons. split; [|apply not_elem_of_nil].
      intros Heq. apply Hl. rewrite <-Heq. by apply list_elem_of_fmap_2.
  - apply Forall_app. split; [done|]. repeat constructor. simpl. by rewrite length_fmap.
Qed.

Lemma cumsum_from_zero_eq (f : frame string) :
  NoDup (labels f) → "zero" ∉ labels f →
  cumsum_from_zero f =
  Ok (Frame (f_index f)
        (("zero", replicate (length (f_index f)) (Some 0))
           :: cumsum_columns (replicate (length (f_index f)) 0) (columns f))).
Proof.
  intros Hnd Hz. unfold cumsum_from_zero, set_column_scalar, cumsum_axis1. simpl.
  set (ccs := cumsum_columns _ _).
  assert (ccs.*1 = labels f) as Hlab by apply cumsum_columns_labels.
  rewrite put_column_fresh by by rewrite Hlab.
  unfold labels at 1. simpl. rewrite fmap_app. simpl.
  rewrite removelast_last.
  pose proof (select_columns_sub
    (Frame (f_index f) (ccs ++ [("zero", replicate (length (f_index f)) (num 0))]))
    (("zero", replicate (length (f_index f)) (num 0)) :: ccs)) as Hsel.
  rewrite fmap_cons in Hsel. simpl in Hsel. rewrite Hsel; [done|..].
  - unfold labels. simpl. rewrite fmap_app, Hlab. simpl.
    apply NoDup_app. split_and!; [done| |apply NoDup_singleton].
    intros x Hx ->%list_elem_of_singleton. done.
  - intros c [->|Hc]%elem_of_cons; apply elem_of_app; [right; left | by left].
Qed.

Lemma result_bind_Ok {A B} (a : A) (k : A → result B) : (Ok a ≫= k) = k a.
Proof. done. Qed.

Lemma stack_layout_eq (g : frame string) :
  dispatch_frame g → columns g ≠ [] →
  let n := length (f_index g) in
  let k := zero_line 0 (columns g) in
  stack_layout g =
  Ok (Layout k
        (Frame (f_index g)
           (cumsum_columns (replicate n 0)
              (("sum", Some <$> row_sums n (take k (columns g)))
                 :: map_cells cell_neg (take k (columns g)))))
        (Frame (f_index g)
           (("zero", replicate n (Some 0))
              :: cumsum_columns (replicate n 0) (drop k (columns g))))).
Proof.
  intros (Hwf & Hnd & Hsum & Hzero) Hne n k. unfold stack_layout.
  rewrite decide_False by (unfold labels; by destruct (columns g)).
  fold k. unfold labels in *. rewrite <-fmap_take, <-fmap_drop.
  assert (take k (columns g) ⊆ columns g) as Htake.
  { intros c Hc. rewrite <-(take_drop k (columns g)). apply elem_of_app. by left. }
  assert (drop k (columns g) ⊆ columns g) as Hdrop.
  { intros c Hc. rewrite <-(take_drop k (columns g)). apply elem_of_app. by right. }
  assert (NoDup (take k (columns g)).*1 ∧ NoDup (drop k (columns g)).*1) as [Hnt Hndr].
  { rewrite <-(take_drop k (columns g)), fmap_app in Hnd.
    apply NoDup_app in Hnd as (? & _ & ?). done. }
  assert (same_length n (take k (columns g))) as Hlt.
  { apply Forall_forall. intros c Hc. apply (proj1 (Forall_forall _ _) Hwf). auto. }
  rewrite !(select_columns_sub g (take k (columns g))) by done.
  rewrite (select_columns_sub g (drop k (columns g))) by done.
  rewrite result_bind_Ok.
  rewrite set_column_empty; cbn [sum_axis1 index values f_index columns].
  2:{ rewrite length_fmap, length_row_sums; done. }
  rewrite !result_bind_Ok. fold n. cbn [f_index columns].
  pose proof (negated_block_fold (Frame (f_index g) (take k (columns g)))
    (take k (columns g)) [("sum", Some <$> row_sums n (take k (columns g)))]) as Hfold.
  cbn [f_index columns] in Hfold.
  rewrite Hfold; try done; clear Hfold.
  - rewrite !result_bind_Ok.
    rewrite cumsum_from_zero_eq; cbn [f_index columns]; [done|done|].
    intros Hin. apply Hzero.
    apply list_elem_of_fmap in Hin as (c & -> & Hc). apply list_elem_of_fmap_2. auto.
  - intros c Hc. cbn [fmap list_fmap fst]. apply not_elem_of_cons. split; [|apply not_elem_of_nil].
    intros Heq. apply Hsum. rewrite <-Heq.
    apply list_elem_of_fmap_2. auto.
  - repeat constructor. simpl. rewrite length_fmap, length_row_sums; done.
Qed.

(** ** Conservation *)

Lemma put_column_sum {L} `{EqDecision L} i (l : L) v v' (cs : list (L * list (option Qc))) :
  assoc l cs = Some v →
  Qc_sum (cell_value i <$> put_column l v' cs)
  = Qc_sum (cell_value i <$> cs) - cell_value i (l, v) + cell_value i (l, v').
Proof.
  induction cs as [|[l0 v0] cs IH]; [done|]. simpl assoc. simpl put_column.
  case_decide; intros Hl; simplify_eq.
  - rewrite !fmap_cons, !Qc_sum_cons. ring.
  - rewrite !fmap_cons, !Qc_sum_cons, IH by done. ring.
Qed.

Lemma row_values {L} i (cs : list (L * list (option Qc))) (row : list Qc) :
  Forall2 (λ c x, c.2 !! i = Some (Some x)) cs row →
  cell_value i <$> cs = row ∧ Forall (numeric_at i) cs.
Proof.
  induction 1 as [|c x cs row Hc _ [IH1 IH2]]; [done|]. split.
  - rewrite fmap_cons, IH1. f_equal. unfold cell_value. by rewrite Hc.
  - constructor; [by exists x | done].
Qed.

Lemma cell_value_numeric {L} i (l : L) v x :
  v !! i = Some (Some x) → cell_value i (l, v) = x.
Proof. unfold cell_value. simpl. by intros ->. Qed.

Lemma netting_conserves (f : frame string) i :
  dispatch_frame f →
  ∃ g, netting f = Ok g ∧ dispatch_frame g ∧ f_index g = f_index f ∧
       length (columns g) = length (columns f) ∧
       (Forall (numeric_at i) (columns f) →
        Forall (numeric_at i) (columns g) ∧
        Qc_sum (cell_value i <$> columns g) = Qc_sum (cell_value i <$> columns f)).
Proof.
  intros (Hwf & Hnd & Hsum & Hzero).
  destruct (has_column "FlowIn" f) eqn:Hin.
  2:{ exists f. by rewrite netting_absent by auto. }
  destruct (has_column "FlowOut" f) eqn:Hout.
  2:{ exists f. by rewrite netting_absent by auto. }
  destruct (has_column_assoc _ _ Hin) as [vin Hvin].
  destruct (has_column_assoc _ _ Hout) as [vout Hvout].
  pose proof (frame_wf_column _ _ _ Hwf Hvin) as Hlin.
  pose proof (frame_wf_column _ _ _ Hwf Hvout) as Hlout.
  assert ("FlowOut" ∈ (columns f).*1) as Ho by (apply assoc_is_Some; by rewrite Hvout).
  assert ("FlowIn" ∈ (columns f).*1) as Hi by (apply assoc_is_Some; by rewrite Hvin).
  assert ((put_column "FlowIn" (netted_in vin vout)
            (put_column "FlowOut" (netted_out vin vout) (columns f))).*1
          = (columns f).*1) as Hlab.
  { rewrite !put_column_labels; [done..|]. by rewrite put_column_labels. }
  eexists. split; [by apply netting_both|]. cbn [f_index columns]. split_and!.
  - split_and!; unfold labels; cbn [f_index columns]; rewrite ?Hlab; try done.
    apply put_column_Forall; simpl.
    { unfold netted_in. rewrite length_fmap, length_zip_with. lia. }
    apply put_column_Forall; simpl; [|done].
    unfold netted_out. rewrite length_fmap, length_zip_with. lia.
  - done.
  - by rewrite <-(length_fmap fst), Hlab, length_fmap.
  - intros Hnum.
    pose proof (proj1 (Forall_forall _ _) Hnum _ (assoc_Some_elem _ _ _ Hvin)) as [x Hx].
    pose proof (proj1 (Forall_forall _ _) Hnum _ (assoc_Some_elem _ _ _ Hvout)) as [y Hy].
    simpl in Hx, Hy. destruct (netted_lookup _ _ _ _ _ Hx Hy) as [Ho' Hi'].
    simpl in Ho', Hi'. split.
    + apply put_column_Forall; [by eexists|].
      apply put_column_Forall; [by eexists|done].
    + rewrite (put_column_sum i "FlowIn" vin).
      2:{ by rewrite assoc_put_column_ne. }
      rewrite (put_column_sum i "FlowOut" vout) by done.
      rewrite (cell_value_numeric _ _ _ _ Hx), (cell_value_numeric _ _ _ _ Hy).
      rewrite (cell_value_numeric _ _ _ _ Ho'), (cell_value_numeric _ _ _ _ Hi').
      pose proof (Qc_min_max_0 (x + y)) as Hxy.
      set (a := Qc_min 0 (x + y)) in *. set (b := Qc_max 0 (x + y)) in *.
      clearbody a b.
      assert (b = x + y - a) as -> by (rewrite <-Hxy; ring). ring.
Qed.

Lemma stack_layout_boundaries (g : frame string) i :
  dispatch_frame g → columns g ≠ [] →
  Forall (numeric_at i) (columns g) →
  ∃ lay lo up (lower upper : Qc),
    stack_layout g = Ok lay ∧
    head (columns (sumplot_neg lay)) = Some ("sum", lo) ∧
    last (columns (sumplot_pos lay)) = Some up ∧
    lo !! i = Some (Some lower) ∧ up.2 !! i = Some (Some upper) ∧
    upper + lower = Qc_sum (cell_value i <$> columns g).
Proof.
  intros Hd Hne Hnum. pose proof Hd as (Hwf & Hnd & Hsum & Hzero).
  set (n := length (f_index g)). set (k := zero_line 0 (columns g)).
  destruct (zero_line_bounds 0 (columns g) Hne) as [_ Hk]. fold k in Hk. simpl in Hk.
  destruct (last (columns g)) as [[l v]|] eqn:Hlast.
  2:{ apply last_None in Hlast. done. }
  assert (last (drop k (columns g)) = Some (l, v)) as Hlastd.
  { rewrite <-(take_drop k (columns g)), last_app in Hlast.
    destruct (last (drop k (columns g))) eqn:Hd'; [done|].
    apply last_None, (f_equal length) in Hd'. rewrite length_drop in Hd'. simpl in Hd'. lia. }
  assert ((l, v) ∈ columns g) as Hlv.
  { apply last_Some in Hlast as [cs' ->]. apply elem_of_app. right. left. }
  destruct (proj1 (Forall_forall _ _) Hnum _ Hlv) as [x Hx]. simpl in Hx.
  assert (i < n)%nat as Hi.
  { apply lookup_lt_Some in Hx.
    pose proof (proj1 (Forall_forall _ _) Hwf _ Hlv) as Hlen. simpl in Hlen.
    unfold n. lia. }
  assert (same_length n (take k (columns g))) as Hlt.
  { apply Forall_forall. intros c Hc. apply (proj1 (Forall_forall _ _) Hwf).
    rewrite <-(take_drop k (columns g)). apply elem_of_app. by left. }
  assert (same_length n (drop k (columns g))) as Hld.
  { apply Forall_forall. intros c Hc. apply (proj1 (Forall_forall _ _) Hwf).
    rewrite <-(take_drop k (columns g)). apply elem_of_app. by right. }
  eexists _, _, _, (0 + Qc_sum (cell_value i <$> take k (columns g))),
    (0 + Qc_sum (cell_value i <$> drop k (columns g))).
  split; [by apply stack_layout_eq|]. cbn [sumplot_neg sumplot_pos columns].
  fold n k. split_and!.
  - done.
  - rewrite last_cons. erewrite cumsum_columns_last by done. done.
  - rewrite lookup_zip_with.
    erewrite (add_column_lookup _ _ _ _ "sum");
      [|by apply lookup_replicate_2|by rewrite length_fmap, length_row_sums, length_replicate].
    rewrite list_lookup_fmap, row_sums_lookup by done. simpl.
    unfold cell_value at 1. simpl.
    by rewrite list_lookup_fmap, row_sums_lookup by done.
  - simpl. rewrite lookup_zip_with.
    erewrite foldl_add_column_lookup;
      [|by rewrite length_replicate|by apply lookup_replicate_2].
    by rewrite Hx.
  - rewrite <-(take_drop k (columns g)) at 3. rewrite fmap_app, Qc_sum_app. ring.
Qed.

(** C4.  Conservation.  For a dispatch frame with at least one column,
    netting and stacking succeed, and at every timestep whose cells are
    numbers, the last boundary of the positive block plus the first
    boundary of the negative block (its column "sum") is the sum of the
    cells of all the columns the frame had before netting. *)
Theorem stacking_conserves_energy (f : frame string) :
  dispatch_frame f → columns f ≠ [] →
  ∃ g lay,
    netting f = Ok g ∧ stack_layout g = Ok lay ∧
    ∀ i (row : list Qc),
      Forall2 (λ c x, c.2 !! i = Some (Some x)) (columns f) row →
      ∃ lo up (lower upper : Qc),
        head (columns (sumplot_neg lay)) = Some ("sum", lo) ∧
        last (columns (sumplot_pos lay)) = Some up ∧
        lo !! i = Some (Some lower) ∧ up.2 !! i = Some (Some upper) ∧
        upper + lower = Qc_sum row.
Proof.
  intros Hd Hne.
  destruct (netting_conserves f 0 Hd) as (g & Hg & Hdg & Hig & Hlen & _).
  assert (columns g ≠ []) as Hneg.
  { intros Hnil. rewrite Hnil in Hlen. by destruct (columns f). }
  pose proof (stack_layout_eq g Hdg Hneg) as Hlay. simpl in Hlay.
  eexists g, _. split_and!; [done..|].
  intros i row [Hrow Hnum]%row_values.
  destruct (netting_conserves f i Hd) as (g' & Hg' & _ & _ & _ & Hcons).
  rewrite Hg in Hg'. injection Hg' as <-.
  destruct (Hcons Hnum) as [Hnumg Hsumg].
  destruct (stack_layout_boundaries g i Hdg Hneg Hnumg)
    as (lay & lo & up & lower & upper & Hlay' & ? & ? & ? & ? & Htot).
  rewrite Hlay in Hlay'. injection Hlay' as <-.
  exists lo, up, lower, upper. split_and!; try done.
  by rewrite Htot, Hsumg, Hrow.
Qed.

(** ** The state monad *)

Lemma M_bind_run {A B} (m : M A) (k : A → M B) st :
  (m ≫= k) st =
  match m st with
  | (Ok a, st') => k a st'
  | (Raise e, st') => (Raise e, st')
  end.
Proof. done. Qed.

Section stable.
Context (R : relation state) `{!PreOrder R}.

Lemma stable_bind {A B} (m : M A) (k : A → M B) :
  stable R m → (∀ a, stable R (k a)) → stable R (m ≫= k).
Proof.
  intros Hm Hk st r st'. rewrite M_bind_run.
  destruct (m st) as [[a|e] st1] eqn:Hst.
  - intros Hka. etrans; [by eapply Hm | by eapply Hk].
  - intros [= <- <-]. by eapply Hm.
Qed.

Lemma stable_ret {A} (a : A) : stable R (mret a).
Proof. by intros st r st' [= <- <-]. Qed.

Lemma stable_raise {A} e : stable R (@raise A e).
Proof. by intros st r st' [= <- <-]. Qed.

Lemma stable_lift {A} (r : result A) : stable R (lift r).
Proof. by intros st r' st' [= <- <-]. Qed.

Lemma stable_load p : stable R (load p).
Proof. by intros st r' st' [= <- <-]. Qed.
End stable.

Global Instance logs_preorder P : PreOrder (logs P).
Proof.
  split.
  - intros st. exists []. by rewrite app_nil_r.
  - intros st1 st2 st3 (es1 & H1 & ?) (es2 & H2 & ?). exists (es1 ++ es2).
    rewrite H2, H1, app_assoc. split; [done | by apply Forall_app].
Qed.

Global Instance only_writes_preorder p : PreOrder (only_writes p).
Proof.
  split; [done|]. intros st1 st2 st3 H1 H2 q Hq. by rewrite H2, H1.
Qed.

Lemma logging_logs (P : log_level * message → Prop) lv msg :
  P (lv, msg) → stable (logs P) (logging lv msg).
Proof. intros HP st r st' [= <- <-]. exists [(lv, msg)]. by repeat constructor. Qed.

Lemma store_logs P p f : stable (logs P) (store p f).
Proof. intros st r st' [= <- <-]. exists []. by rewrite app_nil_r. Qed.

Lemma alloc_logs P f : stable (logs P) (alloc f).
Proof. intros st r st' [= <- <-]. exists []. by rewrite app_nil_r. Qed.

Lemma logging_only_writes p lv msg : stable (only_writes p) (logging lv msg).
Proof. by intros st r st' [= <- <-]. Qed.

Lemma store_only_writes p f : stable (only_writes p) (store p f).
Proof. intros st r st' [= <- <-] q Hq. simpl. by rewrite lookup_insert_ne. Qed.

Lemma plot_range_stable R `{!PreOrder R} rng f :
  (∀ lv msg, stable R (logging lv msg)) → stable R (plot_range rng f).
Proof.
  intros Hlog. unfold plot_range.
  destruct rng as [[r|]|]; [| |by apply stable_ret].
  - destruct (head r), (last r), (head (f_index f)), (last (f_index f));
      try by apply stable_raise.
    case_match; [|by apply stable_ret].
    apply stable_bind; [apply _|done|]. intros. by apply stable_ret.
  - apply stable_bind; [apply _|done|]. intros. by apply stable_raise.
Qed.

Lemma check_index_stable R `{!PreOrder R} lv msg s demand :
  stable R (logging lv msg) → stable R (check_index lv msg s demand).
Proof.
  intros Hlog. unfold check_index. destruct s as [s|]; [|by apply stable_ret].
  case_decide; [by apply stable_ret|].
  apply stable_bind; [apply _|done|]. intros. by apply stable_raise.
Qed.

Lemma plot_dispatch_only_writes demand p level curtailment shedload shiftedload rng :
  stable (only_writes p)
    (plot_dispatch demand p level curtailment shedload shiftedload rng).
Proof.
  unfold plot_dispatch.
  repeat first
    [ apply stable_bind; [apply _| |intros ?]
    | apply stable_ret | apply stable_raise | apply stable_lift | apply stable_load
    | apply store_only_writes
    | apply plot_range_stable; [apply _ | intros; apply logging_only_writes]
    | apply check_index_stable; [apply _ | apply logging_only_writes]
    | apply _
    | match goal with |- stable _ (match ?x with _ => _ end) => destruct x end ].
Qed.

Global Instance same_heap_preorder : PreOrder same_heap.
Proof. split; [done|]. intros st1 st2 st3 H1 H2. unfold same_heap in *. congruence. Qed.

Lemma logging_same_heap lv msg : stable same_heap (logging lv msg).
Proof. by intros st r st' [= <- <-]. Qed.

Ltac run_step :=
  match goal with
  | H : context [(?m ≫= ?k) ?st] |- _ => rewrite (M_bind_run m k st) in H
  | |- context [(?m ≫= ?k) ?st] => rewrite (M_bind_run m k st)
  end.

Ltac run_case :=
  match goal with
  | H : context [match ?x with _ => _ end] |- _ =>
      match type of x with
      | (result _ * state)%type => destruct x as [[?|?] ?] eqn:?
      end
  | |- context [match ?x with _ => _ end] =>
      match type of x with
      | (result _ * state)%type => destruct x as [[?|?] ?] eqn:?
      end
  end.

Lemma check_index_None lv msg demand st :
  check_index lv msg None demand st = (Ok (), st).
Proof. done. Qed.

Lemma check_index_match lv msg s demand st :
  ¬ mismatched demand s → check_index lv msg s demand st = (Ok (), st).
Proof.
  intros Hm. destruct s as [s|]; [|done]. simpl.
  case_decide; [done|]. destruct Hm. by exists s.
Qed.

Lemma check_index_mismatch lv msg s demand st :
  mismatched demand s →
  check_index lv msg s demand st
  = (Raise (SystemExit 1), State (heap st) (log st ++ [(lv, msg)])).
Proof.
  intros (s' & -> & Hne). simpl. by rewrite decide_False.
Qed.

Ltac use_check :=
  match goal with
  | H : check_index _ _ ?s ?d _ = _ |- _ =>
      destruct (decide (mismatched d s));
      [rewrite check_index_mismatch in H by done
      |rewrite check_index_match in H by done];
      simplify_eq
  | |- context [check_index ?lv ?msg ?s ?d ?st] =>
      destruct (decide (mismatched d s));
      [rewrite (check_index_mismatch lv msg s d st) by done
      |rewrite (check_index_match lv msg s d st) by done]
  end.

Ltac solve_elem :=
  repeat first [apply list_elem_of_here | apply list_elem_of_further].


(** ** Effects on the store *)

Lemma plot_range_same_heap rng f : stable same_heap (plot_range rng f).
Proof. apply plot_range_stable; [apply _|]. intros. apply logging_same_heap. Qed.

Lemma check_index_same_heap lv msg s demand :
  stable same_heap (check_index lv msg s demand).
Proof. apply check_index_stable; [apply _|]. apply logging_same_heap. Qed.

Ltac solve_stable prim :=
  repeat first
    [ apply stable_bind; [apply _| |intros ?]
    | apply stable_ret | apply stable_raise | apply stable_lift | apply stable_load
    | prim
    | match goal with |- PreOrder _ => apply _ end
    | match goal with |- stable _ (match ?x with _ => _ end) => destruct x end ].

(** After [plot_dispatch] the frame object is the one it got or that one
    netted. *)
Lemma plot_dispatch_object demand p level curtailment shedload shiftedload rng st r st' f :
  plot_dispatch demand p level curtailment shedload shiftedload rng st = (r, st') →
  heap st !! p = Some f →
  heap st' !! p = Some f ∨ ∃ g, netting f = Ok g ∧ heap st' !! p = Some g.
Proof.
  unfold plot_dispatch. intros Hrun Hf.
  run_step. unfold load in Hrun at 1. rewrite Hf in Hrun. simpl in Hrun.
  run_step. destruct (plot_range rng f st) as [[pdr|e] st1] eqn:Hrange.
  2:{ injection Hrun as <- <-. left. by rewrite (plot_range_same_heap _ _ _ _ _ Hrange). }
  pose proof (plot_range_same_heap _ _ _ _ _ Hrange) as Hst1. unfold same_heap in Hst1.
  run_step. unfold lift in Hrun at 1.
  destruct (netting f) as [g|e] eqn:Hnet.
  2:{ injection Hrun as <- <-. left. by rewrite Hst1. }
  run_step. unfold store in Hrun at 1.
  set (st2 := State _ _) in Hrun.
  assert (heap st2 !! p = Some g) as Hg by apply lookup_insert_eq.
  right. exists g. split; [done|]. rewrite <-Hg. f_equal.
  match type of Hrun with
  | ?m ?s = _ => assert (stable same_heap m) as Hst
      by solve_stable ltac:(first
           [ apply logging_same_heap | apply check_index_same_heap ])
  end.
  by apply Hst in Hrun.
Qed.

Section plot_zone_effects.
Variable get_plot_data : Inputs → Results → string → frame string.
Variable filter_by_zone : frame string → Inputs → string → frame string.
Variable filter_by_storage : frame string → Inputs → frame string.
Variable filter_by_tech : frame string → Inputs → string → frame string.

Lemma select_zone_stable R `{!PreOrder R} inputs z draw :
  (∀ lv msg, stable R (logging lv msg)) → stable R (select_zone inputs z draw).
Proof.
  intros Hlog. unfold select_zone, random_zone.
  repeat case_decide; solve_stable ltac:(apply Hlog).
Qed.

Lemma balance_check_stable R `{!PreOrder R} diff demand z :
  (∀ lv msg, stable R (logging lv msg)) → stable R (balance_check diff demand z).
Proof.
  intros Hlog. unfold balance_check. case_match; solve_stable ltac:(apply Hlog).
Qed.

Lemma plot_zone_keeps_objects inputs results z rng draw st r st' :
  plot_zone get_plot_data filter_by_zone filter_by_storage filter_by_tech
    inputs results z rng draw st = (r, st') →
  ∀ q, q ∈ dom (heap st) → heap st' !! q = heap st !! q.
Proof.
  unfold plot_zone. intros Hrun q Hq.
  run_step. destruct (select_zone _ _ _ _) as [[z'|e] st1] eqn:Hz.
  all: pose proof (select_zone_stable same_heap _ _ _ logging_same_heap _ _ _ Hz) as H1.
  all: unfold same_heap in H1.
  2:{ injection Hrun as <- <-. by rewrite H1. }
  run_step. unfold alloc in Hrun at 1. set (p := fresh _) in Hrun.
  set (st2 := State _ _) in Hrun.
  assert (q ≠ p) as Hqp.
  { intros ->. rewrite <-H1 in Hq. by apply (is_fresh (dom (heap st1))). }
  match type of Hrun with
  | ?m ?s = _ => assert (stable (only_writes p) m) as Hst
  end.
  { solve_stable ltac:(first
      [ apply logging_only_writes
      | apply plot_range_stable; [apply _ | intros; apply logging_only_writes]
      | apply check_index_stable; [apply _ | apply logging_only_writes]
      | apply plot_dispatch_only_writes
      | apply store_only_writes
      | apply balance_check_stable; [apply _ | intros; apply logging_only_writes] ]). }
  apply Hst in Hrun. rewrite (Hrun q Hqp). unfold st2. simpl.
  by rewrite lookup_insert_ne, H1.
Qed.
End plot_zone_effects.


(** ** Maxima *)

Lemma Qc_max_ge_l x y : x ≤ Qc_max x y.
Proof. unfold Qc_max. case_decide; [done | apply Qcle_refl]. Qed.

Lemma Qc_max_ge_r x y : y ≤ Qc_max x y.
Proof.
  unfold Qc_max. case_decide as H; [apply Qcle_refl|].
  apply Qclt_le_weak. by apply Qcnot_le_lt.
Qed.

Lemma Qc_max_cases x y : Qc_max x y = x ∨ Qc_max x y = y.
Proof. unfold Qc_max. case_decide; auto. Qed.

Lemma foldl_Qc_max x xs :
  foldl Qc_max x xs ∈ x :: xs ∧ ∀ y, y ∈ x :: xs → y ≤ foldl Qc_max x xs.
Proof.
  revert x. induction xs as [|z xs IH]; intros x; simpl.
  - split; [left|]. intros y ->%list_elem_of_singleton. apply Qcle_refl.
  - destruct (IH (Qc_max x z)) as [Hin Hge]. split.
    + apply elem_of_cons in Hin as [Heq|Hin]; [|by do 2 right].
      rewrite Heq. destruct (Qc_max_cases x z) as [-> | ->]; [left | right; left].
    + intros y Hy. apply elem_of_cons in Hy as [->|Hy].
      * etrans; [apply (Qc_max_ge_l _ z)|]. apply Hge. left.
      * apply elem_of_cons in Hy as [->|Hy].
        -- etrans; [apply (Qc_max_ge_r x)|]. apply Hge. left.
        -- apply Hge. by right.
Qed.

Lemma elem_of_skipna x (l : list (option Qc)) : x ∈ skipna l ↔ Some x ∈ l.
Proof.
  unfold skipna. rewrite list_elem_of_omap. split.
  - intros (o & Ho & Hx). simpl in Hx. by subst.
  - intros Hx. by exists (Some x).
Qed.

Lemma max_cells_Some l m : max_cells l = Some m ↔ is_max m l.
Proof.
  unfold max_cells, reduce_cells, is_max.
  destruct (skipna l) as [|x xs] eqn:Hl.
  - split; [done|]. intros [Hm _]. apply elem_of_skipna in Hm.
    rewrite Hl in Hm. by apply elem_of_nil in Hm.
  - destruct (foldl_Qc_max x xs) as [Hin Hge]. rewrite <-Hl in Hin, Hge.
    split.
    + intros [= <-]. split; [by apply elem_of_skipna|].
      intros y Hy. by apply Hge, elem_of_skipna.
    + intros [Hm Hmax]. f_equal. apply Qcle_antisym.
      * apply Hmax. by apply elem_of_skipna.
      * apply Hge. by apply elem_of_skipna.
Qed.

Lemma is_max_unique m m' l : is_max m l → is_max m' l → m = m'.
Proof. intros [H1 H2] [H3 H4]. apply Qcle_antisym; auto. Qed.

(** ** The balance *)

Lemma series_binop_aligned_index op a b :
  index a = index b → index (series_binop op a b) = index a.
Proof. intros H. by rewrite series_binop_aligned. Qed.

Lemma series_binop_aligned_values op a b :
  index a = index b →
  values (series_binop op a b) = zip_with op (values a) (values b).
Proof. intros H. by rewrite series_binop_aligned. Qed.

Lemma balance_difference_index (plotdata : frame string) demand shifted_load shed_load :
  index demand = f_index plotdata →
  index shifted_load = index demand → index shed_load = index demand →
  index (balance_difference plotdata demand shifted_load shed_load) = index demand.
Proof.
  intros Hd Hsh Hsd.
  unfold balance_difference, series_abs, series_add, series_sub, series_map.
  cbn [index].
  assert (index (series_binop cell_sub (sum_axis1 plotdata) demand) = index demand) as H1.
  { rewrite series_binop_aligned_index; simpl; congruence. }
  assert (index (series_binop cell_add
            (series_binop cell_sub (sum_axis1 plotdata) demand) shifted_load)
          = index demand) as H2.
  { rewrite series_binop_aligned_index; congruence. }
  rewrite series_binop_aligned_index; congruence.
Qed.

Lemma balance_difference_lookup (plotdata : frame string) demand shifted_load shed_load
    i (d sh sd : Qc) :
  frame_wf plotdata →
  index demand = f_index plotdata →
  index shifted_load = index demand → index shed_load = index demand →
  values demand !! i = Some (Some d) →
  values shifted_load !! i = Some (Some sh) →
  values shed_load !! i = Some (Some sd) →
  (i < length (f_index plotdata))%nat →
  values (balance_difference plotdata demand shifted_load shed_load) !! i
  = Some (Some (Qc_abs (Qc_sum (cell_value i <$> columns plotdata) - d + sh + sd))).
Proof.
  intros Hwf Hd Hsh Hsd Hdi Hshi Hsdi Hi.
  unfold balance_difference, series_abs, series_add, series_sub, series_map.
  cbn [values].
  assert (index (series_binop cell_sub (sum_axis1 plotdata) demand) = index demand) as H1.
  { rewrite series_binop_aligned_index; simpl; congruence. }
  assert (index (series_binop cell_add
            (series_binop cell_sub (sum_axis1 plotdata) demand) shifted_load)
          = index demand) as H2.
  { rewrite series_binop_aligned_index; congruence. }
  rewrite !series_binop_aligned_values by (simpl; congruence).
  unfold sum_axis1. cbn [values].
  rewrite list_lookup_fmap, !lookup_zip_with, list_lookup_fmap.
  rewrite row_sums_lookup by done. simpl. rewrite Hdi. simpl.
  rewrite Hshi. simpl. by rewrite Hsdi.
Qed.

Lemma balance_check_run diff demand z st :
  ∃ es,
    balance_check diff demand z st = (Ok (), State (heap st) (log st ++ es)) ∧
    (es = [] ∨ ∃ pct, es = [(Critical, BalanceDifference pct z)]) ∧
    (es ≠ [] ↔
     ∃ m d, is_max m (values diff) ∧ is_max d (values demand) ∧
            Q2Qc (1 # 100) * d < m).
Proof.
  unfold balance_check.
  destruct (cell_gt _ _) eqn:Hgt.
  - eexists [_]. split; [done|]. split; [eauto|]. split; [intros _|done].
    unfold cell_gt, cell_cmp, one_percent in Hgt.
    destruct (max_cells (values diff)) as [m|] eqn:Hm; [|done].
    destruct (max_cells (values demand)) as [d|] eqn:Hd; [|done].
    simpl in Hgt. apply bool_decide_eq_true_1 in Hgt.
    exists m, d. by rewrite <-!max_cells_Some.
  - exists []. destruct st. rewrite app_nil_r. split; [done|]. split; [auto|].
    split; [done|]. intros (m & d & Hm%max_cells_Some & Hd%max_cells_Some & Hlt).
    unfold cell_gt, cell_cmp, one_percent in Hgt. rewrite Hm, Hd in Hgt. simpl in Hgt.
    by apply bool_decide_eq_false_1 in Hgt.
Qed.


(** ** Reindexing *)

Lemma assoc_zip_lookup {V} (ks : list Z) (vs : list V) i k v :
  NoDup ks → ks !! i = Some k → vs !! i = Some v → assoc k (zip ks vs) = Some v.
Proof.
  revert vs i. induction ks as [|k0 ks IH]; intros [|v0 vs] [|i]; try done.
  - simpl. intros _ [= ->] [= ->]. by rewrite decide_True.
  - simpl. intros [Hk0 Hnd]%NoDup_cons Hk Hv.
    rewrite decide_False; [by eapply IH|].
    intros ->. apply Hk0. by eapply list_elem_of_lookup_2.
Qed.

Lemma assoc_zip_fmap {V W} (g : V → W) (ks : list Z) (vs : list V) k :
  assoc k (zip ks (g <$> vs)) = g <$> assoc k (zip ks vs).
Proof.
  revert vs. induction ks as [|k0 ks IH]; intros [|v0 vs]; try done.
  csimpl. case_decide; [done|]. apply IH.
Qed.

Lemma series_at_lookup s i t :
  NoDup (index s) → length (values s) = length (index s) →
  index s !! i = Some t → values s !! i = Some (series_at s t).
Proof.
  intros Hnd Hlen Ht. unfold series_at.
  destruct (values s !! i) as [v|] eqn:Hv.
  - by erewrite assoc_zip_lookup.
  - apply lookup_ge_None in Hv. apply lookup_lt_Some in Ht. lia.
Qed.

Lemma reindex_index s idx s' : reindex s idx = Ok s' → index s' = idx.
Proof.
  unfold reindex. repeat case_decide; intros; simplify_eq; done.
Qed.

Lemma reindex_lookup s idx :
  NoDup (index s) → length (values s) = length (index s) →
  ∃ s', reindex s idx = Ok s' ∧ index s' = idx ∧
        length (values s') = length idx ∧
        ∀ i t, idx !! i = Some t → values s' !! i = Some (series_at s t).
Proof.
  intros Hnd Hlen. unfold reindex. case_decide as Heq.
  - exists s. subst idx. split_and!; try done. intros i t. by apply series_at_lookup.
  - rewrite decide_True by done. eexists. split_and!; try done; simpl.
    + by rewrite length_fmap.
    + intros i t Ht. by rewrite list_lookup_fmap, Ht.
Qed.

Lemma zone_load_index output z sign demand s :
  zone_load output z sign demand = Ok s → index s = index demand.
Proof.
  unfold zone_load. destruct output as [f|]; [|by intros [= <-]].
  destruct (has_column z f); [|by intros [= <-]].
  destruct (get_column f z) as [c|]; [|done]. simpl.
  destruct (reindex _ _) as [s'|] eqn:Hre; [|done]. simpl.
  intros [= <-]. simpl. by eapply reindex_index.
Qed.

Lemma zone_load_lookup (f : frame string) z col (g : option Qc → option Qc) sign demand :
  assoc z (columns f) = Some col → frame_wf f → NoDup (f_index f) →
  (∀ c, index (sign c) = index c ∧ values (sign c) = g <$> values c) →
  g None = None →
  ∃ s, zone_load (Some f) z sign demand = Ok s ∧ index s = index demand ∧
       length (values s) = length (index demand) ∧
       ∀ i t, index demand !! i = Some t →
         values s !! i
         = Some (Some (default 0
             (cell_div (g (series_at (Series (f_index f) col) t)) (num 1000)))).
Proof.
  intros Hcol Hwf Hnd Hsign Hg. unfold zone_load.
  rewrite (has_column_true _ _ _ Hcol), (get_column_Ok _ _ _ Hcol). simpl.
  pose proof (frame_wf_column _ _ _ Hwf Hcol) as Hlen.
  destruct (Hsign (Series (f_index f) col)) as [Hsi Hsv]. simpl in Hsi, Hsv.
  destruct (reindex_lookup (series_div (sign (Series (f_index f) col)) 1000) (index demand))
    as (s' & -> & Hi & Hl & Hv).
  { simpl. by rewrite Hsi. }
  { simpl. by rewrite Hsv, !length_fmap, Hsi. }
  simpl. eexists. split_and!; try done; simpl.
  - by rewrite length_fmap.
  - intros i t Ht. rewrite list_lookup_fmap, (Hv i t Ht). simpl. do 2 f_equal.
    unfold series_at, series_div, series_map. simpl. rewrite Hsi, Hsv.
    rewrite !assoc_zip_fmap.
    destruct (assoc t (zip (f_index f) col)) as [c|]; simpl; [done|].
    by rewrite Hg.
Qed.

(** ** The zone driver never reaches the index failure for its loads *)

Lemma check_index_aligned lv msg s demand :
  index s = index demand → check_index lv msg (Some s) demand = mret ().
Proof. intros Heq. unfold check_index. by rewrite decide_True. Qed.

Lemma stable_bind_lift R `{!PreOrder R} {A B} (r : result A) (k : A → M B) :
  (∀ a, r = Ok a → stable R (k a)) → stable R (lift r ≫= k).
Proof.
  intros Hk st r' st'. rewrite M_bind_run. unfold lift.
  destruct r as [a|e]; [by apply Hk|]. by intros [= <- <-].
Qed.

Ltac log_prim :=
  first
    [ apply logging_logs; by split
    | apply store_logs
    | apply alloc_logs ].

Lemma plot_dispatch_logs demand p level curtailment shed_load shifted_load rng :
  index shed_load = index demand → index shifted_load = index demand →
  stable (logs not_load_mismatch)
    (plot_dispatch demand p level curtailment (Some shed_load) (Some shifted_load) rng).
Proof.
  intros Hshed Hshifted. unfold plot_dispatch.
  rewrite (check_index_aligned _ _ shed_load) by done.
  rewrite (check_index_aligned _ _ shifted_load) by done.
  unfold plot_range.
  solve_stable ltac:(first
    [ log_prim | apply check_index_stable; [apply _ | log_prim] ]).
Qed.

Section plot_zone_logs.
Variable get_plot_data : Inputs → Results → string → frame string.
Variable filter_by_zone : frame string → Inputs → string → frame string.
Variable filter_by_storage : frame string → Inputs → frame string.
Variable filter_by_tech : frame string → Inputs → string → frame string.

Lemma plot_zone_logs inputs results z rng draw :
  stable (logs not_load_mismatch)
    (plot_zone get_plot_data filter_by_zone filter_by_storage filter_by_tech
       inputs results z rng draw).
Proof.
  unfold plot_zone.
  apply stable_bind; [apply _| |intros z'].
  { unfold select_zone, random_zone. repeat case_decide; solve_stable log_prim. }
  apply stable_bind; [apply _|log_prim|intros p].
  apply stable_bind; [apply _|apply stable_lift; apply _|intros level].
  apply stable_bind; [apply _|apply stable_lift; apply _|intros demand].
  apply stable_bind; [apply _|apply stable_load; apply _|intros generation].
  apply stable_bind_lift; [apply _|]. intros shed_load Hshed%zone_load_index.
  apply stable_bind_lift; [apply _|]. intros shifted_load Hshifted%zone_load_index.
  apply stable_bind; [apply _| |intros _].
  { unfold balance_check. case_match; solve_stable log_prim. }
  apply stable_bind; [apply _|apply stable_lift; apply _|intros curtailment].
  apply stable_bind; [apply _| |intros _; apply stable_ret; apply _].
  by apply plot_dispatch_logs.
Qed.
End plot_zone_logs.


(** ** Dropping the all-zero families *)

Lemma cell_eqb_zero (c : option Qc) : cell_eqb c (num 0) = true ↔ c = Some 0.
Proof.
  unfold cell_eqb, cell_cmp, num. destruct c as [x|]; [|done].
  rewrite bool_decide_eq_true. split; [by intros -> | by intros [= ->]].
Qed.

Lemma zero_test (v : list (option Qc)) :
  cell_eqb (max_cells v) (num 0) && cell_eqb (min_cells v) (num 0)
  = bool_decide (zero_series v).
Proof.
  unfold zero_series. destruct (cell_eqb (max_cells v) _) eqn:Hmax; simpl.
  - apply cell_eqb_zero in Hmax. destruct (cell_eqb (min_cells v) _) eqn:Hmin.
    + apply cell_eqb_zero in Hmin. by rewrite bool_decide_eq_true_2.
    + rewrite bool_decide_eq_false_2; [done|]. intros [_ Hmin'%cell_eqb_zero]. congruence.
  - rewrite bool_decide_eq_false_2; [done|]. intros [Hmax'%cell_eqb_zero _]. congruence.
Qed.

Lemma assoc_app_l {K V} `{EqDecision K} (k : K) (l1 l2 : list (K * V)) :
  k ∉ l1.*1 → assoc k (l1 ++ l2) = assoc k l2.
Proof.
  induction l1 as [|[k' v'] l1 IH]; [done|]. csimpl.
  intros [? ?]%not_elem_of_cons. rewrite decide_False by done. auto.
Qed.

Lemma filter_label_fresh (l : string) (cs : list (string * list (option Qc))) :
  l ∉ cs.*1 → filter (λ c : string * list (option Qc), c.1 ≠ l) cs = cs.
Proof.
  induction cs as [|[l' v'] cs IH]; [done|]. csimpl.
  intros [? ?]%not_elem_of_cons. rewrite filter_cons_True by (simpl; congruence).
  by rewrite IH.
Qed.

Lemma filter_fst_subseteq {V} (P : string * V → Prop) `{!∀ c, Decision (P c)} cs l :
  l ∉ cs.*1 → l ∉ (filter P cs).*1.
Proof.
  intros Hl Hin. apply Hl. apply list_elem_of_fmap in Hin as (c & -> & Hc).
  apply list_elem_of_filter in Hc as [_ Hc]. by apply list_elem_of_fmap_2.
Qed.

Lemma zero_drop_fold idx (done_cols rest : list (string * list (option Qc))) :
  NoDup (done_cols ++ rest).*1 →
  foldl_result
    (λ levels col,
       c ← get_column levels col;
       if cell_eqb (max_cells (values c)) (num 0)
          && cell_eqb (min_cells (values c)) (num 0)
       then del_column levels col
       else Ok levels)
    (Frame idx (filter keep done_cols ++ rest)) rest.*1
  = Ok (Frame idx (filter keep (done_cols ++ rest))).
Proof.
  revert done_cols. induction rest as [|[l v] rest IH]; intros done_cols Hnd.
  { by rewrite !app_nil_r. }
  rewrite fmap_cons. cbn [fst foldl_result].
  assert ((l ∉ done_cols.*1) ∧ (l ∉ rest.*1)) as [Hl1 Hl2].
  { rewrite fmap_app, fmap_cons in Hnd. apply NoDup_app in Hnd as (_ & Hd & Hr).
    apply NoDup_cons in Hr as [? _]. split; [|done].
    intros Hin. apply (Hd _ Hin). left. }
  assert (assoc l (filter keep done_cols ++ (l, v) :: rest) = Some v) as Hget.
  { rewrite assoc_app_l by by apply filter_fst_subseteq. simpl. by rewrite decide_True. }
  rewrite (get_column_Ok (Frame idx _) l v Hget), result_bind_Ok. cbn [values].
  rewrite zero_test.
  replace (done_cols ++ (l, v) :: rest) with ((done_cols ++ [(l, v)]) ++ rest) in *
    by by rewrite <-app_assoc.
  case_bool_decide as Hz.
  - unfold del_column. rewrite (has_column_true l (Frame idx _) v Hget). cbn [f_index columns].
    rewrite filter_app, filter_cons_False by (simpl; auto).
    rewrite !filter_label_fresh by (try apply filter_fst_subseteq; done).
    rewrite <-(IH (done_cols ++ [(l, v)])) by done.
    rewrite filter_app, filter_cons_False by (unfold keep; simpl; auto).
    by rewrite filter_nil, app_nil_r.
  - rewrite <-(IH (done_cols ++ [(l, v)])) by done.
    rewrite filter_app, filter_cons_True by done.
    by rewrite filter_nil, <-app_assoc.
Qed.

Lemma zero_drop_eq (levels : frame string) :
  NoDup (labels levels) →
  zero_drop levels = Ok (Frame (f_index levels) (filter keep (columns levels))).
Proof.
  intros Hnd. unfold zero_drop. destruct levels as [idx cs]. unfold labels. simpl.
  apply (zero_drop_fold idx [] cs Hnd).
Qed.

Lemma put_column_NoDup {L} `{EqDecision L} (l : L) v (cs : list (L * list (option Qc))) :
  NoDup cs.*1 → NoDup (put_column l v cs).*1.
Proof.
  intros Hnd. destruct (decide (l ∈ cs.*1)).
  - by rewrite put_column_labels.
  - rewrite put_column_fresh, fmap_app by done. simpl.
    apply NoDup_app. split_and!; [done| |apply NoDup_singleton].
    by intros x Hx ->%list_elem_of_singleton.
Qed.

Lemma set_column_NoDup {L} `{EqDecision L} (f f' : frame L) l s :
  set_column f l s = Ok f' → NoDup (labels f) → NoDup (labels f').
Proof.
  unfold set_column, labels. case_decide.
  - intros [= <-] Hnd. simpl. apply put_column_NoDup.
    by rewrite <-list_fmap_compose.
  - destruct (reindex _ _); [|done]. simpl. intros [= <-] Hnd. simpl.
    by apply put_column_NoDup.
Qed.

Lemma foldl_result_invariant {A B} (P : A → Prop) (g : A → B → result A) l a a' :
  (∀ a b a', P a → g a b = Ok a' → P a') →
  P a → foldl_result g a l = Ok a' → P a'.
Proof.
  intros Hg. revert a. induction l as [|b l IH]; intros a Ha; simpl.
  - by intros [= <-].
  - destruct (g a b) as [a1|] eqn:Hab; [|done]. simpl. apply IH. by eapply Hg.
Qed.

Lemma dropna_axis1_NoDup (f : frame string) :
  NoDup (labels f) → NoDup (labels (dropna_axis1 f)).
Proof.
  unfold labels, dropna_axis1. cbn [columns]. intros Hnd.
  eapply sublist_NoDup; [exact Hnd|].
  apply fmap_sublist, sublist_filter.
Qed.

Lemma all_zero_is_zero_series (v : list (option Qc)) :
  v ≠ [] → Forall (λ c, c = Some 0) v → zero_series v.
Proof.
  intros Hne Hv. unfold zero_series, max_cells, min_cells, reduce_cells.
  assert (∃ n, skipna v = replicate (S n) 0) as [n ->].
  { destruct v as [|c v]; [done|]. exists (length v).
    clear Hne. apply Forall_cons in Hv as [-> Hv]. unfold skipna. csimpl. f_equal.
    induction Hv as [|c v -> _ IH]; [done|]. csimpl. by f_equal. }
  simpl. split; f_equal; induction n as [|n IH]; done.
Qed.

Lemma fst_pair_fmap {A B} (b : B) (l : list A) : ((λ a, (a, b)) <$> l).*1 = l.
Proof. induction l as [|a l IH]; csimpl; [done | by rewrite IH]. Qed.

Section storage.
Variable filter_by_zone : frame string → Inputs → string → frame string.
Variable filter_by_storage : frame string → Inputs → frame string.
Variable filter_by_tech : frame string → Inputs → string → frame string.

Lemma family_levels_keep inputs idx level out :
  NoDup (sets_t inputs) →
  family_levels filter_by_tech inputs idx level = Ok out →
  Forall keep (columns out).
Proof.
  intros Hnd. unfold family_levels.
  destruct (foldl_result _ _ _) as [levels|] eqn:Hfold; [|done].
  rewrite result_bind_Ok.
  apply (foldl_result_invariant (λ f, NoDup (labels f))) in Hfold.
  - rewrite zero_drop_eq by by apply dropna_axis1_NoDup.
    intros [= <-]. simpl. apply Forall_forall. intros c Hc.
    by apply list_elem_of_filter in Hc as [? _].
  - intros f t f' Hf Hset. by eapply set_column_NoDup.
  - unfold labels. cbn [columns].
    by rewrite (fst_pair_fmap _ (sets_t inputs)).
Qed.

(** C8.  The loop that drops the all-zero families keeps exactly the
  columns whose maximum and minimum are not both 0, and no family frame
  that [plot_zone] computes holds a column that is zero over the whole
  horizon. *)
Theorem zero_families_are_dropped :
  (∀ levels : frame string,
     NoDup (labels levels) →
     zero_drop levels
     = Ok (Frame (f_index levels)
             (filter (λ c, ¬ zero_series c.2) (columns levels)))) ∧
  (∀ inputs results z levels,
     NoDup (sets_t inputs) →
     storage_level filter_by_zone filter_by_storage filter_by_tech
       inputs results z = Ok (LevelFrame levels) →
     ∀ c, c ∈ columns levels →
       ¬ zero_series c.2 ∧ ¬ (c.2 ≠ [] ∧ Forall (λ x, x = Some 0) c.2)).
Proof.
  split; [apply zero_drop_eq|].
  intros inputs results z levels Hnd. unfold storage_level.
  destruct (OutputStorageLevel results) as [osl|].
  2:{ destruct (power_index results); simpl; [|done]. done. }
  destruct (scale_by_capacity _ _) as [lev|]; [|done]. rewrite result_bind_Ok.
  destruct (apply_availability _ _) as [lev'|]; [|done]. rewrite result_bind_Ok.
  destruct (family_levels _ _ _ _) as [out|] eqn:Hfam; [|done]. rewrite result_bind_Ok.
  unfold aggregation. intros [= <-] c Hc.
  pose proof (proj1 (Forall_forall _ _) (family_levels_keep _ _ _ _ Hnd Hfam) c Hc) as Hk.
  split; [done|]. intros [Hne Hz]. by apply Hk, all_zero_is_zero_series.
Qed.
End storage.

(** ** Congestion *)

Lemma assoc_zip_present {V} (ks : list Z) (vs : list V) k :
  k ∈ ks → length vs = length ks → is_Some (assoc k (zip ks vs)).
Proof.
  revert vs. induction ks as [|k0 ks IH]; intros [|v0 vs] Hk Hlen; try done.
  - by apply elem_of_nil in Hk.
  - simpl. case_decide; [by eexists|].
    apply IH; [|by injection Hlen]. by apply elem_of_cons in Hk as [?|?].
Qed.

Lemma loc_column_Ok (f : frame string) idx l v :
  assoc l (columns f) = Some v → frame_wf f → idx ⊆ f_index f →
  loc_column f idx l
  = Ok (Series idx (series_at (Series (f_index f) v) <$> idx)).
Proof.
  intros Hl Hwf Hidx. unfold loc_column.
  rewrite (get_column_Ok _ _ _ Hl), result_bind_Ok. cbn [index values].
  pose proof (frame_wf_column _ _ _ Hwf Hl) as Hlen.
  assert (mapM (λ t, or_raise KeyError (assoc t (zip (f_index f) v))) idx
          = Ok (series_at (Series (f_index f) v) <$> idx)) as ->; [|done].
  induction idx as [|t idx IH]; [done|].
  rewrite mapM_result_cons, fmap_cons.
  destruct (assoc_zip_present (f_index f) v t) as [c Hc]; [apply Hidx; left|done|].
  rewrite Hc. simpl. rewrite IH.
  - simpl. unfold series_at. simpl. by rewrite Hc.
  - intros t' Ht'. apply Hidx. by right.
Qed.

Lemma loc_size_Ok {L} (f : frame L) idx :
  idx ⊆ f_index f → loc_size f idx = Ok (length idx).
Proof.
  intros Hidx. unfold loc_size.
  assert (mapM (λ t, if decide (t ∈ f_index f) then Ok t else Raise KeyError) idx
          = Ok idx) as ->; [|done].
  induction idx as [|t idx IH]; [done|].
  rewrite mapM_result_cons, decide_True by (apply Hidx; left). simpl.
  rewrite IH; [done|]. intros t' Ht'. apply Hidx. by right.
Qed.

Lemma congestion_test (a b : option Qc) flow limit t :
  series_at flow t = a → series_at limit t = b →
  cell_eqb a b && cell_gt b (num 0) = bool_decide (congested flow limit t).
Proof.
  intros Ha Hb.
  destruct (decide (congested flow limit t)) as [HP|HP].
  - rewrite bool_decide_eq_true_2 by done.
    unfold congested in HP. rewrite Ha, Hb in HP.
    destruct a as [x|], b as [y|]; try done. destruct HP as [-> Hy]. simpl.
    by rewrite !bool_decide_eq_true_2.
  - rewrite bool_decide_eq_false_2 by done.
    unfold congested in HP. rewrite Ha, Hb in HP.
    destruct a as [x|], b as [y|]; try done. simpl.
    destruct (decide (x = y)) as [->|Hne].
    + rewrite bool_decide_eq_true_2 by done. simpl.
      apply bool_decide_eq_false_2. unfold flip. naive_solver.
    + by rewrite bool_decide_eq_false_2.
Qed.

Lemma count_congested_window flow limit idx :
  count_congested (Series idx (series_at flow <$> idx))
    (Series idx (series_at limit <$> idx))
  = congested_steps flow limit idx.
Proof.
  unfold count_congested, congested_steps. cbn [values].
  induction idx as [|t idx IH]; [done|].
  rewrite !fmap_cons. cbn [zip_with].
  rewrite (congestion_test _ _ flow limit t) by done.
  destruct (decide (congested flow limit t)) as [Hc|Hc].
  - rewrite bool_decide_eq_true_2, !filter_cons_True by done. simpl. by rewrite IH.
  - rewrite bool_decide_eq_false_2, !filter_cons_False by done. done.
Qed.

Lemma assoc_fmap_snd {K V W} `{EqDecision K} (g : V → W) (k : K) (l : list (K * V)) :
  assoc k ((λ c : K * V, (c.1, g c.2)) <$> l) = g <$> assoc k l.
Proof.
  induction l as [|[k' v'] l IH]; [done|]. csimpl. by case_decide.
Qed.

Lemma loc_set_row0 (c : frame string) l v :
  counts_wf c →
  let c' := loc_set c 0 l v in
  f_index c' = [0%Z] ∧ counts_wf c' ∧
  assoc l (columns c') = Some [v] ∧
  (∀ l', l' ≠ l → f_index c = [0%Z] → assoc l' (columns c') = assoc l' (columns c)).
Proof.
  intros [[Hi Hc]|[Hi Hc]]; unfold loc_set; rewrite Hi; simpl; rewrite ?Hi; simpl.
  - set (cs := (λ c0 : string * list (option Qc), (c0.1, c0.2 ++ [None])) <$> columns c).
    assert (Forall (λ col : string * list (option Qc), length col.2 = 1%nat) cs) as Hcs.
    { unfold cs. apply Forall_fmap. eapply Forall_impl; [done|].
      intros [? ?]. simpl. by intros ->. }
    assert (∃ o, default [None] (assoc l cs) = [o]) as [o ->].
    { destruct (assoc l cs) as [w|] eqn:Hw; simpl; [|by eexists].
      apply assoc_Some_elem in Hw.
      pose proof (proj1 (Forall_forall _ _) Hcs _ Hw) as Hlen. simpl in Hlen.
      destruct w as [|o [|]]; try done. by eexists. }
    simpl. split_and!; try done.
    + right. split; [done|]. by apply put_column_Forall.
    + apply assoc_put_column_eq.
  - assert (∃ o, default [None] (assoc l (columns c)) = [o]) as [o ->].
    { destruct (assoc l (columns c)) as [w|] eqn:Hw; simpl; [|by eexists].
      apply assoc_Some_elem in Hw.
      pose proof (proj1 (Forall_forall _ _) Hc _ Hw) as Hlen. simpl in Hlen.
      destruct w as [|o [|]]; try done. by eexists. }
    simpl. split_and!; try done.
    + right. split; [done|]. by apply put_column_Forall.
    + apply assoc_put_column_eq.
    + intros l' Hl' _. by rewrite assoc_put_column_ne.
Qed.

Lemma interior_line_test l :
  bool_decide (String.substring 0 3 l ≠ "RoW")
  && bool_decide (String.substring (String.length l - 3) 3 l ≠ "RoW")
  = bool_decide (interior_line l).
Proof.
  unfold interior_line.
  destruct (decide (String.substring 0 3 l ≠ "RoW")) as [H1|H1].
  - rewrite (bool_decide_eq_true_2 _ H1). simpl. apply bool_decide_ext. tauto.
  - rewrite (bool_decide_eq_false_2 _ H1). simpl. symmetry.
    apply bool_decide_eq_false_2. tauto.
Qed.

Section congestion.
Variables (inputs : Inputs) (flows : frame string) (idx : list Z).
Hypothesis flows_wf : frame_wf flows.
Hypothesis limits_wf : frame_wf (FlowMaximum inputs).
Hypothesis idx_flows : idx ⊆ f_index flows.
Hypothesis idx_limits : idx ⊆ f_index (FlowMaximum inputs).
Hypothesis lines_limited :
  ∀ l, l ∈ labels flows → interior_line l → l ∈ labels (FlowMaximum inputs).

Lemma congestion_loop ls seen c :
  ls ⊆ labels flows → counted inputs flows idx c seen →
  ∃ c',
    foldl_result
      (λ cgst l,
         if bool_decide (String.substring 0 3 l ≠ "RoW")
            && bool_decide (String.substring (String.length l - 3) 3 l ≠ "RoW")
         then
           flow ← loc_column flows idx l;
           limit ← loc_column (FlowMaximum inputs) idx l;
           Ok (loc_set cgst 0 l (num (Z.of_nat (count_congested flow limit))))
         else Ok cgst)
      c ls = Ok c' ∧ counted inputs flows idx c' (seen ++ ls).
Proof.
  revert seen c. induction ls as [|l ls IH]; intros seen c Hls Hc.
  { exists c. by rewrite app_nil_r. }
  cbn [foldl_result]. rewrite interior_line_test.
  assert (ls ⊆ labels flows) as Hls' by (intros x Hx; apply Hls; by right).
  replace (seen ++ l :: ls) with ((seen ++ [l]) ++ ls) by by rewrite <-app_assoc.
  case_bool_decide as Hint.
  - assert (l ∈ labels flows) as Hl by (apply Hls; left).
    destruct (proj2 (assoc_is_Some l (columns flows)) Hl) as [vf Hvf].
    destruct (proj2 (assoc_is_Some l (columns (FlowMaximum inputs)))
                (lines_limited l Hl Hint)) as [vm Hvm].
    rewrite (loc_column_Ok _ _ _ _ Hvf), result_bind_Ok by done.
    rewrite (loc_column_Ok _ _ _ _ Hvm), result_bind_Ok by done.
    rewrite result_bind_Ok, count_congested_window.
    destruct Hc as [Hwf Hseen].
    destruct (loc_set_row0 c l
      (num (Z.of_nat (congested_steps (Series (f_index flows) vf)
         (Series (f_index (FlowMaximum inputs)) vm) idx))) Hwf)
      as (Hi' & Hwf' & Hl' & Hother).
    apply IH; [done|]. split; [done|].
    intros l0 [Hl0| ->%list_elem_of_singleton]%elem_of_app Hint0.
    + split; [done|]. destruct (decide (l0 = l)) as [->|Hne].
      * rewrite Hl'. unfold line_count. by rewrite Hvf, Hvm.
      * destruct (Hseen l0 Hl0 Hint0) as [Hi0 Hc0]. by rewrite Hother.
    + split; [done|]. rewrite Hl'. unfold line_count. by rewrite Hvf, Hvm.
  - rewrite result_bind_Ok. apply IH; [done|].
    destruct Hc as [Hwf Hseen]. split; [done|].
    intros l0 [Hl0| ->%list_elem_of_singleton]%elem_of_app Hint0; [auto|done].
Qed.
End congestion.

Lemma assoc_map_cells (g : option Qc → option Qc) l (cs : list (string * list (option Qc))) :
  assoc l (map_cells g cs) = (λ v : list (option Qc), g <$> v) <$> assoc l cs.
Proof. unfold map_cells. apply (assoc_fmap_snd (λ v : list (option Qc), g <$> v)). Qed.

(** C6, amended.  For every line of the flow table whose label neither
    starts nor ends with "RoW", the congestion fraction is the number of
    timesteps of the window at which the flow equals the limit and the
    limit is positive, divided by the number of timesteps of the window. *)
Theorem congestion_fraction_of_window (inputs : Inputs) (flows : frame string)
    (idx : list Z) :
  frame_wf flows → frame_wf (FlowMaximum inputs) →
  idx ⊆ f_index flows → idx ⊆ f_index (FlowMaximum inputs) →
  idx ⊆ f_index (Demand inputs) →
  (∀ l, l ∈ labels flows → interior_line l → l ∈ labels (FlowMaximum inputs)) →
  ∃ cgst,
    get_congestion inputs flows idx = Ok cgst ∧
    ∀ l flow limit,
      assoc l (columns flows) = Some flow →
      assoc l (columns (FlowMaximum inputs)) = Some limit →
      interior_line l →
      assoc l (columns cgst)
      = Some [cell_div
                (num (Z.of_nat
                   (congested_steps (Series (f_index flows) flow)
                      (Series (f_index (FlowMaximum inputs)) limit) idx)))
                (num (Z.of_nat (length idx)))].
Proof.
  intros Hwf Hwl Hif Hil Hid Hlines. unfold get_congestion.
  set (cgst0 := Frame [] _).
  destruct (congestion_loop inputs flows idx Hwf Hwl Hif Hil Hlines
              (labels flows) [] cgst0) as (c & -> & Hwfc & Hc); [done| |].
  { split; [|by intros l ?%elem_of_nil]. left. split; [done|].
    unfold cgst0. cbn [columns]. apply Forall_fmap, Forall_true. done. }
  rewrite result_bind_Ok, (loc_size_Ok _ _ Hid), result_bind_Ok.
  eexists. split; [done|]. intros l flow limit Hflow Hlimit Hint.
  unfold frame_div. cbn [f_index columns]. rewrite !assoc_map_cells.
  destruct (Hc l) as [_ ->]; [|done|].
  { apply assoc_is_Some. by rewrite Hflow. }
  unfold line_count. by rewrite Hflow, Hlimit.
Qed.

(** ** Worked examples *)

(** Decide a closed statement by evaluation. *)
Ltac by_evaluation :=
  match goal with
  | |- ?P => apply (bool_decide_unpack P); vm_compute; exact I
  end.

Lemma stack_split_example_eval :
  stack_layout stack_split_example = Ok stack_split_layout.
Proof. by_evaluation. Qed.

(** C5, amended.  On the frame [Export(-5,-5), Curtail(0,0), Gas(60,60),
    Wind(40,42)] the zero line is at position 2: the negative block holds
    Export, between -5 and 0, and Curtail, between 0 and 0, at both
    timesteps; the boundaries of the positive block are [0, 60, 100] at the
    first timestep and [0, 60, 102] at the second. *)
Theorem stack_split_example_layout :
  ∃ lay,
    stack_layout stack_split_example = Ok lay ∧
    idx_zero lay = 2%nat ∧
    columns (sumplot_neg lay)
    = [("sum", [num (-5); num (-5)]); ("Export", [num 0; num 0]);
       ("Curtail", [num 0; num 0])] ∧
    bands (columns (sumplot_neg lay))
    = [("Export", ([num (-5); num (-5)], [num 0; num 0]));
       ("Curtail", ([num 0; num 0], [num 0; num 0]))] ∧
    boundaries_at 0 (sumplot_pos lay) = [num 0; num 60; num 100] ∧
    boundaries_at 1 (sumplot_pos lay) = [num 0; num 60; num 102].
Proof. exists stack_split_layout. by rewrite stack_split_example_eval. Qed.

(** C5 as stated fails: the negative block of the example is not Export
    alone. *)
Lemma stack_split_example_not_export_alone :
  ¬ ∃ lay,
      stack_layout stack_split_example = Ok lay ∧
      bands (columns (sumplot_neg lay))
      = [("Export", ([num (-5); num (-5)], [num 0; num 0]))] ∧
      boundaries_at 0 (sumplot_pos lay) = [num 0; num 60; num 100] ∧
      boundaries_at 1 (sumplot_pos lay) = [num 0; num 60; num 102].
Proof.
  intros (lay & Hlay & Hneg & _).
  rewrite stack_split_example_eval in Hlay. injection Hlay as <-. discriminate.
Qed.

(** C6, as stated: refuted.  The horizon has four timesteps, the window
    the first two, and the line "A -> B" is congested at both: the code
    gives 2/2, not 2/4. *)
Lemma congestion_not_over_full_horizon :
  get_congestion congestion_inputs congestion_flows [0; 1]%Z
  = Ok congestion_of_window ∧
  congested_steps
    (Series (f_index congestion_flows) [num 10; num 10; num 3; num 4])
    (Series (f_index (FlowMaximum congestion_inputs))
       [num 10; num 10; num 10; num 10])
    [0; 1]%Z = 2%nat ∧
  length (f_index (Demand congestion_inputs)) = 4%nat ∧
  assoc "A -> B" (columns congestion_of_window)
  ≠ Some [cell_div (num 2) (num 4)].
Proof. split_and!; by_evaluation. Qed.



(** Generation [100, 100] against the same demand is within tolerance:
    nothing is logged. *)
Example balance_within_tolerance :
  balance_check
    (balance_difference
       (Frame [0; 1]%Z [("Gas", [num 60; num 60]); ("Wind", [num 40; num 40])])
       balance_demand no_load no_load)
    balance_demand "Z1" empty_state
  = (Ok (), empty_state).
Proof. by_evaluation. Qed.

(** The whole driver on the same data: the difference of 2% is logged and
    the call returns [True]. *)
Example plot_zone_reports_and_returns :
  plot_zone example_plot_data keep_zone keep_storage keep_tech
    balance_inputs balance_results "Z1" None 0 empty_state
  = (Ok true,
     State {[1%positive :=
               Frame [0; 1]%Z [("Gas", [num 60; num 60]); ("Wind", [num 40; num 42])]]}
       [(Critical, BalanceDifference (num 2) "Z1")]).
Proof. by_evaluation. Qed.

(** C2 at [flows_example]. *)
Lemma netting_replaces_flow_pair_witness :
  frame_wf flows_example ∧
  ∃ f', netting flows_example = Ok f' ∧
        f_index f' = f_index flows_example ∧ labels f' = labels flows_example.
Proof.
  assert (frame_wf flows_example) as Hwf by (repeat constructor).
  split; [exact Hwf|].
  destruct (netting_replaces_flow_pair flows_example Hwf) as (f' & H1 & H2 & H3 & _).
  exists f'. split_and!; assumption.
Defined.

(** C3 at [flows_example]. *)
Lemma netting_idempotent_witness :
  frame_wf flows_example ∧
  ∃ f', netting flows_example = Ok f' ∧ netting f' = Ok f'.
Proof.
  assert (frame_wf flows_example) as Hwf by (repeat constructor).
  split; [exact Hwf|]. exact (netting_idempotent flows_example Hwf).
Defined.

(** C4: at the first timestep the columns hold 5, 60 and -3. *)
Lemma stacking_conserves_energy_witness :
  dispatch_frame flows_example ∧ columns flows_example ≠ [] ∧
  ∃ g lay,
    netting flows_example = Ok g ∧ stack_layout g = Ok lay ∧
    ∃ lo up (lower upper : Qc),
      head (columns (sumplot_neg lay)) = Some ("sum", lo) ∧
      last (columns (sumplot_pos lay)) = Some up ∧
      lo !! 0%nat = Some (Some lower) ∧ up.2 !! 0%nat = Some (Some upper) ∧
      upper + lower
      = Qc_sum [Q2Qc (inject_Z 5); Q2Qc (inject_Z 60); Q2Qc (inject_Z (-3))].
Proof.
  assert (dispatch_frame flows_example) as Hd.
  { split_and!; [repeat constructor | by_evaluation..]. }
  assert (columns flows_example ≠ []) as Hne by discriminate.
  split_and!; [exact Hd | exact Hne |].
  destruct (stacking_conserves_energy flows_example Hd Hne) as (g & lay & Hg & Hlay & Hrow).
  exists g, lay. split_and!; [exact Hg | exact Hlay |].
  apply (Hrow 0%nat). repeat constructor.
Defined.

(** C6, amended, at the window of the first two timesteps. *)
Lemma congestion_fraction_of_window_witness :
  frame_wf congestion_flows ∧ frame_wf (FlowMaximum congestion_inputs) ∧
  [0; 1]%Z ⊆ f_index congestion_flows ∧
  ∃ cgst,
    get_congestion congestion_inputs congestion_flows [0; 1]%Z = Ok cgst ∧
    assoc "A -> B" (columns cgst)
    = Some [cell_div
              (num (Z.of_nat
                 (congested_steps
                    (Series (f_index congestion_flows)
                       [num 10; num 10; num 3; num 4])
                    (Series (f_index (FlowMaximum congestion_inputs))
                       [num 10; num 10; num 10; num 10])
                    [0; 1]%Z)))
              (num (Z.of_nat (length [0; 1]%Z)))].
Proof.
  assert (frame_wf congestion_flows) as Hwf by (repeat constructor).
  assert (frame_wf (FlowMaximum congestion_inputs)) as Hwl by (repeat constructor).
  assert (∀ idx : list Z, [0; 1]%Z ⊆ 0%Z :: 1%Z :: idx) as Hsub.
  { intros idx x Hx. apply elem_of_cons in Hx as [->|Hx]; [left|].
    apply list_elem_of_singleton in Hx as ->. right. left. }
  split_and!; [exact Hwf | exact Hwl | apply Hsub |].
  destruct (congestion_fraction_of_window congestion_inputs congestion_flows [0; 1]%Z
              Hwf Hwl (Hsub _) (Hsub _) (Hsub _)) as (cgst & Hrun & Hline).
  { intros l Hl _. exact Hl. }
  exists cgst. split; [exact Hrun|].
  apply Hline; [reflexivity | reflexivity | by_evaluation].
Defined.


(** C8 at [levels_example]: the all-zero family goes, the other stays. *)
Lemma zero_families_are_dropped_witness :
  NoDup (labels levels_example) ∧
  zero_drop levels_example
  = Ok (Frame (f_index levels_example)
          (filter (λ c, ¬ zero_series c.2) (columns levels_example))) ∧
  filter (λ c, ¬ zero_series c.2) (columns levels_example)
  = [("HPHS", [num 1; num 0])].
Proof.
  assert (NoDup (labels levels_example)) as Hnd by by_evaluation.
  split_and!; [exact Hnd | | by_evaluation].
  exact (proj1 (zero_families_are_dropped keep_zone keep_storage keep_tech)
           levels_example Hnd).
Defined.



(** The shed load of the example, as the driver passes it on. *)
Example zone_load_fills_the_missing_hour :
  zone_load (Some shed_results) "Z1" id balance_demand
  = Ok (Series [0; 1]%Z [num 3; num 0]).
Proof. by_evaluation. Qed.

(** * Properties of the further functions *)

(** ** Minima *)

Lemma Qc_min_le_l x y : Qc_min x y ≤ x.
Proof.
  unfold Qc_min. case_decide as H; [apply Qcle_refl|].
  apply Qclt_le_weak. by apply Qcnot_le_lt.
Qed.

Lemma Qc_min_le_r x y : Qc_min x y ≤ y.
Proof. unfold Qc_min. case_decide; [done | apply Qcle_refl]. Qed.

Lemma Qc_min_cases x y : Qc_min x y = x ∨ Qc_min x y = y.
Proof. unfold Qc_min. case_decide; auto. Qed.

Lemma foldl_Qc_min x xs :
  foldl Qc_min x xs ∈ x :: xs ∧ ∀ y, y ∈ x :: xs → foldl Qc_min x xs ≤ y.
Proof.
  revert x. induction xs as [|z xs IH]; intros x; simpl.
  - split; [left|]. intros y ->%list_elem_of_singleton. apply Qcle_refl.
  - destruct (IH (Qc_min x z)) as [Hin Hle]. split.
    + apply elem_of_cons in Hin as [Heq|Hin]; [|by do 2 right].
      rewrite Heq. destruct (Qc_min_cases x z) as [-> | ->]; [left | right; left].
    + intros y Hy. apply elem_of_cons in Hy as [->|Hy].
      * etrans; [apply Hle; left|]. apply Qc_min_le_l.
      * apply elem_of_cons in Hy as [->|Hy].
        -- etrans; [apply Hle; left|]. apply Qc_min_le_r.
        -- apply Hle. by right.
Qed.

Lemma min_cells_Some l m : min_cells l = Some m ↔ is_min m l.
Proof.
  unfold min_cells, reduce_cells, is_min.
  destruct (skipna l) as [|x xs] eqn:Hl.
  - split; [done|]. intros [Hm _]. apply elem_of_skipna in Hm.
    rewrite Hl in Hm. by apply elem_of_nil in Hm.
  - destruct (foldl_Qc_min x xs) as [Hin Hle]. rewrite <-Hl in Hin, Hle.
    split.
    + intros [= <-]. split; [by apply elem_of_skipna|].
      intros y Hy. by apply Hle, elem_of_skipna.
    + intros [Hm Hmin]. f_equal. apply Qcle_antisym.
      * apply Hle. by apply elem_of_skipna.
      * apply Hmin. by apply elem_of_skipna.
Qed.

(** ** The bounding box *)

Lemma foldl_cell_op_numbers op (x : Qc) (xs : list Qc) :
  foldl (cell_op op) (Some x) (Some <$> xs) = Some (foldl op x xs).
Proof. revert x. induction xs as [|y xs IH]; intros x; csimpl; [done|]. apply IH. Qed.

Lemma numbers_of_cells (l : list cell) :
  Forall is_Some l → ∃ xs : list Qc, l = Some <$> xs.
Proof.
  induction 1 as [|c l [x ->] _ [xs ->]]; [by exists []|]. by exists (x :: xs).
Qed.

Lemma np_reduce_numbers op (l : list cell) :
  l ≠ [] → Forall is_Some l →
  ∃ x xs, l = Some <$> (x :: xs) ∧ np_reduce op l = Ok (Some (foldl op x xs)).
Proof.
  intros Hne [xs ->]%numbers_of_cells. destruct xs as [|x xs]; [done|].
  exists x, xs. split; [done|]. csimpl. by rewrite foldl_cell_op_numbers.
Qed.

Lemma np_max_numbers (l : list cell) :
  l ≠ [] → Forall is_Some l → ∃ m, np_max l = Ok (Some m) ∧ is_max m l.
Proof.
  intros Hne Hnum. destruct (np_reduce_numbers Qc_max l Hne Hnum) as (x & xs & -> & Hr).
  eexists. split; [exact Hr|]. destruct (foldl_Qc_max x xs) as [Hin Hge]. split.
  - by apply list_elem_of_fmap_2.
  - intros y (y' & [= ->] & Hy)%list_elem_of_fmap. by apply Hge.
Qed.

Lemma np_min_numbers (l : list cell) :
  l ≠ [] → Forall is_Some l → ∃ m, np_min l = Ok (Some m) ∧ is_min m l.
Proof.
  intros Hne Hnum. destruct (np_reduce_numbers Qc_min l Hne Hnum) as (x & xs & -> & Hr).
  eexists. split; [exact Hr|]. destruct (foldl_Qc_min x xs) as [Hin Hle]. split.
  - by apply list_elem_of_fmap_2.
  - intros y (y' & [= ->] & Hy)%list_elem_of_fmap. by apply Hle.
Qed.

Lemma is_min_le_is_max lo hi l : is_min lo l → is_max hi l → lo ≤ hi.
Proof. intros [Hlo _] [_ Hhi]. by apply Hhi. Qed.

Lemma bbox_margin_nonneg margin_type margin lo hi :
  0 ≤ margin → lo ≤ hi → 0 ≤ bbox_margin margin_type margin lo hi.
Proof.
  intros Hm Hlh. unfold bbox_margin. case_decide; [done|].
  replace (Q2Qc 0) with (0 * (hi - lo)) by ring.
  apply Qcmult_le_compat_r; [done|].
  replace (Q2Qc 0) with (lo - lo) by ring. unfold Qcminus.
  by apply Qcplus_le_compat; [|apply Qcle_refl].
Qed.

Lemma Qc_widen_l (a d x : Qc) : 0 ≤ d → a ≤ x → a - d ≤ x.
Proof.
  intros Hd Hax. replace x with (x - 0) by ring. unfold Qcminus.
  apply Qcplus_le_compat; [done|]. by apply Qcopp_le_compat.
Qed.

Lemma Qc_widen_r (a d x : Qc) : 0 ≤ d → x ≤ a → x ≤ a + d.
Proof.
  intros Hd Hax. replace x with (x + 0) by ring.
  by apply Qcplus_le_compat.
Qed.


(** X4.  [compute_bbox_with_margins] raises [ValueError] exactly when the
    two lists of coordinates differ in length or are empty, and returns a
    box in every other case. *)
Theorem bbox_needs_points (x y : list cell) (margin_type : string) (margin : Qc) :
  (compute_bbox_with_margins x y margin_type margin = Raise ValueError
   ↔ length x ≠ length y ∨ x = []) ∧
  ((∃ box, compute_bbox_with_margins x y margin_type margin = Ok box)
   ↔ length x = length y ∧ x ≠ []).
Proof.
  unfold compute_bbox_with_margins.
  destruct (decide (length x = length y)) as [Hlen|Hlen].
  2:{ split; split; try done; [by left | by intros [? ?] | by intros [? ?]]. }
  destruct x as [|a x]; destruct y as [|b y]; try done.
  - split; split; try done; [by right | by intros [? ?] | by intros [_ ?]].
  - simpl. split; split.
    + by case_decide.
    + intros [?|?]; done.
    + done.
    + intros _. case_decide; eauto.
Qed.

Lemma foldl_cell_op_None op (l : list cell) : foldl (cell_op op) None l = None.
Proof. induction l as [|c l IH]; [done|]. simpl. apply IH. Qed.

Lemma np_reduce_nan op (l : list cell) :
  None ∈ l → np_reduce op l = Ok None.
Proof.
  destruct l as [|c l]; [by intros ?%elem_of_nil|]. simpl. intros Hin. f_equal.
  revert c Hin. induction l as [|d l IH]; intros c Hin.
  - by apply list_elem_of_singleton in Hin as <-.
  - simpl. apply elem_of_cons in Hin as [<-|Hin].
    + simpl. apply foldl_cell_op_None.
    + apply IH. apply elem_of_cons in Hin as [<-|Hin]; [|by right].
      destruct c; left.
Qed.

(** X5.  One NaN among the [x] coordinates makes both [x] bounds of the box
    NaN: the minimum and the maximum of numpy do not skip it. *)
Theorem bbox_of_a_nan_coordinate_is_nan (x y : list cell) (margin_type : string)
    (margin : Qc) :
  length x = length y → None ∈ x →
  ∃ y1 y2, compute_bbox_with_margins x y margin_type margin
           = Ok ((None, y1), (None, y2)).
Proof.
  intros Hlen Hnan. unfold compute_bbox_with_margins. rewrite decide_True by done.
  unfold np_min, np_max. rewrite !(np_reduce_nan _ x) by done.
  rewrite result_bind_Ok.
  destruct y as [|b y]; [destruct x; [by apply elem_of_nil in Hnan|done]|].
  simpl. case_decide; eauto.
Qed.

(** ** First occurrences *)

Section unique.
Context {A : Type} `{EqDecision A}.

Lemma unique_fold (seen l : list A) x :
  x ∈ foldl (λ seen x, if decide (x ∈ seen) then seen else seen ++ [x]) seen l
  ↔ x ∈ seen ∨ x ∈ l.
Proof.
  revert seen. induction l as [|y l IH]; intros seen; simpl.
  - split; [by left|]. intros [?|?%elem_of_nil]; done.
  - rewrite IH. case_decide as Hy.
    + split; [intros [?|?]; [by left|right; by right]|].
      intros [?|[->|?]%elem_of_cons]; [by left|by left|by right].
    + rewrite elem_of_app, list_elem_of_singleton.
      split; [intros [[?| ->]|?]; [by left|right; left|right; by right]|].
      intros [?|[->|?]%elem_of_cons]; [left; by left|left; by right|by right].
Qed.

Lemma elem_of_unique (l : list A) x : x ∈ unique l ↔ x ∈ l.
Proof.
  unfold unique. rewrite unique_fold. split; [|by right].
  intros [?%elem_of_nil|?]; done.
Qed.
End unique.

(** ** Tables *)

Lemma assoc_app {K V} `{EqDecision K} (k : K) (l1 l2 : list (K * V)) :
  assoc k (l1 ++ l2) = match assoc k l1 with Some v => Some v | None => assoc k l2 end.
Proof.
  induction l1 as [|[k' v'] l1 IH]; [done|]. simpl. by case_decide.
Qed.

Lemma assoc_map_if {K V} `{EqDecision K} (c : K) (h : V → V) (k : K) (l : list (K * V)) :
  assoc k ((λ col : K * V, if decide (col.1 = c) then (col.1, h col.2) else col) <$> l)
  = if decide (k = c) then h <$> assoc k l else assoc k l.
Proof.
  induction l as [|[k' v'] l IH]; csimpl; [by case_decide|].
  destruct (decide (k' = c)) as [->|Hne]; simpl.
  - destruct (decide (c = k)) as [->|Hne'].
    + by rewrite decide_True.
    + rewrite IH. done.
  - destruct (decide (k' = k)) as [->|Hne'].
    + by rewrite decide_False.
    + rewrite IH. done.
Qed.

Lemma zip_snoc {X Y} (l : list X) (k : list Y) x y :
  length l = length k → zip (l ++ [x]) (k ++ [y]) = zip l k ++ [(x, y)].
Proof.
  revert k. induction l as [|a l IH]; intros [|b k] Hlen; try done.
  simpl. rewrite IH; [done|]. by injection Hlen.
Qed.

Lemma assoc_zip_replicate_None (idx : list string) n r :
  default None (assoc r (zip idx (replicate n (None : cell)))) = None.
Proof.
  revert n. induction idx as [|t idx IH]; intros [|n]; try done.
  simpl. case_decide; [done|]. apply IH.
Qed.

Lemma assoc_zip_set (idx : list string) (col : list cell) r v r' :
  length col = length idx →
  assoc r' (zip idx (zip_with (λ lbl old, if decide (lbl = r) then v else old) idx col))
  = if decide (r' = r)
    then (if decide (r ∈ idx) then Some v else None)
    else assoc r' (zip idx col).
Proof.
  revert col. induction idx as [|t idx IH]; intros [|x col] Hlen; try done.
  - simpl. destruct (decide (r' = r)); [|done].
    destruct (decide (r ∈ [])) as [Hin%elem_of_nil|]; done.
  - simpl. injection Hlen as Hlen. rewrite (IH col Hlen).
    repeat case_decide; simplify_eq; try done.
    all: exfalso;
      repeat match goal with
      | H : _ ∉ _ :: _ |- _ => apply not_elem_of_cons in H as [? ?]
      | H : _ ∈ _ :: _ |- _ => apply elem_of_cons in H as [?|?]
      end; done.
Qed.

Lemma table_set_wf t r c v : table_wf t → table_wf (table_set t r c v).
Proof.
  intros Hwf. unfold table_set.
  set (t1 := if decide (r ∈ t_index t) then t else _).
  assert (table_wf t1) as Hwf1.
  { unfold t1. case_decide; [done|]. unfold table_wf. simpl.
    apply Forall_fmap. eapply Forall_impl; [exact Hwf|].
    intros [l w] Hl. simpl in *. rewrite !length_app. simpl. lia. }
  set (t2 := if decide (c ∈ t_labels t1) then t1 else _).
  assert (table_wf t2) as Hwf2.
  { unfold t2. case_decide; [done|]. unfold table_wf. simpl.
    apply Forall_app. split; [done|]. repeat constructor. simpl.
    by rewrite length_replicate. }
  unfold table_wf. simpl. apply Forall_fmap. eapply Forall_impl; [exact Hwf2|].
  intros [l w] Hl. simpl in *. case_decide; simpl; [|done].
  rewrite length_zip_with. lia.
Qed.

Lemma table_set_index t r c v :
  t_index (table_set t r c v)
  = if decide (r ∈ t_index t) then t_index t else t_index t ++ [r].
Proof. unfold table_set. simpl. repeat case_decide; done. Qed.

Lemma table_at_set t r c v r' c' :
  table_wf t →
  table_at (table_set t r c v) r' c'
  = if decide (r' = r ∧ c' = c) then v else table_at t r' c'.
Proof.
  intros Hwf. unfold table_set.
  set (t1 := if decide (r ∈ t_index t) then t else _).
  assert (table_wf t1 ∧ r ∈ t_index t1 ∧ ∀ r' c', table_at t1 r' c' = table_at t r' c')
    as (Hwf1 & Hr1 & Hat1).
  { unfold t1. case_decide as Hr; [done|]. split_and!.
    - unfold table_wf. simpl.
      apply Forall_fmap. eapply Forall_impl; [exact Hwf|].
      intros [l w] Hl. simpl in *. rewrite !length_app. simpl. lia.
    - simpl. apply elem_of_app. right. left.
    - intros r0 c0. unfold table_at. simpl.
      rewrite (assoc_fmap_snd (λ w : list cell, w ++ [None])).
      destruct (assoc c0 (t_columns t)) as [w|] eqn:Hw; [|done]. simpl.
      rewrite zip_snoc.
      2:{ symmetry. apply (proj1 (Forall_forall _ _) Hwf _ (assoc_Some_elem _ _ _ Hw)). }
      rewrite assoc_app. destruct (assoc r0 (zip (t_index t) w)); [done|].
      simpl. by case_decide. }
  clearbody t1.
  set (t2 := if decide (c ∈ t_labels t1) then t1 else _).
  assert (table_wf t2 ∧ r ∈ t_index t2 ∧ c ∈ t_labels t2 ∧
          ∀ r' c', table_at t2 r' c' = table_at t1 r' c')
    as (Hwf2 & Hr2 & Hc2 & Hat2).
  { unfold t2. case_decide as Hc; [done|]. split_and!.
    - unfold table_wf. simpl.
      apply Forall_app. split; [done|]. repeat constructor. simpl.
      by rewrite length_replicate.
    - done.
    - unfold t_labels. simpl. rewrite fmap_app. apply elem_of_app. right. left.
    - intros r0 c0. unfold table_at. simpl. rewrite assoc_app.
      destruct (assoc c0 (t_columns t1)) as [w|] eqn:Hw; [done|].
      simpl. case_decide; [|done]. apply assoc_zip_replicate_None. }
  clearbody t2. unfold table_at at 1. simpl.
  rewrite (assoc_map_if c
    (zip_with (λ lbl old, if decide (lbl = r) then v else old) (t_index t2))).
  rewrite <-Hat1, <-Hat2. unfold table_at.
  destruct (decide (c' = c)) as [->|Hne].
  - destruct (proj2 (assoc_is_Some c (t_columns t2)) Hc2) as [w Hw].
    rewrite Hw. simpl. rewrite assoc_zip_set.
    2:{ apply (proj1 (Forall_forall _ _) Hwf2 _ (assoc_Some_elem _ _ _ Hw)). }
    destruct (decide (r' = r)) as [->|Hne].
    + rewrite decide_True by done. rewrite decide_True by done. done.
    + rewrite decide_False by (by intros [? _]). done.
  - rewrite decide_False by (by intros [_ ?]). done.
Qed.

Lemma empty_table_wf idx cols : table_wf (empty_table idx cols).
Proof.
  unfold table_wf, empty_table. simpl. apply Forall_fmap, Forall_true.
  intros c. simpl. by rewrite length_replicate.
Qed.

Lemma table_at_empty idx cols r c : table_at (empty_table idx cols) r c = None.
Proof.
  unfold table_at, empty_table. simpl.
  destruct (assoc c _) as [w|] eqn:Hw; [|done].
  apply assoc_Some_elem, list_elem_of_fmap in Hw as (c0 & [= _ ->] & _).
  apply assoc_zip_replicate_None.
Qed.

(** Cells written one after the other, each with the value of its
    place. *)
Lemma table_at_writes (g : string → string → cell) ps t r c :
  table_wf t →
  table_wf (foldl (λ t (nf : string * string), table_set t nf.1 nf.2 (g nf.1 nf.2)) t ps) ∧
  table_at (foldl (λ t (nf : string * string), table_set t nf.1 nf.2 (g nf.1 nf.2)) t ps) r c
  = if decide ((r, c) ∈ ps) then g r c else table_at t r c.
Proof.
  revert t. induction ps as [|[n f] ps IH]; intros t Hwf; simpl.
  - split; [done|]. done.
  - destruct (IH (table_set t n f (g n f)) (table_set_wf _ _ _ _ Hwf)) as [Hwf' ->].
    split; [done|]. rewrite table_at_set by done.
    destruct (decide ((r, c) ∈ ps)) as [Hin|Hin].
    + rewrite decide_True; [done|by right].
    + destruct (decide (r = n ∧ c = f)) as [[-> ->]|Hne].
      * rewrite decide_True; [done|left].
      * rewrite decide_False; [done|]. intros [[= -> ->]|?]%elem_of_cons; [|done].
        by apply Hne.
Qed.

Lemma foldl_pair {X Y B} (F1 : X → B → X) (F2 : Y → B → Y) l a b :
  foldl (λ (acc : X * Y) (x : B), (F1 acc.1 x, F2 acc.2 x)) (a, b) l
  = (foldl F1 a l, foldl F2 b l).
Proof. revert a b. induction l as [|x l IH]; intros a b; simpl; [done|]. apply IH. Qed.

(** ** Selecting columns *)

Lemma elem_of_concat {X} (x : X) (ls : list (list X)) :
  x ∈ concat ls ↔ ∃ l, x ∈ l ∧ l ∈ ls.
Proof.
  induction ls as [|l ls IH]; simpl.
  - split; [by intros ?%elem_of_nil|]. by intros (l & _ & ?%elem_of_nil).
  - rewrite elem_of_app, IH. split.
    + intros [?|(l' & ? & ?)]; [exists l; split; [done|left]|].
      exists l'. split; [done|by right].
    + intros (l' & Hx & [->|?]%elem_of_cons); [by left|]. right. by exists l'.
Qed.

Lemma assoc_filter_label {V} (c k : string) (l : list (string * V)) :
  assoc k (filter (λ col : string * V, col.1 = c) l)
  = if decide (k = c) then assoc k l else None.
Proof.
  induction l as [|[k' v'] l IH]; [by case_decide|].
  destruct (decide (k' = c)) as [->|Hne].
  - rewrite filter_cons_True by done. simpl. rewrite IH.
    destruct (decide (c = k)) as [->|Hne]; [by rewrite decide_True|].
    by case_decide.
  - rewrite filter_cons_False by done. rewrite IH. simpl.
    case_decide; [subst; by rewrite decide_False|done].
Qed.

Lemma assoc_concat_filter {V} (k : string) (cs : list string) (l : list (string * V)) :
  assoc k (concat ((λ c, filter (λ col : string * V, col.1 = c) l) <$> cs))
  = if decide (k ∈ cs) then assoc k l else None.
Proof.
  induction cs as [|c cs IH]; csimpl; [done|].
  rewrite assoc_app, assoc_filter_label, IH.
  destruct (decide (k = c)) as [->|Hne].
  - rewrite (decide_True (P := c ∈ c :: cs)) by left.
    destruct (assoc c l); [done|]. by case_decide.
  - destruct (decide (k ∈ cs)) as [Hin|Hin].
    + rewrite decide_True; [done|by right].
    + rewrite decide_False; [done|]. by intros [?|?]%elem_of_cons.
Qed.

Lemma table_select_present t cols :
  cols ⊆ t_labels t →
  table_select t cols
  = Ok (Table (t_index t)
          (concat ((λ c, filter (λ col : string * list cell, col.1 = c) (t_columns t))
                     <$> cols))).
Proof.
  intros Hsub. unfold table_select.
  assert (mapM (λ c, match filter (λ col : string * list cell, col.1 = c) (t_columns t) with
                     | [] => Raise KeyError
                     | found => Ok found
                     end) cols
          = Ok ((λ c, filter (λ col : string * list cell, col.1 = c) (t_columns t)) <$> cols))
    as ->; [|done].
  induction cols as [|c cols IH]; [done|].
  rewrite mapM_result_cons, fmap_cons.
  assert (c ∈ t_labels t) as Hc by (apply Hsub; left).
  apply list_elem_of_fmap in Hc as ([l w] & -> & Hc).
  destruct (filter _ (t_columns t)) as [|col found] eqn:Hf.
  { exfalso. eapply (filter_nil_not_elem_of _ _ (l, w)); [exact Hf|done|done]. }
  rewrite result_bind_Ok, IH; [done|]. intros x Hx. apply Hsub. by right.
Qed.

Lemma table_at_select t cols t' r c :
  table_select t cols = Ok t' →
  cols ⊆ t_labels t →
  table_at t' r c = if decide (c ∈ cols) then table_at t r c else None.
Proof.
  intros Hsel Hsub. rewrite table_select_present in Hsel by done.
  injection Hsel as <-. unfold table_at. simpl. rewrite assoc_concat_filter.
  by case_decide.
Qed.

Lemma select_labels t cols t' :
  table_select t cols = Ok t' → cols ⊆ t_labels t → t_labels t' ⊆ cols.
Proof.
  intros Hsel Hsub. rewrite table_select_present in Hsel by done.
  injection Hsel as <-. unfold t_labels. simpl.
  intros l (col & -> & Hcol)%list_elem_of_fmap.
  apply elem_of_concat in Hcol as (found & Hcol & Hfound).
  apply list_elem_of_fmap in Hfound as (c & -> & Hc).
  apply list_elem_of_filter in Hcol as [-> _]. done.
Qed.

Lemma merit_order_labels (MeritOrder : list string) t :
  filter (λ col, col ∈ t_labels t) MeritOrder ⊆ t_labels t.
Proof. intros c Hc. by apply list_elem_of_filter in Hc as [? _]. Qed.

(** ** Installed capacities *)

Lemma zone_fuels_elem (units : list unit_row) n f :
  (n, f) ∈ unique ((λ u, (u_Zone u, u_Fuel u)) <$> units) ↔ zone_has_fuel units n f.
Proof.
  rewrite elem_of_unique, list_elem_of_fmap. unfold zone_has_fuel.
  rewrite Exists_exists. split.
  - intros (u & [= -> ->] & Hu). by exists u.
  - intros (u & Hu & <- & <-). by exists u.
Qed.

(** X1.  Without the plot, [plot_zone_capacities] returns its two tables on
    every input.  For a zone and a fuel that some unit combines, the cell
    of the storage table is the sum, over the units of that zone and
    fuel, of storage capacity times number of units, and the cell of the
    power table is the same sum of the power capacities, provided the
    fuel is in the merit order.  A pair that no unit combines has no
    number in either table, and the power table holds no column outside
    the merit order. *)
Theorem zone_capacities_by_zone_and_fuel (MeritOrder : list string)
    (colors : list (string * string)) (inputs : Inputs) (units : list unit_row)
    (sets_f : list string) :
  ∃ P S,
    plot_zone_capacities MeritOrder colors inputs units sets_f false = Ok (P, S) ∧
    ∀ n f,
      (zone_has_fuel units n f →
       table_at S n f = capacity_sum units u_StorageCapacity n f ∧
       (f ∈ MeritOrder → table_at P n f = capacity_sum units u_PowerCapacity n f)) ∧
      (¬ zone_has_fuel units n f → table_at S n f = None ∧ table_at P n f = None) ∧
      (f ∉ MeritOrder → table_at P n f = None).
Proof.
  unfold plot_zone_capacities.
  rewrite (foldl_pair
    (λ t (nf : string * string),
       table_set t nf.1 nf.2 (capacity_sum units u_PowerCapacity nf.1 nf.2))
    (λ t (nf : string * string),
       table_set t nf.1 nf.2 (capacity_sum units u_StorageCapacity nf.1 nf.2))).
  set (ps := unique _).
  set (P0 := foldl
    (λ t (nf : string * string),
       table_set t nf.1 nf.2 (capacity_sum units u_PowerCapacity nf.1 nf.2))
    (empty_table (sets_n inputs) sets_f) ps).
  set (S0 := foldl
    (λ t (nf : string * string),
       table_set t nf.1 nf.2 (capacity_sum units u_StorageCapacity nf.1 nf.2))
    (empty_table (sets_n inputs) sets_f) ps).
  pose proof (merit_order_labels MeritOrder P0) as Hsub.
  destruct (table_select P0 _) as [P|] eqn:Hsel.
  2:{ by rewrite table_select_present in Hsel. }
  rewrite result_bind_Ok. exists P, S0. split; [done|].
  intros n f.
  assert (table_at P0 n f
          = if decide ((n, f) ∈ ps) then capacity_sum units u_PowerCapacity n f else None)
    as HP0.
  { unfold P0.
    destruct (table_at_writes (capacity_sum units u_PowerCapacity) ps
                (empty_table (sets_n inputs) sets_f) n f (empty_table_wf _ _)) as [_ ->].
    by rewrite table_at_empty. }
  assert (table_at S0 n f
          = if decide ((n, f) ∈ ps) then capacity_sum units u_StorageCapacity n f else None)
    as HS0.
  { unfold S0.
    destruct (table_at_writes (capacity_sum units u_StorageCapacity) ps
                (empty_table (sets_n inputs) sets_f) n f (empty_table_wf _ _)) as [_ ->].
    by rewrite table_at_empty. }
  assert (table_at P n f = if decide (f ∈ MeritOrder) then table_at P0 n f else None)
    as HP.
  { rewrite (table_at_select _ _ _ _ _ Hsel Hsub).
    destruct (decide (f ∈ MeritOrder)) as [Hf|Hf].
    - destruct (decide (f ∈ filter _ MeritOrder)) as [Hc|Hc]; [done|]. unfold table_at.
      destruct (assoc f (t_columns P0)) as [w|] eqn:Hw; [|done].
      exfalso. apply Hc, list_elem_of_filter. split; [|done].
      apply assoc_is_Some. by rewrite Hw.
    - destruct (decide (f ∈ filter _ MeritOrder)) as [Hc|Hc]; [|done].
      by apply list_elem_of_filter in Hc as [_ ?]. }
  rewrite HP, HS0, HP0. clear HP HS0 HP0.
  pose proof (zone_fuels_elem units n f) as Hps. fold ps in Hps.
  destruct (decide ((n, f) ∈ ps)) as [Hin|Hin];
    destruct (decide (f ∈ MeritOrder)) as [Hf|Hf];
    split_and!; try done; try tauto.
Qed.

(** The example of four plants and a plant outside the simulated zones. *)
Example zone_capacities_example :
  plot_zone_capacities ["WIN"; "GAS"; "NUC"; "WAT"] [] capacity_inputs capacity_units
    ["GAS"; "WAT"; "WIN"; "BIO"] false
  = Ok (Table ["BE"; "NL"; "FR"; "XX"]
          [("WIN", [None; num 90; None; None]);
           ("GAS", [num 210; None; None; None]);
           ("WAT", [num 50; None; None; None])],
        Table ["BE"; "NL"; "FR"; "XX"]
          [("GAS", [num 0; None; None; None]);
           ("WAT", [num 500; None; None; None]);
           ("WIN", [None; num 0; None; None]);
           ("BIO", [None; None; None; None]);
           ("OTH", [None; None; None; num 1])]).
Proof. by_evaluation. Qed.

(** ** Generation per zone *)

Lemma assoc_zip_replicate (idx : list string) (v : cell) r :
  assoc r (zip idx (replicate (length idx) v))
  = if decide (r ∈ idx) then Some v else None.
Proof.
  induction idx as [|t idx IH]; simpl.
  - by destruct (decide (r ∈ [])) as [?%elem_of_nil|].
  - rewrite IH. repeat case_decide; simplify_eq; try done.
    all: exfalso;
      repeat match goal with
      | H : _ ∉ _ :: _ |- _ => apply not_elem_of_cons in H as [? ?]
      | H : _ ∈ _ :: _ |- _ => apply elem_of_cons in H as [?|?]
      end; done.
Qed.

Lemma table_set_scalar_wf t c v : table_wf t → table_wf (table_set_scalar t c v).
Proof.
  intros Hwf. unfold table_set_scalar, table_wf. case_decide; simpl.
  - apply Forall_fmap. eapply Forall_impl; [exact Hwf|].
    intros [l w] Hl. simpl in *. case_decide; simpl; [|done]. by rewrite length_replicate.
  - apply Forall_app. split; [done|]. repeat constructor. simpl. by rewrite length_replicate.
Qed.

Lemma table_set_scalar_index t c v : t_index (table_set_scalar t c v) = t_index t.
Proof. unfold table_set_scalar. by case_decide. Qed.

Lemma table_set_scalar_fresh_labels t c v :
  c ∉ t_labels t → t_labels (table_set_scalar t c v) = t_labels t ++ [c].
Proof.
  intros Hc. unfold table_set_scalar. rewrite decide_False by done.
  unfold t_labels. simpl. by rewrite fmap_app.
Qed.

Lemma table_at_absent t r c : c ∉ t_labels t → table_at t r c = None.
Proof. intros Hc. unfold table_at. by rewrite (proj2 (assoc_None _ _) Hc). Qed.

Lemma table_at_set_scalar t c v r c' :
  c ∉ t_labels t →
  table_at (table_set_scalar t c v) r c'
  = if decide (c' = c) then (if decide (r ∈ t_index t) then v else None)
    else table_at t r c'.
Proof.
  intros Hc. unfold table_set_scalar. rewrite decide_False by done.
  unfold table_at. simpl. rewrite assoc_app.
  destruct (decide (c' = c)) as [->|Hne].
  - rewrite (proj2 (assoc_None _ _) Hc). simpl. rewrite decide_True by done.
    rewrite assoc_zip_replicate. by case_decide.
  - destruct (assoc c' (t_columns t)); [done|]. simpl. by rewrite decide_False.
Qed.

Lemma zero_columns_fold fs G r c :
  table_wf G →
  let G' := foldl (λ G f, if decide (f ∈ t_labels G) then G
                          else table_set_scalar G f (num 0)) G fs in
  table_wf G' ∧ t_index G' = t_index G ∧
  table_at G' r c
  = if decide ((c ∉ t_labels G) ∧ c ∈ fs ∧ r ∈ t_index G) then num 0 else table_at G r c.
Proof.
  revert G. induction fs as [|f fs IH]; intros G Hwf; simpl.
  - split_and!; [done..|]. rewrite decide_False; [done|].
    by intros (_ & ?%elem_of_nil & _).
  - destruct (decide (f ∈ t_labels G)) as [Hf|Hf].
    + destruct (IH G Hwf) as (Hwf' & Hi & ->). split_and!; [done..|].
      apply decide_ext. split.
      * intros (? & ? & ?). split_and!; [done|by right|done].
      * intros (Hc & [->|?]%elem_of_cons & ?); done.
    + destruct (IH (table_set_scalar G f (num 0)) (table_set_scalar_wf _ _ _ Hwf))
        as (Hwf' & Hi & ->).
      rewrite table_set_scalar_index in *.
      rewrite table_set_scalar_fresh_labels, table_at_set_scalar by done.
      split_and!; [done..|].
      destruct (decide (c = f)) as [->|Hne].
      * rewrite decide_False.
        2:{ intros (Hc & _). apply Hc, elem_of_app. right. left. }
        destruct (decide (r ∈ t_index G)) as [Hr|Hr].
        -- rewrite decide_True; [done|]. split_and!; [done|left|done].
        -- rewrite decide_False by (by intros (_ & _ & ?)).
           by rewrite table_at_absent.
      * apply decide_ext. rewrite not_elem_of_app, list_elem_of_singleton, elem_of_cons.
        tauto.
Qed.

Lemma foldl_result_Ok {X B} (g : X → B → result X) (h : X → B → X) l a :
  (∀ a b, g a b = Ok (h a b)) → foldl_result g a l = Ok (foldl h a l).
Proof.
  intros Hg. revert a. induction l as [|b l IH]; intros a; simpl; [done|].
  by rewrite Hg, result_bind_Ok.
Qed.

Lemma table_at_div t k r c :
  table_at (table_div t k) r c = cell_div (table_at t r c) (num k).
Proof.
  unfold table_at, table_div. simpl. rewrite assoc_map_cells.
  destruct (assoc c (t_columns t)) as [w|]; [|done]. simpl.
  revert w. induction (t_index t) as [|x idx IH]; intros [|y w]; try done.
  simpl. case_decide; [done|]. apply IH.
Qed.

Lemma table_div_labels t k : t_labels (table_div t k) = t_labels t.
Proof.
  unfold t_labels, table_div, map_cells. simpl. by rewrite <-list_fmap_compose.
Qed.

Lemma mapM_or_raise_total {K V} `{EqDecision K} (l : list K) (m : list (K * V)) :
  l ⊆ m.*1 → ∃ vs, mapM (λ k, or_raise KeyError (assoc k m)) l = Ok vs.
Proof.
  induction l as [|k l IH]; intros Hsub; [by exists []|].
  rewrite mapM_result_cons.
  destruct (proj2 (assoc_is_Some k m)) as [v ->]; [apply Hsub; left|].
  destruct IH as [vs ->]; [intros x Hx; apply Hsub; by right|].
  by eexists.
Qed.

Lemma level_columns_present (d : frame (string * string)) lvl c :
  c ∈ columns d → c.1.1 = lvl → ∃ cols, level_columns d lvl = Ok cols.
Proof.
  intros Hc Hl. unfold level_columns.
  destruct (filter _ (columns d)) as [|c0 found] eqn:Hf; [|by eexists].
  exfalso. by eapply (filter_nil_not_elem_of _ _ c).
Qed.

Section generation.
Variable MeritOrder : list string.
Variable Fuels : list string.
Variable colors : list (string * string).
Variable get_imports : frame string → string → cell.
Variable flow : frame string.
Variable PPindicators : list indicator.

Local Abbreviation fuels := (indicator_fuels PPindicators).
Local Abbreviation row := (zone_row get_imports flow PPindicators).
Local Abbreviation step := (zone_step get_imports flow PPindicators).

Lemma generation_step G z r c :
  table_wf G →
  table_wf (step G z) ∧
  table_at (step G z) r c
  = if decide (r = z) then row z c (table_at G r c) else table_at G r c.
Proof.
  intros Hwf. unfold zone_step.
  pose proof (table_at_writes (λ r c, generation_sum PPindicators c r)
                ((z,.) <$> fuels) G) as Hin.
  rewrite foldl_fmap in Hin. cbn [fst snd] in Hin.
  set (G1 := foldl _ G fuels) in *.
  assert (∀ r c, table_at G1 r c
                 = if decide (r = z ∧ c ∈ fuels) then generation_sum PPindicators c z
                   else table_at G r c) as Hat.
  { intros r0 c0. destruct (Hin r0 c0 Hwf) as [_ ->].
    destruct (decide (r0 = z ∧ c0 ∈ fuels)) as [[-> Hc]|Hne].
    - rewrite decide_True; [done|]. by apply list_elem_of_fmap_2.
    - rewrite decide_False; [done|].
      intros (f & [= -> ->] & Hf)%list_elem_of_fmap. by apply Hne. }
  assert (table_wf G1) as Hwf1 by apply (Hin r c Hwf).
  unfold zone_row. destruct (cell_gt (get_imports flow z) (num 0)) eqn:Hpos.
  - split; [by apply table_set_wf|]. rewrite table_at_set, Hat by done.
    repeat case_decide; try done; exfalso; intuition congruence.
  - split; [done|]. rewrite Hat.
    repeat case_decide; try done; exfalso; intuition congruence.
Qed.

Lemma generation_loop zs G r c :
  table_wf G →
  table_wf (foldl step G zs) ∧
  table_at (foldl step G zs) r c
  = if decide (r ∈ zs) then row r c (table_at G r c) else table_at G r c.
Proof.
  revert G. induction zs as [|z zs IH]; intros G Hwf; simpl.
  - split; [done|]. by destruct (decide (r ∈ [])) as [?%elem_of_nil|].
  - destruct (generation_step G z r c Hwf) as [Hwf1 Hat1].
    destruct (IH (step G z) Hwf1) as [Hwf2 ->]. split; [done|].
    rewrite Hat1.
    destruct (decide (r = z)) as [->|Hne].
    + rewrite (decide_True (P := z ∈ z :: zs)) by left.
      case_decide; [|done]. unfold zone_row. repeat case_decide; done.
    + destruct (decide (r ∈ zs)) as [Hin|Hin].
      * rewrite decide_True; [done|by right].
      * rewrite decide_False; [done|]. by intros [?|?]%elem_of_cons.
Qed.

End generation.

(** ** Order on the rationals *)

(** Inequalities between canonical rationals, decided on the rationals
    they stand for. *)
Ltac qc_lra :=
  unfold Qclt, Qcle in *;
  repeat match goal with
  | |- context [this (?a * ?b)] => change (this (a * b)) with (Qred (this a * this b))
  | |- context [this (?a + ?b)] => change (this (a + b)) with (Qred (this a + this b))
  | |- context [this (?a - ?b)] =>
      change (this (a - b)) with (Qred (this a + Qred (- this b)))
  | |- context [this (- ?a)] => change (this (- a)) with (Qred (- this a))
  | H : context [this (?a * ?b)] |- _ =>
      change (this (a * b)) with (Qred (this a * this b)) in H
  | H : context [this (?a + ?b)] |- _ =>
      change (this (a + b)) with (Qred (this a + this b)) in H
  | H : context [this (?a - ?b)] |- _ =>
      change (this (a - b)) with (Qred (this a + Qred (- this b))) in H
  | H : context [this (- ?a)] |- _ => change (this (- a)) with (Qred (- this a)) in H
  | |- context [this (Q2Qc ?q)] => change (this (Q2Qc q)) with (Qred q)
  | H : context [this (Q2Qc ?q)] |- _ => change (this (Q2Qc q)) with (Qred q) in H
  end;
  rewrite ?Qred_correct in *;
  lra.

Lemma Qc_sum_positive (l : list Qc) : 0 < Qc_sum l → ∃ x, x ∈ l ∧ 0 < x.
Proof.
  induction l as [|x l IH]; simpl.
  - intros H. exfalso. qc_lra.
  - intros Hsum. destruct (Qclt_le_dec 0 x) as [Hx|Hx].
    + exists x. split; [left|done].
    + destruct IH as (y & Hy & Hy0).
      * fold (Qc_sum l) in *. qc_lra.
      * exists y. split; [by right|done].
Qed.

Lemma Qc_abs_nonneg (x : Qc) : 0 ≤ Qc_abs x.
Proof.
  unfold Qc_abs. case_decide as H; [done|]. apply Qcnot_le_lt in H. qc_lra.
Qed.

Lemma np_isclose_refl (x : Qc) : np_isclose (Some x) (Some x) = true.
Proof.
  unfold np_isclose. apply bool_decide_eq_true_2.
  replace (x - x) with (Q2Qc 0) by ring.
  pose proof (Qc_abs_nonneg x) as Hx. unfold Qc_abs at 1.
  rewrite decide_True by apply Qcle_refl. qc_lra.
Qed.

(** ** The colour scale of the rug plot *)

Lemma rug_step_scale on_off normalized all_values st col st' ax :
  rug_step on_off normalized st col = (st', ax) →
  rug_state normalized all_values st →
  (∀ x, Some x ∈ col.2 → Some x ∈ all_values) →
  rug_state normalized all_values st' ∧
  ∀ c vmin vmax, marks ax = Scatter c vmin vmax →
    c = col.2 ∧
    ∃ lo hi, vmin = Some lo ∧ vmax = Some hi ∧ lo < hi ∧ bounded_by hi c.
Proof.
  unfold rug_step. intros Hstep Hst Hsub.
  destruct (cell_gt _ _) eqn:Hpos.
  2:{ injection Hstep as <- <-. split; [done|]. by intros. }
  destruct on_off.
  { injection Hstep as <- <-. split; [done|]. by intros. }
  apply bool_decide_eq_true_1 in Hpos. unfold flip in Hpos.
  change (Q2Qc (inject_Z 0)) with (Q2Qc 0) in Hpos.
  destruct (Qc_sum_positive _ Hpos) as (x0 & Hx0%elem_of_skipna & Hx0pos).
  assert (∃ hi lo,
            (if normalized then st else (max_cells col.2, min_cells col.2))
            = (Some hi, Some lo) ∧ lo ≤ hi ∧ 0 < hi ∧ bounded_by hi col.2 ∧
            (normalized = true → is_max hi all_values))
    as (hi & lo & Hst1 & Hle & Hhi & Hb & Hmax).
  { destruct normalized.
    - destruct (Hst eq_refl x0 (Hsub _ Hx0)) as (hi & lo & -> & Hle & Hmax).
      exists hi, lo. split_and!; try done.
      + eapply Qclt_le_trans; [exact Hx0pos|]. apply Hmax. auto.
      + intros x Hx. apply Hmax. auto.
    - destruct (max_cells col.2) as [hi|] eqn:Hmax.
      2:{ exfalso. destruct (max_cells_Some col.2 x0) as [_ H].
          unfold max_cells, reduce_cells in Hmax.
          destruct (skipna col.2) eqn:Hs; [|done].
          apply elem_of_skipna in Hx0. rewrite Hs in Hx0. by apply elem_of_nil in Hx0. }
      destruct (min_cells col.2) as [lo|] eqn:Hmin.
      2:{ exfalso. unfold min_cells, reduce_cells in Hmin.
          destruct (skipna col.2) eqn:Hs; [|done].
          apply elem_of_skipna in Hx0. rewrite Hs in Hx0. by apply elem_of_nil in Hx0. }
      apply max_cells_Some in Hmax as [Hin Hmax].
      apply min_cells_Some in Hmin as [Hin' Hmin].
      exists hi, lo. split_and!; try done.
      + by apply Hmax.
      + eapply Qclt_le_trans; [exact Hx0pos|]. by apply Hmax. }
  rewrite Hst1 in Hstep. cbn [fst snd] in Hstep.
  assert (∃ lo', (if np_isclose (Some lo) (Some hi)
                  then cell_mul (Some lo) (Some (Q2Qc (99 # 100))) else Some lo)
                 = Some lo' ∧ lo' < hi) as (lo' & Hlo' & Hlt).
  { destruct (np_isclose (Some lo) (Some hi)) eqn:Hclose.
    - eexists. split; [done|]. destruct (Qclt_le_dec 0 lo); qc_lra.
    - exists lo. split; [done|]. apply Qcle_lt_or_eq in Hle as [?| ->]; [done|].
      by rewrite np_isclose_refl in Hclose. }
  rewrite Hlo' in Hstep. injection Hstep as <- <-. split.
  - intros Hn x Hx. exists hi, lo'. split_and!; [done| |by apply Hmax].
    by apply Qclt_le_weak.
  - intros c vmin vmax [= <- <- <-]. split; [done|]. by exists lo', hi.
Qed.

Lemma rug_axes_scale on_off normalized all_values st cols :
  rug_state normalized all_values st →
  (∀ col x, col ∈ cols → Some x ∈ col.2 → Some x ∈ all_values) →
  ∀ ax c vmin vmax,
    ax ∈ rug_axes on_off normalized st cols → marks ax = Scatter c vmin vmax →
    ∃ lo hi, vmin = Some lo ∧ vmax = Some hi ∧ lo < hi ∧ bounded_by hi c.
Proof.
  revert st. induction cols as [|col cols IH]; intros st Hst Hsub ax c vmin vmax; simpl.
  { by intros ?%elem_of_nil. }
  destruct (rug_step on_off normalized st col) as [st' ax'] eqn:Hstep.
  destruct (rug_step_scale _ _ all_values _ _ _ _ Hstep Hst) as [Hst' Hax'].
  { intros x. apply Hsub. left. }
  intros [->|Hin]%elem_of_cons Hm.
  - by destruct (Hax' _ _ _ Hm) as [_ ?].
  - eapply (IH st'); try done. intros col' x ?. apply Hsub. by right.
Qed.

(** X6.  On every axis where [plot_rug] draws the values of a series, the
    two ends of the colour scale are numbers, the lower end is strictly
    below the upper end, and no value of the series exceeds the upper
    end; this holds in the normalized mode as well, where the ends are
    carried over from one series to the next. *)
Theorem rug_colour_scale_is_never_flat (df_series : rug_arg)
    (on_off normalized : bool) (axes : list rug_axis) :
  plot_rug df_series on_off normalized = Ok axes →
  ∀ ax c vmin vmax, ax ∈ axes → marks ax = Scatter c vmin vmax →
    ∃ lo hi, vmin = Some lo ∧ vmax = Some hi ∧ lo < hi ∧ bounded_by hi c.
Proof.
  unfold plot_rug. intros Hrun.
  destruct (match df_series with RugOther => _ | _ => _ end) as [df|] eqn:Hdf; [|done].
  rewrite result_bind_Ok in Hrun. repeat case_decide; try done.
  injection Hrun as <-. apply (rug_axes_scale _ _ (concat (columns df).*2)).
  - intros _ x Hx.
    assert (∃ hi, max_cells (concat (columns df).*2) = Some hi) as [hi Hhi].
    { unfold max_cells, reduce_cells. apply elem_of_skipna in Hx.
      destruct (skipna _); [by apply elem_of_nil in Hx|by eexists]. }
    assert (∃ lo, min_cells (concat (columns df).*2) = Some lo) as [lo Hlo].
    { unfold min_cells, reduce_cells. apply elem_of_skipna in Hx.
      destruct (skipna _); [by apply elem_of_nil in Hx|by eexists]. }
    exists hi, lo. rewrite Hhi, Hlo. split; [done|].
    apply max_cells_Some in Hhi. apply min_cells_Some in Hlo.
    split; [|done]. by eapply is_min_le_is_max.
  - intros col x Hcol Hx. apply elem_of_concat. exists col.2. split; [done|].
    by apply list_elem_of_fmap_2.
Qed.

(** ** The axes of the rug plot *)

Lemma rug_axes_labels on_off normalized st cols :
  ylabel <$> rug_axes on_off normalized st cols = String.substring 0 30 <$> cols.*1.
Proof.
  revert st. induction cols as [|col cols IH]; intros st; [done|]. simpl.
  destruct (rug_step on_off normalized st col) as [st' ax] eqn:Hstep.
  rewrite !fmap_cons, IH. f_equal.
  unfold rug_step in Hstep. repeat case_match; by simplify_eq.
Qed.


(** ** The levels of three technologies *)

Lemma select_columns_present (f : frame string) ls :
  ls ⊆ labels f →
  select_columns f ls
  = Ok (Frame (f_index f) ((λ l, (l, default [] (assoc l (columns f)))) <$> ls)).
Proof.
  intros Hsub. unfold select_columns.
  assert (mapM (λ l, (l,.) <$> or_raise KeyError (assoc l (columns f))) ls
          = Ok ((λ l, (l, default [] (assoc l (columns f)))) <$> ls)) as ->; [|done].
  induction ls as [|l ls IH]; [done|].
  rewrite mapM_result_cons, fmap_cons.
  destruct (proj2 (assoc_is_Some l (columns f))) as [v ->]; [apply Hsub; left|].
  simpl. rewrite IH; [done|]. intros x Hx. apply Hsub. by right.
Qed.

Lemma select_columns_absent (f : frame string) ls :
  ¬ ls ⊆ labels f → select_columns f ls = Raise KeyError.
Proof.
  intros Hsub. unfold select_columns.
  assert (mapM (λ l, (l,.) <$> or_raise KeyError (assoc l (columns f))) ls
          = Raise KeyError) as ->; [|done].
  induction ls as [|l ls IH].
  { exfalso. apply Hsub. by intros x ?%elem_of_nil. }
  rewrite mapM_result_cons.
  destruct (assoc l (columns f)) as [v|] eqn:Hl; [|done]. simpl.
  rewrite IH; [done|]. intros Hls. apply Hsub.
  intros x [->|Hx]%elem_of_cons; [|by apply Hls].
  apply assoc_is_Some. by rewrite Hl.
Qed.

Lemma iloc_first_selected idx (cols : list (string * list cell)) ls :
  iloc_first (Frame idx ((λ l, (l, default [] (assoc l cols))) <$> ls))
  = match head ls with
    | Some l => Ok (Series idx (default [] (assoc l cols)))
    | None => Raise IndexError
    end.
Proof. by destruct ls. Qed.

(** X8.  [plot_storage_levels] raises [KeyError] when the results hold no
    storage level or when a BATS, P2GS or HDAM unit of the zone has no
    column there, and [IndexError] when the zone lacks a unit of one of
    the three technologies.  Otherwise it returns True, having drawn for
    each technology the level of the first unit of the zone in the order
    of the unit table. *)
Theorem storage_levels_plot_shows_the_first_units (units : list unit_row)
    (results : Results) (z : string) :
  let bats := units_of units z "BATS" in
  let h2 := units_of units z "P2GS" in
  let hdam := units_of units z "HDAM" in
  match OutputStorageLevel results with
  | None => plot_storage_levels units results z = Raise KeyError
  | Some level =>
      let soc u := Series (f_index level) (default [] (assoc u (columns level))) in
      if decide (bats ++ h2 ++ hdam ⊆ labels level) then
        match head bats, head h2, head hdam with
        | Some b, Some h, Some d =>
            plot_storage_levels units results z
            = Ok (StoragePlot (soc b) (soc h) (soc d), true)
        | _, _, _ => plot_storage_levels units results z = Raise IndexError
        end
      else plot_storage_levels units results z = Raise KeyError
  end.
Proof.
  intros bats h2 hdam. unfold plot_storage_levels. fold bats h2 hdam.
  destruct (OutputStorageLevel results) as [level|]; [|done].
  cbn [or_raise]. rewrite result_bind_Ok.
  destruct (decide (bats ++ h2 ++ hdam ⊆ labels level)) as [Hsub|Hsub].
  - assert (bats ⊆ labels level ∧ h2 ⊆ labels level ∧ hdam ⊆ labels level)
      as (Hb & Hh & Hd).
    { split_and!; intros x Hx; apply Hsub; rewrite !elem_of_app; auto. }
    rewrite (select_columns_present level bats Hb), result_bind_Ok.
    rewrite (select_columns_present level h2 Hh), result_bind_Ok.
    rewrite (select_columns_present level hdam Hd), result_bind_Ok.
    rewrite !iloc_first_selected.
    destruct (head bats), (head h2), (head hdam); reflexivity.
  - destruct (decide (bats ⊆ labels level)) as [Hb|Hb].
    2:{ by rewrite (select_columns_absent level bats Hb). }
    rewrite (select_columns_present level bats Hb), result_bind_Ok.
    destruct (decide (h2 ⊆ labels level)) as [Hh|Hh].
    2:{ by rewrite (select_columns_absent level h2 Hh). }
    rewrite (select_columns_present level h2 Hh), result_bind_Ok.
    rewrite (select_columns_absent level hdam); [done|]. intros Hd. apply Hsub.
    intros x. rewrite !elem_of_app. intros [?|[?|?]]; auto.
Qed.

(** ** The congestion map *)

(** X9.  Without a range, [plot_line_congestion_map] logs that no range was
    given and counts the congestion over the whole index of the demand:
    each line that is not a rest-of-world line gets the number of
    timesteps of the horizon at which its flow is at a positive limit,
    divided by the length of the horizon.  With a range it logs nothing
    and counts over that range. *)
Theorem congestion_map_defaults_to_the_whole_horizon (inputs : Inputs)
    (geo flows : frame string) :
  frame_wf flows → frame_wf (FlowMaximum inputs) →
  f_index (Demand inputs) ⊆ f_index flows →
  f_index (Demand inputs) ⊆ f_index (FlowMaximum inputs) →
  (∀ l, l ∈ labels flows → interior_line l → l ∈ labels (FlowMaximum inputs)) →
  (∃ cgst,
     plot_line_congestion_map inputs (Some geo) (Some flows) None
     = ([NoDatetimeRange], Ok cgst) ∧
     ∀ l flow limit,
       assoc l (columns flows) = Some flow →
       assoc l (columns (FlowMaximum inputs)) = Some limit →
       interior_line l →
       assoc l (columns cgst)
       = Some [cell_div
                 (num (Z.of_nat
                    (congested_steps (Series (f_index flows) flow)
                       (Series (f_index (FlowMaximum inputs)) limit)
                       (f_index (Demand inputs)))))
                 (num (Z.of_nat (length (f_index (Demand inputs)))))]) ∧
  (∀ idx,
     plot_line_congestion_map inputs (Some geo) (Some flows) (Some idx)
     = ([], get_congestion inputs flows idx)).
Proof.
  intros Hwf Hwl Hif Hil Hlines. split; [|done].
  unfold plot_line_congestion_map, get_congestion.
  set (idx := f_index (Demand inputs)). set (cgst0 := Frame [] _).
  destruct (congestion_loop inputs flows idx Hwf Hwl Hif Hil Hlines
              (labels flows) [] cgst0) as (c & -> & Hwfc & Hc); [done| |].
  { split; [|by intros l ?%elem_of_nil]. left. split; [done|].
    unfold cgst0. cbn [columns]. apply Forall_fmap, Forall_true. done. }
  rewrite result_bind_Ok, (loc_size_Ok _ idx), result_bind_Ok by done.
  eexists. split; [done|]. intros l flow limit Hflow Hlimit Hint.
  unfold frame_div. cbn [f_index columns]. rewrite !assoc_map_cells.
  destruct (Hc l) as [_ ->]; [|done|].
  { apply assoc_is_Some. by rewrite Hflow. }
  unfold line_count. by rewrite Hflow, Hlimit.
Qed.

(** ** Where the stack is split *)

Lemma zero_line_spec idx (cs : list (string * list cell)) :
  cs ≠ [] →
  ∃ k, zero_line idx cs = (idx + k)%nat ∧ (k < length cs)%nat ∧
    (∀ i c, (i < k)%nat → cs !! i = Some c →
       ∃ m, mean_cells c.2 = Some m ∧ m ≤ 0) ∧
    (∀ c, (S k < length cs)%nat → cs !! k = Some c →
       ¬ ∃ m, mean_cells c.2 = Some m ∧ m ≤ 0).
Proof.
  revert idx. induction cs as [|c cs IH]; intros idx Hne; [done|]. simpl.
  destruct (cell_le (mean_cells c.2) (num 0)) eqn:Hle; simpl.
  - case_bool_decide as Hcs.
    + destruct (IH (S idx) Hcs) as (k & Hk & Hlt & Hneg & Hpos).
      exists (S k). split_and!; [lia|lia| |].
      * intros [|i] c' Hi Hc'; simpl in Hc'.
        -- injection Hc' as <-. unfold cell_le, cell_cmp in Hle.
           destruct (mean_cells c.2) as [m|]; [|done].
           apply bool_decide_eq_true_1 in Hle. by exists m.
        -- apply (Hneg i); [lia|done].
      * intros c' Hlen Hc'. simpl in Hc'. apply Hpos; [simpl in Hlen; lia|done].
    + exists 0%nat. split_and!; [lia|simpl; lia|intros; lia|].
      intros c' Hlen. subst cs. simpl in Hlen. lia.
  - exists 0%nat. split_and!; [lia|simpl; lia|intros; lia|].
    intros c' _ [= <-] (m & Hm & Hm0). rewrite Hm in Hle.
    unfold cell_le, cell_cmp, num in Hle. simpl in Hle.
    by apply bool_decide_eq_false_1 in Hle.
Qed.

(** X11.  The stack of a dispatch frame with at least one column is split
    at the first column whose mean is not a number at or below 0, and
    before the last column at the latest: every column before the zero
    line has a mean at or below 0 and goes, after the column "sum", to
    the negative block; the columns from the zero line on go, after the
    column "zero", to the positive block, in the order of the frame. *)
Theorem negative_block_is_the_leading_nonpositive_columns (g : frame string) :
  dispatch_frame g → columns g ≠ [] →
  ∃ lay, stack_layout g = Ok lay ∧
    (idx_zero lay < length (columns g))%nat ∧
    labels (sumplot_neg lay) = "sum" :: take (idx_zero lay) (labels g) ∧
    labels (sumplot_pos lay) = "zero" :: drop (idx_zero lay) (labels g) ∧
    (∀ i c, (i < idx_zero lay)%nat → columns g !! i = Some c →
       ∃ m, mean_cells c.2 = Some m ∧ m ≤ 0) ∧
    (∀ c, (S (idx_zero lay) < length (columns g))%nat →
       columns g !! idx_zero lay = Some c →
       ¬ ∃ m, mean_cells c.2 = Some m ∧ m ≤ 0).
Proof.
  intros Hd Hne. eexists. split; [by apply stack_layout_eq|].
  cbn [idx_zero sumplot_neg sumplot_pos].
  destruct (zero_line_spec 0 (columns g) Hne) as (k & Hk & Hlt & Hneg & Hpos).
  simpl in Hk. rewrite Hk. split_and!; try done.
  - unfold labels. cbn [columns]. rewrite cumsum_columns_labels. csimpl.
    f_equal. unfold map_cells. rewrite <-list_fmap_compose, fmap_take. done.
  - unfold labels. cbn [columns]. csimpl. by rewrite cumsum_columns_labels, fmap_drop.
Qed.

(** ** The default window *)

Lemma first_week_take (f : frame string) :
  first_week f = take (Nat.min (length (f_index f) - 1) 168) (f_index f).
Proof.
  unfold first_week, slice_to. destruct (f_index f) as [|t idx]; [done|].
  rewrite decide_False by (simpl length; lia). f_equal. simpl length. lia.
Qed.

(** X13.  Without a range, the window of [plot_dispatch] is the start of the
    index: its first 168 timesteps (7 times 24), or all timesteps but
    the last when the index has no more than 168.  Nothing is logged, and
    the last timestep of an index without repetition is never in the
    window. *)
Theorem default_window_stops_before_the_last_timestep (f : frame string) st :
  ∃ r, plot_range None f st = (Ok r, st) ∧
    r `prefix_of` f_index f ∧
    length r = Nat.min (length (f_index f) - 1) 168 ∧
    (NoDup (f_index f) → ∀ t, last (f_index f) = Some t → t ∉ r).
Proof.
  exists (first_week f). split; [done|]. rewrite first_week_take. split_and!.
  - exists (drop (Nat.min (length (f_index f) - 1) 168) (f_index f)).
    by rewrite take_drop.
  - rewrite length_take. lia.
  - intros Hnd t Hlast Hin. apply last_Some in Hlast as [l' Hl'].
    rewrite Hl' in Hnd, Hin. rewrite length_app in Hin. simpl in Hin.
    apply NoDup_app in Hnd as (_ & Hdisj & _).
    apply (Hdisj t); [|left].
    rewrite take_app_le in Hin by lia.
    by eapply subseteq_take.
Qed.

(** ** The zone that is analysed *)

(** X16.  The zone [plot_zone] works on is always one of the simulated
    zones: the zone asked for when it is one of them, in which case
    nothing is logged; otherwise a zone drawn among them, after two
    critical messages when a zone was named.  With no simulated zone the
    draw raises [ValueError].  No object of the store is modified. *)
Theorem select_zone_gives_a_simulated_zone (inputs : Inputs) (z : string)
    (draw : nat) st :
  match select_zone inputs z draw st with
  | (Ok z', st') =>
      z' ∈ sets_n inputs ∧ heap st' = heap st ∧
      (z ≠ "" ∧ z ∈ sets_n inputs → z' = z ∧ st' = st) ∧
      (z ≠ "" ∧ z ∉ sets_n inputs →
       log st' = log st ++ [(Critical, ZoneNotInResults z);
                            (Critical, RandomlySelectedZone z')])
  | (Raise e, st') => e = ValueError ∧ sets_n inputs = [] ∧ heap st' = heap st
  end.
Proof.
  unfold select_zone, random_zone.
  destruct (sets_n inputs !! (draw `mod` length (sets_n inputs))%nat) as [z0|] eqn:Hz0.
  - assert (z0 ∈ sets_n inputs) as Hin by by eapply list_elem_of_lookup_2.
    repeat case_decide; unfold mbind, M_bind, lift, logging, mret, M_ret; simpl.
    + split_and!; [done|done|by intros [? _]|by intros [? _]].
    + split_and!; [done|done|by intros [_ ?]|]. intros _. by rewrite <-app_assoc.
    + split_and!; [done|done|done|]. intros [_ ?]. done.
  - assert (sets_n inputs = []) as Hnil.
    { apply lookup_ge_None in Hz0. destruct (sets_n inputs) as [|a l]; [done|].
      pose proof (Nat.mod_upper_bound draw (length (a :: l))) as Hb.
      simpl in Hb, Hz0. lia. }
    repeat case_decide; unfold mbind, M_bind, lift, logging, mret, M_ret; simpl; try done.
    exfalso. rewrite Hnil in *.
    match goal with H : _ ∈ [] |- _ => by apply elem_of_nil in H end.
Qed.

(** ** The areas of a stack *)

Lemma bands_cons (c0 c1 : string * list cell) cs :
  bands (c0 :: c1 :: cs) = (c1.1, (c0.2, c1.2)) :: bands (c1 :: cs).
Proof. done. Qed.

Lemma bands_labels (c0 : string * list cell) cs : (bands (c0 :: cs)).*1 = cs.*1.
Proof.
  revert c0. induction cs as [|c1 cs IH]; intros c0; [done|].
  rewrite bands_cons, !fmap_cons, IH. done.
Qed.

Lemma bands_lookup (cs : list (string * list cell)) j c1 c2 :
  cs !! j = Some c1 → cs !! S j = Some c2 →
  bands cs !! j = Some (c2.1, (c1.2, c2.2)).
Proof.
  revert j. induction cs as [|c0 cs IH]; intros j; [done|].
  destruct cs as [|c cs]; [by destruct j|]. rewrite bands_cons.
  destruct j as [|j]; simpl.
  - by intros [= ->] [= ->].
  - intros H1 H2. by apply IH.
Qed.

Lemma cumsum_columns_lookup {L} (acc : list Qc) (cs : list (L * list cell)) j c :
  cs !! j = Some c →
  cumsum_columns acc cs !! j
  = Some (c.1, zip_with (λ a x, (λ _ : Qc, a) <$> x)
                 (foldl (λ acc (c : L * list cell), add_column acc c.2) acc
                    (take (S j) cs)) c.2).
Proof.
  revert acc j. induction cs as [|[l v] cs IH]; intros acc j; [done|].
  destruct j as [|j]; simpl.
  - by intros [= <-].
  - intros Hc. by rewrite (IH _ _ Hc).
Qed.

Lemma running_total {L} n (cs : list (L * list cell)) i k :
  same_length n cs → (i < n)%nat →
  foldl (λ acc (c : L * list cell), add_column acc c.2) (replicate n 0) (take k cs) !! i
  = Some (Qc_sum (cell_value i <$> take k cs)).
Proof.
  intros Hcs Hi.
  erewrite foldl_add_column_lookup; [|rewrite length_replicate|by apply lookup_replicate_2].
  - f_equal. ring.
  - apply Forall_take. done.
Qed.

(** X12.  The areas of a stack (of the positive block, of the levels) are
    one per column, in the order of the columns and under their labels,
    for a frame with distinct labels none of which is "zero"; at a
    timestep where the cells are numbers, the area of a column starts at
    the sum of the columns before it and has the value of the column as
    its height. *)
Theorem stacked_bands_follow_the_columns (f : frame string) :
  frame_wf f → NoDup (labels f) → "zero" ∉ labels f →
  ∃ g, cumsum_from_zero f = Ok g ∧ f_index g = f_index f ∧
    (bands (columns g)).*1 = labels f ∧
    ∀ i j c x,
      Forall (numeric_at i) (columns f) →
      columns f !! j = Some c → c.2 !! i = Some (Some x) →
      ∃ lo up,
        bands (columns g) !! j = Some (c.1, (lo, up)) ∧
        lo !! i = Some (Some (Qc_sum (cell_value i <$> take j (columns f)))) ∧
        up !! i = Some (Some (Qc_sum (cell_value i <$> take j (columns f)) + x)).
Proof.
  intros Hwf Hnd Hz. eexists. split; [by apply cumsum_from_zero_eq|].
  cbn [f_index columns]. set (n := length (f_index f)).
  split; [done|]. split.
  { rewrite bands_labels. apply cumsum_columns_labels. }
  intros i j c x Hnum Hc Hx.
  assert (i < n)%nat as Hi.
  { apply lookup_lt_Some in Hx.
    pose proof (proj1 (Forall_forall _ _) Hwf _ (list_elem_of_lookup_2 _ _ _ Hc)) as Hl.
    simpl in Hl. unfold n. lia. }
  pose proof (cumsum_columns_lookup (replicate n 0) _ _ _ Hc) as Hup.
  assert (∃ c1, (("zero", replicate n (Some 0))
                   :: cumsum_columns (replicate n 0) (columns f)) !! j = Some c1 ∧
                c1.2 !! i = Some (Some (Qc_sum (cell_value i <$> take j (columns f)))))
    as (c1 & Hc1 & Hlo).
  { destruct j as [|j].
    - eexists. split; [done|]. simpl. by apply lookup_replicate_2.
    - assert (is_Some (columns f !! j)) as [c' Hc'].
      { apply lookup_lt_is_Some. apply lookup_lt_Some in Hc. lia. }
      eexists. split; [simpl; by apply cumsum_columns_lookup|]. simpl.
      destruct (proj1 (Forall_forall _ _) Hnum _ (list_elem_of_lookup_2 _ _ _ Hc'))
        as [x' Hx'].
      rewrite lookup_zip_with, running_total by done. simpl. by rewrite Hx'. }
  eexists _, _. split; [|split].
  - rewrite (bands_lookup _ _ _ _ Hc1 Hup). simpl. reflexivity.
  - done.
  - simpl. rewrite lookup_zip_with, running_total by done. simpl. rewrite Hx. simpl.
    do 2 f_equal. rewrite (take_S_r _ _ _ Hc), fmap_app, Qc_sum_app. simpl.
    replace (cell_value i c) with x by (unfold cell_value; by rewrite Hx). ring.
Qed.

(** ** The range is checked before the frame is touched *)

(** X14.  A range that is not a datetime index makes [plot_dispatch] log an
    error and raise [ValueError] before it nets the flows: no object of
    the store is modified. *)
Theorem invalid_rng_aborts_before_netting demand p level curtailment shedload
    shiftedload st f :
  heap st !! p = Some f →
  plot_dispatch demand p level curtailment shedload shiftedload (Some RngOther) st
  = (Raise ValueError, State (heap st) (log st ++ [(Error, RngNotDatetimeIndex)])).
Proof.
  intros Hf. unfold plot_dispatch. rewrite M_bind_run. unfold load at 1.
  rewrite Hf. simpl. by rewrite M_bind_run.
Qed.

(** ** The new load *)

Lemma check_index_Ok lv msg s demand st u st' :
  check_index lv msg (Some s) demand st = (Ok u, st') →
  index s = index demand ∧ st' = st.
Proof.
  unfold check_index. case_decide; [by intros [= <- <-]|].
  rewrite M_bind_run. simpl. done.
Qed.

(** X15.  When [plot_dispatch] draws its figure with a shed and a shifted
    load, both are on the index of the demand, and the reduced demand
    that it draws as the new load is, at every timestep where the three
    are numbers, the demand minus the shed load minus the shifted
    load. *)
Theorem new_load_is_demand_less_shed_and_shifted demand p level curtailment
    (shed shifted : series) rng st fig st' :
  length (values demand) = length (index demand) →
  plot_dispatch demand p level curtailment (Some shed) (Some shifted) rng st
  = (Ok fig, st') →
  index shed = index demand ∧ index shifted = index demand ∧
  index (reduced_demand fig) = index demand ∧ load_changed fig = true ∧
  ∀ i (d a b : Qc),
    values demand !! i = Some (Some d) →
    values shed !! i = Some (Some a) →
    values shifted !! i = Some (Some b) →
    values (reduced_demand fig) !! i = Some (Some (d - a - b)).
Proof.
  intros Hlen Hrun. unfold plot_dispatch in Hrun.
  repeat (run_step; run_case; simplify_eq; try done).
  repeat match goal with
  | H : check_index _ _ (Some _) _ _ = (Ok _, _) |- _ =>
      apply check_index_Ok in H as [? ?]
  end.
  injection Hrun as <- <-. cbn [reduced_demand load_changed].
  unfold series_add. set (z := constant_series (num 0) (index demand)).
  assert (index (series_binop cell_add z (series_neg shed)) = index demand) as Hi1.
  { rewrite series_binop_aligned_index; simpl; congruence. }
  assert (index (series_binop cell_add (series_binop cell_add z (series_neg shed))
                   (series_neg shifted)) = index demand) as Hi2.
  { rewrite series_binop_aligned_index; simpl; congruence. }
  split_and!; try done.
  - rewrite series_binop_aligned_index; congruence.
  - intros i d x y Hd Hx Hy.
    rewrite !series_binop_aligned_values by (simpl; congruence).
    simpl. rewrite !lookup_zip_with, Hd. simpl.
    rewrite lookup_replicate_2.
    2:{ apply lookup_lt_Some in Hd. lia. }
    simpl. rewrite !list_lookup_fmap, Hx, Hy. simpl. do 2 f_equal.
    change (Q2Qc (inject_Z 0)) with (Q2Qc 0). ring.
Qed.

(** ** The range of the congestion *)

Lemma Qc_of_Z_le (a b : Z) : (a ≤ b)%Z → Q2Qc (inject_Z a) ≤ Q2Qc (inject_Z b).
Proof.
  intros Hab. change (Qred (inject_Z a) <= Qred (inject_Z b))%Q.
  rewrite !Qred_correct. by rewrite <-Zle_Qle.
Qed.

Lemma Qc_of_Z_lt (a b : Z) : (a < b)%Z → Q2Qc (inject_Z a) < Q2Qc (inject_Z b).
Proof.
  intros Hab. change (Qred (inject_Z a) < Qred (inject_Z b))%Q.
  rewrite !Qred_correct. by rewrite <-Zlt_Qlt.
Qed.

Lemma Qc_pos_ne_0 (x : Qc) : 0 < x → x ≠ 0.
Proof. intros Hx ->. by apply Qclt_not_eq in Hx. Qed.

Lemma fraction_bounds (c n : nat) :
  (c ≤ n)%nat → n ≠ 0%nat →
  ∃ q, cell_div (num (Z.of_nat c)) (num (Z.of_nat n)) = Some q ∧ 0 ≤ q ∧ q ≤ 1.
Proof.
  intros Hcn Hn. unfold cell_div, num.
  set (C := Q2Qc (inject_Z (Z.of_nat c))). set (N := Q2Qc (inject_Z (Z.of_nat n))).
  assert (0 < N) as HN by (apply (Qc_of_Z_lt 0); lia).
  assert (0 ≤ C) as HC by (apply (Qc_of_Z_le 0); lia).
  assert (C ≤ N) as HCN by (apply Qc_of_Z_le; lia).
  pose proof (Qc_pos_ne_0 _ HN) as HN0.
  rewrite decide_False by done. eexists. split; [done|].
  assert (C / N * N = C) as Hq by (field; done).
  split; apply (Qcmult_lt_0_le_reg_r _ _ N HN); rewrite Hq.
  - by replace (0 * N) with (Q2Qc 0) by ring.
  - by replace (1 * N) with N by ring.
Qed.

(** X10.  Over a window that is not empty and lies within the indexes of the
    flows, of the limits and of the demand, the congestion of every line
    of the flows that is not a rest-of-world line is one number between 0
    and 1. *)
Theorem congestion_fraction_between_0_and_1 (inputs : Inputs) (flows : frame string)
    (idx : list Z) :
  frame_wf flows → frame_wf (FlowMaximum inputs) → idx ≠ [] →
  idx ⊆ f_index flows → idx ⊆ f_index (FlowMaximum inputs) →
  idx ⊆ f_index (Demand inputs) →
  (∀ l, l ∈ labels flows → interior_line l → l ∈ labels (FlowMaximum inputs)) →
  ∃ cgst,
    get_congestion inputs flows idx = Ok cgst ∧
    ∀ l, l ∈ labels flows → interior_line l →
      ∃ q, assoc l (columns cgst) = Some [Some q] ∧ 0 ≤ q ∧ q ≤ 1.
Proof.
  intros Hwf Hwl Hne Hif Hil Hid Hlines. unfold get_congestion.
  set (cgst0 := Frame [] _).
  destruct (congestion_loop inputs flows idx Hwf Hwl Hif Hil Hlines
              (labels flows) [] cgst0) as (c & -> & Hwfc & Hc); [done| |].
  { split; [|by intros l ?%elem_of_nil]. left. split; [done|].
    unfold cgst0. cbn [columns]. apply Forall_fmap, Forall_true. done. }
  rewrite result_bind_Ok, (loc_size_Ok _ _ Hid), result_bind_Ok.
  eexists. split; [done|]. intros l Hl Hint.
  unfold frame_div. cbn [f_index columns]. rewrite !assoc_map_cells.
  destruct (Hc l Hl Hint) as [_ ->].
  destruct (fraction_bounds (line_count inputs flows idx l) (length idx))
    as (q & Hq & Hq0 & Hq1).
  - unfold line_count, congested_steps. apply length_filter.
  - by destruct idx.
  - exists q. rewrite <-Hq. done.
Qed.

(** ** The lines that carry no flow *)

Lemma loc_set_other (c : frame string) l v l' :
  counts_wf c → l' ≠ l →
  assoc l' (columns (loc_set c 0 l v))
  = if decide (f_index c = []) then (λ w, w ++ [None]) <$> assoc l' (columns c)
    else assoc l' (columns c).
Proof.
  intros [[Hi Hc]|[Hi Hc]] Hne; unfold loc_set; rewrite Hi; simpl.
  - rewrite assoc_put_column_ne by done.
    apply (assoc_fmap_snd (λ w : list cell, w ++ [None])).
  - by rewrite assoc_put_column_ne.
Qed.

Lemma assoc_blank {V} (v : V) (cs : list string) l :
  l ∈ cs → assoc l ((λ x, (x, v)) <$> cs) = Some v.
Proof.
  induction cs as [|x cs IH]; [by intros ?%elem_of_nil|].
  rewrite fmap_cons. simpl. case_decide; [done|].
  intros [->|?]%elem_of_cons; [done|]. by apply IH.
Qed.

Lemma congestion_loop_idle (inputs : Inputs) (flows : frame string) idx cols ls c c' :
  ls ⊆ labels flows → counts_wf c → idle_columns flows cols c →
  foldl_result
    (λ cgst l,
       if bool_decide (String.substring 0 3 l ≠ "RoW")
          && bool_decide (String.substring (String.length l - 3) 3 l ≠ "RoW")
       then
         flow ← loc_column flows idx l;
         limit ← loc_column (FlowMaximum inputs) idx l;
         Ok (loc_set cgst 0 l (num (Z.of_nat (count_congested flow limit))))
       else Ok cgst)
    c ls = Ok c' →
  idle_columns flows cols c'.
Proof.
  revert c. induction ls as [|l ls IH]; intros c Hls Hwf Hidle; cbn [foldl_result].
  { by intros [= <-]. }
  assert (ls ⊆ labels flows) as Hls' by (intros x Hx; apply Hls; by right).
  destruct (_ && _).
  2:{ rewrite result_bind_Ok. by apply IH. }
  destruct (loc_column flows idx l) as [flow|]; [|done]. rewrite result_bind_Ok.
  destruct (loc_column (FlowMaximum inputs) idx l) as [limit|]; [|done].
  rewrite !result_bind_Ok.
  set (v := num _).
  destruct (loc_set_row0 c l v Hwf) as (Hi' & Hwf' & _ & _).
  apply IH; [done|done|].
  intros l' Hl' Hfl. rewrite loc_set_other; [|done|].
  2:{ intros ->. apply Hfl, Hls. left. }
  rewrite Hi'. specialize (Hidle l' Hl' Hfl).
  destruct Hwf as [[Hi _]|[Hi _]]; rewrite Hi in *.
  - rewrite decide_True by done. by rewrite Hidle.
  - rewrite decide_False by done. by rewrite Hidle.
Qed.

(** X20.  A line of the network that is not a rest-of-world line and has no
    column among the flows has congestion 0, as soon as one line of the
    flows is counted. *)
Theorem idle_lines_have_no_congestion (inputs : Inputs) (flows : frame string)
    (idx : list Z) :
  frame_wf flows → frame_wf (FlowMaximum inputs) → idx ≠ [] →
  idx ⊆ f_index flows → idx ⊆ f_index (FlowMaximum inputs) →
  idx ⊆ f_index (Demand inputs) →
  (∀ l, l ∈ labels flows → interior_line l → l ∈ labels (FlowMaximum inputs)) →
  (∃ l0, l0 ∈ labels flows ∧ interior_line l0) →
  ∃ cgst,
    get_congestion inputs flows idx = Ok cgst ∧
    ∀ l, l ∈ sets_l inputs → contains "RoW" l = false → l ∉ labels flows →
      assoc l (columns cgst) = Some [Some 0].
Proof.
  intros Hwf Hwl Hne Hif Hil Hid Hlines (l0 & Hl0 & Hint0). unfold get_congestion.
  set (cols := filter _ (sets_l inputs)). set (cgst0 := Frame [] _).
  assert (counts_wf cgst0) as Hwf0.
  { left. split; [done|]. unfold cgst0. cbn [columns]. apply Forall_fmap, Forall_true. done. }
  destruct (congestion_loop inputs flows idx Hwf Hwl Hif Hil Hlines
              (labels flows) [] cgst0) as (c & Hloop & Hwfc & Hc); [done| |].
  { split; [done|]. by intros l ?%elem_of_nil. }
  assert (idle_columns flows cols c) as Hidle.
  { apply (congestion_loop_idle inputs flows idx cols (labels flows) cgst0 c);
      [done|done| |done].
    intros l' Hl' _. unfold cgst0. cbn [f_index columns]. by apply assoc_blank. }
  rewrite Hloop, result_bind_Ok, (loc_size_Ok _ _ Hid), result_bind_Ok.
  eexists. split; [done|]. intros l Hl Hrow Hfl.
  unfold frame_div. cbn [f_index columns]. rewrite !assoc_map_cells.
  rewrite Hidle; [|by apply list_elem_of_filter|done].
  destruct (Hc l0 Hl0 Hint0) as [-> _]. simpl. do 3 f_equal.
  unfold cell_div, num. rewrite decide_False.
  - f_equal. unfold Qcdiv. ring.
  - apply Qc_pos_ne_0, (Qc_of_Z_lt 0). destruct idx; [done|simpl; lia].
Qed.

(** ** The level frame *)

Lemma foldl_result_total {A B} (P : A → Prop) (g : A → B → result A) l a :
  (∀ a b, b ∈ l → P a → ∃ a', g a b = Ok a' ∧ P a') →
  P a → ∃ a', foldl_result g a l = Ok a' ∧ P a'.
Proof.
  revert a. induction l as [|b l IH]; intros a Hg Ha; simpl; [by exists a|].
  destruct (Hg a b) as (a1 & -> & Ha1); [left|done|]. simpl.
  apply IH; [|done]. intros a2 b2 Hb2. apply Hg. by right.
Qed.

Lemma put_column_elem {L} `{EqDecision L} (l : L) v (cs : list (L * list cell)) c :
  c ∈ put_column l v cs → c = (l, v) ∨ c ∈ cs.
Proof.
  induction cs as [|[l0 v0] cs IH]; simpl.
  - intros ->%list_elem_of_singleton. by left.
  - case_decide.
    + intros [->|?]%elem_of_cons; [by left|]. right. by right.
    + intros [->|Hc]%elem_of_cons; [right; left|].
      destruct (IH Hc) as [->|?]; [by left|]. right. by right.
Qed.

Section level_frame.
Variable filter_by_tech : frame string → Inputs → string → frame string.

Lemma family_step idx (levels : frame string) t (temp : frame string) :
  idx ≠ [] → NoDup (f_index temp) → t ∈ families →
  families_filled idx levels →
  ∃ levels', set_column levels t (sum_axis1 temp) = Ok levels' ∧
             families_filled idx levels'.
Proof.
  intros Hidx Hnd Ht (Hi & Hl & Hblank). unfold set_column.
  rewrite decide_False by (rewrite Hi; by intros [? _]).
  unfold reindex. cbn [index sum_axis1].
  case_decide; [|rewrite decide_True by done]; simpl.
  all: eexists; split; [done|]; split_and!; simpl; [done| |].
  all: try by apply put_column_NoDup.
  all: intros c [->|Hc]%put_column_elem Hfam; [done|]; by apply Hblank.
Qed.

(** X18.  The frame of levels that [plot_zone] hands to [plot_dispatch] is
    on the index of the storage levels; its columns are storage families
    only (HDAM, HPHS, BEVS, BATS, SCSP, P2GS), each at most once; every
    cell is a number, and no column is zero over the whole horizon.  The
    technologies of the inputs are distinct, the index is not empty and
    the levels of a family have no timestep twice. *)
Theorem level_frame_holds_the_families_only (inputs : Inputs) idx level :
  NoDup (sets_t inputs) → idx ≠ [] →
  (∀ t, t ∈ families → NoDup (f_index (filter_by_tech level inputs t))) →
  ∃ out, family_levels filter_by_tech inputs idx level = Ok out ∧
    f_index out = idx ∧ NoDup (labels out) ∧ labels out ⊆ families ∧
    ∀ c, c ∈ columns out → Forall is_Some c.2 ∧ ¬ zero_series c.2.
Proof.
  intros Hnd Hidx Htemp. unfold family_levels.
  set (levels0 := Frame idx _).
  destruct (foldl_result_total (families_filled idx)
    (λ levels t, set_column levels t (sum_axis1 (filter_by_tech level inputs t)))
    families levels0) as (levels & -> & Hi & Hl & Hblank).
  { intros a t Ht Ha. apply family_step; auto. }
  { split_and!; [done| |].
    - unfold labels, levels0. cbn [columns]. by rewrite fst_pair_fmap.
    - intros c (t & -> & _)%list_elem_of_fmap _. done. }
  rewrite result_bind_Ok, zero_drop_eq by by apply dropna_axis1_NoDup.
  eexists. split; [done|]. cbn [f_index columns dropna_axis1].
  assert (∀ c, c ∈ filter keep (filter (λ c : string * list cell, Forall is_Some c.2)
                                  (columns levels)) →
               c ∈ columns levels ∧ Forall is_Some c.2 ∧ ¬ zero_series c.2) as Hin.
  { intros c [Hk [Hs Hc]%list_elem_of_filter]%list_elem_of_filter. done. }
  split_and!; [done| | |].
  - unfold labels. cbn [columns]. eapply sublist_NoDup; [exact Hl|].
    apply fmap_sublist. etrans; apply sublist_filter.
  - intros l (c & -> & Hc)%list_elem_of_fmap.
    destruct (Hin c Hc) as (Hc' & Hs & _).
    destruct (decide (c.1 ∈ families)) as [|Hfam]; [done|].
    rewrite (Hblank c Hc' Hfam) in Hs. destruct idx; [done|].
    simpl in Hs. apply Forall_cons in Hs as [[? [=]] _].
  - intros c Hc. by destruct (Hin c Hc) as (_ & ? & ?).
Qed.
End level_frame.

(** ** The availability of the electric vehicles *)

Lemma put_column_middle {L} `{EqDecision L} (l : L) v w (l1 l2 : list (L * list cell)) :
  l ∉ l1.*1 → put_column l v (l1 ++ (l, w) :: l2) = l1 ++ (l, v) :: l2.
Proof.
  induction l1 as [|[l0 v0] l1 IH]; simpl.
  - intros _. by rewrite decide_True.
  - intros [? ?]%not_elem_of_cons. rewrite decide_False by done. by rewrite IH.
Qed.

Lemma availability_scaled_label af c : (availability_scaled af c).1 = c.1.
Proof. unfold availability_scaled. by case_match. Qed.

Lemma availability_fold (af : frame string) idx (done_cols rest : list (string * list cell)) :
  NoDup (done_cols ++ rest).*1 → frame_wf af → f_index af = idx →
  same_length (length idx) rest →
  (∀ l, l ∈ rest.*1 → contains "BEVS" l = true → l ∈ labels af) →
  foldl_result
    (λ lev col,
       if contains "BEVS" col then
         c ← get_column lev col;
         a ← get_column af col;
         set_column lev col (series_mul c a)
       else Ok lev)
    (Frame idx ((availability_scaled af <$> done_cols) ++ rest)) rest.*1
  = Ok (Frame idx (availability_scaled af <$> (done_cols ++ rest))).
Proof.
  intros Hnd Hwf Hi. revert done_cols Hnd.
  induction rest as [|[l v] rest IH]; intros done_cols Hnd Hlen Hav.
  { by rewrite !app_nil_r. }
  rewrite fmap_cons. cbn [fst foldl_result].
  apply Forall_cons in Hlen as [Hv Hlen]. simpl in Hv.
  assert (l ∉ (availability_scaled af <$> done_cols).*1) as Hl.
  { rewrite <-list_fmap_compose.
    erewrite (list_fmap_ext _ fst);
      [|intros ? c ?; apply (availability_scaled_label af c)].
    rewrite fmap_app, fmap_cons in Hnd. apply NoDup_app in Hnd as (_ & Hd & _).
    intros Hin. apply (Hd _ Hin). left. }
  replace (done_cols ++ (l, v) :: rest) with ((done_cols ++ [(l, v)]) ++ rest) in *
    by by rewrite <-app_assoc.
  destruct (contains "BEVS" l) eqn:Hb.
  - assert (assoc l ((availability_scaled af <$> done_cols) ++ (l, v) :: rest) = Some v)
      as Hget.
    { rewrite assoc_app_l by done. simpl. by rewrite decide_True. }
    rewrite (get_column_Ok (Frame idx _) l v Hget), result_bind_Ok.
    destruct (proj2 (assoc_is_Some l (columns af))) as [a Ha].
    { apply Hav; [left|done]. }
    rewrite (get_column_Ok af l a Ha), result_bind_Ok.
    pose proof (frame_wf_column _ _ _ Hwf Ha) as Hla. rewrite Hi in *.
    unfold series_mul. rewrite series_binop_aligned by done. cbn [index values].
    rewrite set_column_aligned; cbn [index values f_index columns]; [|done|].
    2:{ rewrite length_zip_with. lia. }
    rewrite put_column_middle by done.
    rewrite <-(IH (done_cols ++ [(l, v)])); try done.
    + rewrite fmap_app, <-app_assoc. simpl. unfold availability_scaled at 3.
      simpl. by rewrite Hb, Ha.
    + intros l' Hl'. apply Hav. by right.
  - rewrite <-(IH (done_cols ++ [(l, v)])); try done.
    + rewrite fmap_app, <-app_assoc. simpl. unfold availability_scaled at 3.
      simpl. by rewrite Hb.
    + intros l' Hl'. apply Hav. by right.
Qed.

(** X17.  In [plot_zone], with availability factors that are on the index
    of the levels and hold a column for each unit whose name contains
    BEVS, the levels of these units are multiplied, timestep by timestep,
    by the availability factor of the unit; every other column of the
    levels is left as it is, and the index and the order of the columns
    are kept. *)
Theorem availability_scales_the_bevs_columns_only (lev af : frame string) :
  frame_wf lev → NoDup (labels lev) → frame_wf af → f_index af = f_index lev →
  (∀ l, l ∈ labels lev → contains "BEVS" l = true → l ∈ labels af) →
  apply_availability lev af
  = Ok (Frame (f_index lev) (availability_scaled af <$> columns lev)).
Proof.
  intros Hwf Hnd Hwa Hi Hav. unfold apply_availability.
  destruct lev as [idx cs]. unfold labels in *. cbn [f_index columns] in *.
  apply (availability_fold af idx [] cs); done.
Qed.

(** ** The demand of the zone *)

Section zone_driver.
Variable get_plot_data : Inputs → Results → string → frame string.
Variable filter_by_zone : frame string → Inputs → string → frame string.
Variable filter_by_storage : frame string → Inputs → frame string.
Variable filter_by_tech : frame string → Inputs → string → frame string.

Lemma zone_demand_needs_day_ahead inputs results z :
  ("DA", z) ∉ labels (Demand inputs) →
  zone_demand filter_by_zone inputs results z = Raise KeyError.
Proof.
  intros Hda. unfold zone_demand.
  assert (get_column (Demand inputs) ("DA", z) = Raise KeyError) as Hget.
  { unfold get_column. by rewrite (proj2 (assoc_None _ _) Hda). }
  assert (∀ r : result (list Z),
            r = power_index results →
            (constant_series (num 0) <$> r) = Raise KeyError ∨
            ∃ s, (constant_series (num 0) <$> r) = Ok s) as Hpi.
  { intros r ->. unfold power_index. destruct (OutputPower results); simpl; eauto. }
  destruct (OutputPowerConsumption results) as [opc|].
  - rewrite result_bind_Ok. destruct (has_column _ _) eqn:Hflex.
    + destruct (has_column_assoc _ _ Hflex) as [v Hv].
      rewrite (get_column_Ok _ _ _ Hv), !result_bind_Ok. by rewrite Hget.
    + destruct (Hpi _ eq_refl) as [->|[s ->]]; [done|]. by rewrite result_bind_Ok, Hget.
  - destruct (Hpi _ eq_refl) as [->|[s ->]]; [done|]. rewrite result_bind_Ok.
    destruct (has_column _ _) eqn:Hflex.
    + destruct (has_column_assoc _ _ Hflex) as [v Hv].
      rewrite (get_column_Ok _ _ _ Hv), !result_bind_Ok. by rewrite Hget.
    + by rewrite result_bind_Ok, Hget.
Qed.

(** X19.  For a simulated zone without a day-ahead demand column,
    [plot_zone] raises: a [KeyError], unless the computation of the
    storage levels has failed before with an error of its own.  At that
    point it has stored the generation of the zone in GW, has logged
    nothing and has not called [plot_dispatch]. *)
Theorem plot_zone_needs_day_ahead_demand inputs results z rng draw st :
  z ≠ "" → z ∈ sets_n inputs → ("DA", z) ∉ labels (Demand inputs) →
  ∃ e,
    plot_zone get_plot_data filter_by_zone filter_by_storage filter_by_tech
      inputs results z rng draw st
    = (Raise e,
       State (<[fresh (dom (heap st)) := frame_div (get_plot_data inputs results z) 1000]>
                (heap st))
         (log st)) ∧
    (e = KeyError ∨
     storage_level filter_by_zone filter_by_storage filter_by_tech inputs results z
     = Raise e).
Proof.
  intros Hz Hin Hda. unfold plot_zone, select_zone.
  rewrite decide_False by done. rewrite decide_False by (by intros ?).
  rewrite M_bind_run. cbn [mret M_ret]. rewrite M_bind_run. unfold alloc at 1.
  rewrite M_bind_run. unfold lift at 1.
  destruct (storage_level _ _ _ _ _ _) as [level|e] eqn:Hlevel.
  - rewrite M_bind_run. unfold lift at 1.
    rewrite zone_demand_needs_day_ahead by done. eexists. split; [done|]. by left.
  - exists e. split; [done|]. by right.
Qed.
End zone_driver.

(** ** Worked examples for the further properties *)

(** The split of [stack_split_example]. *)
Lemma negative_block_is_the_leading_nonpositive_columns_witness :
  dispatch_frame stack_split_example ∧ columns stack_split_example ≠ [] ∧
  ∃ lay, stack_layout stack_split_example = Ok lay ∧
         labels (sumplot_neg lay)
         = "sum" :: take (idx_zero lay) (labels stack_split_example).
Proof.
  assert (dispatch_frame stack_split_example) as Hd.
  { split_and!; [repeat constructor | by_evaluation..]. }
  assert (columns stack_split_example ≠ []) as Hne by discriminate.
  split_and!; [exact Hd | exact Hne |].
  destruct (negative_block_is_the_leading_nonpositive_columns stack_split_example Hd Hne)
    as (lay & Hlay & _ & Hneg & _).
  exists lay. split; [exact Hlay | exact Hneg].
Defined.

(** The areas of [balance_generation]: at the second timestep wind lies
    between 60000 and 102000. *)
Lemma stacked_bands_follow_the_columns_witness :
  frame_wf balance_generation ∧ NoDup (labels balance_generation) ∧
  ("zero" ∉ labels balance_generation) ∧
  ∃ g lo up,
    cumsum_from_zero balance_generation = Ok g ∧
    bands (columns g) !! 1%nat = Some ("Wind", (lo, up)) ∧
    up !! 1%nat
    = Some (Some (Qc_sum (cell_value 1 <$> take 1 (columns balance_generation))
                  + Q2Qc (inject_Z 42000))).
Proof.
  assert (frame_wf balance_generation) as Hwf by (repeat constructor).
  assert (NoDup (labels balance_generation)) as Hnd by by_evaluation.
  assert ("zero" ∉ labels balance_generation) as Hz by by_evaluation.
  split_and!; [exact Hwf | exact Hnd | exact Hz |].
  destruct (stacked_bands_follow_the_columns balance_generation Hwf Hnd Hz)
    as (g & Hg & _ & _ & Hband).
  destruct (Hband 1%nat 1%nat ("Wind", [num 40000; num 42000]) (Q2Qc (inject_Z 42000)))
    as (lo & up & Hlu & _ & Hup); [|reflexivity|reflexivity|].
  { repeat constructor; by eexists. }
  exists g, lo, up. split_and!; [exact Hg | exact Hlu | exact Hup].
Defined.

(** A range that is no index, on [store_example]. *)
Lemma invalid_rng_aborts_before_netting_witness :
  heap store_example !! 1%positive = Some flows_example ∧
  plot_dispatch demand_example 1 None None None None (Some RngOther) store_example
  = (Raise ValueError,
     State (heap store_example) (log store_example ++ [(Error, RngNotDatetimeIndex)])).
Proof.
  split; [reflexivity|].
  exact (invalid_rng_aborts_before_netting demand_example 1 None None None None
           store_example flows_example eq_refl).
Defined.

(** A demand of [62, 57] with [1, 2] shed and nothing shifted. *)
Lemma new_load_is_demand_less_shed_and_shifted_witness :
  length (values demand_example) = length (index demand_example) ∧
  ∃ fig st',
    plot_dispatch demand_example 1 None None (Some shed_example) (Some no_load) None
      store_example = (Ok fig, st') ∧
    values (reduced_demand fig) !! 0%nat
    = Some (Some (Q2Qc (inject_Z 62) - Q2Qc (inject_Z 1) - Q2Qc (inject_Z 0))).
Proof.
  split; [reflexivity|].
  destruct (plot_dispatch demand_example 1 None None (Some shed_example) (Some no_load)
              None store_example) as [[fig|e] st'] eqn:Hrun.
  - exists fig, st'. split; [reflexivity|].
    destruct (new_load_is_demand_less_shed_and_shifted demand_example 1 None None
                shed_example no_load None store_example fig st' eq_refl Hrun)
      as (_ & _ & _ & _ & Hval).
    apply Hval; reflexivity.
  - exfalso. vm_compute in Hrun. discriminate.
Defined.

(** The congestion of [congestion_flows] over its first two timesteps. *)
Lemma congestion_fraction_between_0_and_1_witness :
  frame_wf congestion_flows ∧ frame_wf (FlowMaximum congestion_inputs) ∧
  [0; 1]%Z ≠ [] ∧
  ∃ cgst q,
    get_congestion congestion_inputs congestion_flows [0; 1]%Z = Ok cgst ∧
    assoc "B -> C" (columns cgst) = Some [Some q] ∧ 0 ≤ q ∧ q ≤ 1.
Proof.
  assert (frame_wf congestion_flows) as Hwf by (repeat constructor).
  assert (frame_wf (FlowMaximum congestion_inputs)) as Hwl by (repeat constructor).
  assert (∀ idx : list Z, [0; 1]%Z ⊆ 0%Z :: 1%Z :: idx) as Hsub.
  { intros idx x Hx. apply elem_of_cons in Hx as [->|Hx]; [left|].
    apply list_elem_of_singleton in Hx as ->. right. left. }
  split_and!; [exact Hwf | exact Hwl | discriminate |].
  destruct (congestion_fraction_between_0_and_1 congestion_inputs congestion_flows
              [0; 1]%Z Hwf Hwl) as (cgst & Hrun & Hline);
    [discriminate | apply Hsub | apply Hsub | apply Hsub | |].
  { intros l Hl _. exact Hl. }
  destruct (Hline "B -> C") as (q & Hq & Hq0 & Hq1); [by_evaluation | by_evaluation |].
  exists cgst, q. split_and!; [exact Hrun | exact Hq | exact Hq0 | exact Hq1].
Defined.

(** The line "B -> C" of the network carries no flow. *)
Lemma idle_lines_have_no_congestion_witness :
  frame_wf single_line_flows ∧ frame_wf (FlowMaximum congestion_inputs) ∧
  [0; 1]%Z ≠ [] ∧ "B -> C" ∈ sets_l congestion_inputs ∧
  ("B -> C" ∉ labels single_line_flows) ∧
  ∃ cgst,
    get_congestion congestion_inputs single_line_flows [0; 1]%Z = Ok cgst ∧
    assoc "B -> C" (columns cgst) = Some [Some 0].
Proof.
  assert (frame_wf single_line_flows) as Hwf by (repeat constructor).
  assert (frame_wf (FlowMaximum congestion_inputs)) as Hwl by (repeat constructor).
  assert (∀ idx : list Z, [0; 1]%Z ⊆ 0%Z :: 1%Z :: idx) as Hsub.
  { intros idx x Hx. apply elem_of_cons in Hx as [->|Hx]; [left|].
    apply list_elem_of_singleton in Hx as ->. right. left. }
  assert ("B -> C" ∈ sets_l congestion_inputs) as Hin by by_evaluation.
  assert ("B -> C" ∉ labels single_line_flows) as Hout by by_evaluation.
  split_and!; [exact Hwf | exact Hwl | discriminate | exact Hin | exact Hout |].
  destruct (idle_lines_have_no_congestion congestion_inputs single_line_flows
              [0; 1]%Z Hwf Hwl) as (cgst & Hrun & Hline);
    [discriminate | apply Hsub | apply Hsub | apply Hsub | | |].
  { intros l Hl _.
    apply elem_of_cons in Hl as [->|Hl]; [left|].
    apply list_elem_of_singleton in Hl as ->. right. left. }
  { exists "A -> B". split; by_evaluation. }
  exists cgst. split; [exact Hrun|]. apply Hline; [exact Hin | reflexivity | exact Hout].
Defined.

(** The levels of [levels_example], every family being given all of
    them. *)
Lemma level_frame_holds_the_families_only_witness :
  NoDup (sets_t balance_inputs) ∧ [0; 1]%Z ≠ [] ∧
  ∃ out,
    family_levels keep_tech balance_inputs [0; 1]%Z levels_example = Ok out ∧
    labels out ⊆ families.
Proof.
  assert (NoDup (sets_t balance_inputs)) as Hnd by by_evaluation.
  split_and!; [exact Hnd | discriminate |].
  destruct (level_frame_holds_the_families_only keep_tech balance_inputs [0; 1]%Z
              levels_example Hnd) as (out & Hout & _ & _ & Hlab & _).
  { discriminate. }
  { intros t _. by_evaluation. }
  exists out. split; [exact Hout | exact Hlab].
Defined.

(** The fleet is half available in the first hour. *)
Lemma availability_scales_the_bevs_columns_only_witness :
  frame_wf fleet_levels ∧ NoDup (labels fleet_levels) ∧ frame_wf fleet_availability ∧
  f_index fleet_availability = f_index fleet_levels ∧
  apply_availability fleet_levels fleet_availability
  = Ok (Frame [0; 1]%Z [("BE_BEVS", [num 5; num 20]); ("BE_HDAM", [num 5; num 5])]).
Proof.
  assert (frame_wf fleet_levels) as Hwf by (repeat constructor).
  assert (NoDup (labels fleet_levels)) as Hnd by by_evaluation.
  assert (frame_wf fleet_availability) as Hwa by (repeat constructor).
  split_and!; [exact Hwf | exact Hnd | exact Hwa | reflexivity |].
  rewrite (availability_scales_the_bevs_columns_only fleet_levels fleet_availability
             Hwf Hnd Hwa eq_refl).
  - by_evaluation.
  - intros l Hl Hb.
    apply elem_of_cons in Hl as [->|Hl]; [left|].
    apply list_elem_of_singleton in Hl as ->. discriminate.
Defined.

(** The zone "NL" of [capacity_inputs] has no day-ahead demand. *)
Lemma plot_zone_needs_day_ahead_demand_witness :
  "NL" ≠ "" ∧ "NL" ∈ sets_n capacity_inputs ∧
  (("DA", "NL") ∉ labels (Demand capacity_inputs)) ∧
  ∃ e,
    plot_zone example_plot_data keep_zone keep_storage keep_tech
      capacity_inputs balance_results "NL" None 0 empty_state
    = (Raise e,
       State (<[fresh (dom (heap empty_state))
                := frame_div (example_plot_data capacity_inputs balance_results "NL") 1000]>
                (heap empty_state))
         (log empty_state)) ∧
    (e = KeyError ∨
     storage_level keep_zone keep_storage keep_tech capacity_inputs balance_results "NL"
     = Raise e).
Proof.
  assert ("NL" ∈ sets_n capacity_inputs) as Hin by by_evaluation.
  assert (("DA", "NL") ∉ labels (Demand capacity_inputs)) as Hda by by_evaluation.
  split_and!; [discriminate | exact Hin | exact Hda |].
  destruct (plot_zone_needs_day_ahead_demand example_plot_data keep_zone keep_storage
              keep_tech capacity_inputs balance_results "NL" None 0 empty_state)
    as (e & Hrun & He); [discriminate | exact Hin | exact Hda |].
  exists e. split; [exact Hrun | exact He].
Defined.


(** A missing longitude. *)
Lemma bbox_of_a_nan_coordinate_is_nan_witness :
  length [num 1; None] = length [num 2; num 5] ∧ None ∈ [num 1; None] ∧
  ∃ y1 y2,
    compute_bbox_with_margins [num 1; None] [num 2; num 5] "Fixed" 0
    = Ok ((None, y1), (None, y2)).
Proof.
  assert (None ∈ [num 1; None]) as Hnan by (right; left).
  split_and!; [reflexivity | exact Hnan |].
  exact (bbox_of_a_nan_coordinate_is_nan [num 1; None] [num 2; num 5] "Fixed" 0
           eq_refl Hnan).
Defined.


(** The rug plot of [rug_example]. *)
Lemma rug_colour_scale_is_never_flat_witness :
  ∃ axes,
    plot_rug (RugFrame rug_example) false false = Ok axes ∧
    ∀ ax c vmin vmax, ax ∈ axes → marks ax = Scatter c vmin vmax →
      ∃ lo hi, vmin = Some lo ∧ vmax = Some hi ∧ lo < hi ∧ bounded_by hi c.
Proof.
  destruct (plot_rug (RugFrame rug_example) false false) as [axes|e] eqn:Hrun.
  - exists axes. split; [reflexivity|].
    exact (rug_colour_scale_is_never_flat _ _ _ _ Hrun).
  - exfalso. vm_compute in Hrun. discriminate.
Defined.

Example rug_plot_of_the_example :
  plot_rug (RugFrame rug_example) false false
  = Ok [RugAxis "a" (Scatter [num 1; num 0; None] (num 0) (num 1));
        RugAxis "b" (Scatter [num 5; num 5; num 5] (Some (Q2Qc (495 # 100))) (num 5));
        RugAxis "c" Blank;
        RugAxis "d" (Scatter [num (-1); num 3; num 0] (num (-1)) (num 3))].
Proof. by_evaluation. Qed.

(** The zone "BE" of [capacity_units] has a dam and neither a battery nor
    an electrolyser. *)
Example storage_levels_plot_without_a_battery :
  plot_storage_levels capacity_units dam_results "BE" = Raise IndexError.
Proof. by_evaluation. Qed.

(** The whole horizon of [congestion_flows]. *)
Lemma congestion_map_defaults_to_the_whole_horizon_witness :
  frame_wf congestion_flows ∧ frame_wf (FlowMaximum congestion_inputs) ∧
  ∃ cgst,
    plot_line_congestion_map congestion_inputs (Some (Frame [] []))
      (Some congestion_flows) None = ([NoDatetimeRange], Ok cgst) ∧
    assoc "A -> B" (columns cgst) = Some [Some (Q2Qc (1 # 2))].
Proof.
  assert (frame_wf congestion_flows) as Hwf by (repeat constructor).
  assert (frame_wf (FlowMaximum congestion_inputs)) as Hwl by (repeat constructor).
  split_and!; [exact Hwf | exact Hwl |].
  destruct (congestion_map_defaults_to_the_whole_horizon congestion_inputs (Frame [] [])
              congestion_flows Hwf Hwl) as [(cgst & Hrun & Hline) _].
  { intros x Hx. exact Hx. }
  { intros x Hx. exact Hx. }
  { intros l Hl _. exact Hl. }
  exists cgst. split; [exact Hrun|].
  rewrite (Hline "A -> B" [num 10; num 10; num 3; num 4] [num 10; num 10; num 10; num 10]);
    [by_evaluation | reflexivity | reflexivity | by_evaluation].
Defined.
